(** * html-to-image-js: a shallow embedding of the cloning and
      resource-inlining pipeline, and the properties checked against it.

    The development follows the source files one module at a time:
    - [RegExp]          the fragment of JavaScript regular expressions the
                        program uses (backtracking matcher, [exec] with
                        [lastIndex], [String.prototype.replace]);
    - [Util]            src/util.js          ([resolveUrl], [uuid], [toArray],
                        [px], [getImageSize], [getPixelRatio],
                        [checkCanvasDimensions]);
    - [Mimes]           mimes.js             ([getExtension], [getMimeType]);
    - [Dataurl]         dataurl.js           ([getCacheKey], [resourceToDataURL]);
    - [EmbedResources]  src/embed-resources.js ([toRegex], [parseURLs],
                        [embed], [filterPreferredFontFormat],
                        [embedResources]);
    - [EmbedWebfonts]   src/embed-webfonts.js ([parseCSS], [embedWebFonts]);
    - [ClonePseudos]    clone-pseudos.js;
    - [CloneNode]       src/clone-node.js.

    What is idealised or left to the host:
    - strings are sequences of 8-bit code units ([string]), and the [i]
      flag folds the case of the ASCII letters (the patterns of the program
      hold no other letters);
    - numbers are exact integers and rationals, beside NaN and the
      infinities; a double agrees with them on the integers up to 2^53
      ([exact_integer]), and the properties that read or add numbers are
      stated within that range;
    - the objects the program uses as maps ([cache], [mimes],
      [processedDefs]) are read for the keys the program stores in them,
      not for the members every object inherits; the properties that rest
      on a look-up that finds nothing are stated for the names that are no
      such member ([inherited]);
    - a style object records the declarations made on it; whether the host
      accepts a value is not modelled, nor is what goes to the console;
    - everything the program asks of its environment (random draws, the
      network, the clock, the loading of images, the selector queries, the
      parsing of a text assigned to a text area) is answered by a [Host], and what it asks of the window (the protocol
      of the location, the resolution of a relative URL, the pixel ratio,
      the environment of the process, the client box of a node) by a
      [Window];
    - a canvas keeps of a number assigned to one of its dimensions what
      its [store] makes of it. *)

From Stdlib Require Import ZArith QArith Qround Strings.String Strings.Ascii Lia.
From Stdlib Require Import Numbers.DecimalString Numbers.DecimalNat.
From stdpp Require Import gmap strings list.

#[local] Set Warnings "-register-all".
Local Open Scope string_scope.

(* ===================================================================== *)
(** ** Regular expressions *)
(* ===================================================================== *)

Module RegExp.

(** Character classes of the patterns that occur in the program. *)
Inductive cclass : Type :=
| CLit (c : ascii)              (* a pattern character *)
| CAny                          (* [\s\S] *)
| CDot                          (* .  : anything but a line terminator *)
| CSpace                        (* \s *)
| COneOf (l : list ascii)       (* [abc] *)
| CNoneOf (l : list ascii)      (* [^abc] *)
| CRange (lo hi : ascii).       (* [a-z] *)

Inductive re : Type :=
| Eps
| Chr (c : cclass)
| Seq (r1 r2 : re)
| Alt (r1 r2 : re)
| Star (greedy : bool) (r : re)
| Group (n : nat) (r : re)      (* the n-th capturing parenthesis *)
| Backref (n : nat)
| Bol                           (* ^ *)
| Eol.                          (* $ *)

Definition Plus (greedy : bool) (r : re) : re := Seq r (Star greedy r).
Definition Opt (r : re) : re := Alt r Eps.          (* r?  *)
Definition Lit (c : ascii) : re := Chr (CLit c).

(** A run of pattern characters. *)
Fixpoint Str (s : string) : re :=
  match s with
  | EmptyString => Eps
  | String c EmptyString => Lit c
  | String c s' => Seq (Lit c) (Str s')
  end.

Fixpoint Seqs (l : list re) : re :=
  match l with
  | [] => Eps
  | [r] => r
  | r :: l' => Seq r (Seqs l')
  end.

Definition is_upper (c : ascii) : bool :=
  let n := nat_of_ascii c in (65 <=? n)%nat && (n <=? 90)%nat.
Definition is_lower (c : ascii) : bool :=
  let n := nat_of_ascii c in (97 <=? n)%nat && (n <=? 122)%nat.
Definition to_upper (c : ascii) : ascii :=
  if is_lower c then ascii_of_nat (nat_of_ascii c - 32) else c.
Definition to_lower (c : ascii) : ascii :=
  if is_upper c then ascii_of_nat (nat_of_ascii c + 32) else c.

Definition ascii_in (c : ascii) (l : list ascii) : bool :=
  existsb (Ascii.eqb c) l.

(** LF and CR; the other two line terminators of the language lie
    outside the 8-bit range. *)
Definition is_line_terminator (c : ascii) : bool :=
  let n := nat_of_ascii c in (n =? 10)%nat || (n =? 13)%nat.

(** TAB, LF, VT, FF, CR, SP and NBSP. *)
Definition is_whitespace (c : ascii) : bool :=
  let n := nat_of_ascii c in
  ((9 <=? n)%nat && (n <=? 13)%nat) || (n =? 32)%nat || (n =? 160)%nat.

Definition class_base (cl : cclass) (c : ascii) : bool :=
  match cl with
  | CLit a => Ascii.eqb a c
  | CAny => true
  | CDot => negb (is_line_terminator c)
  | CSpace => is_whitespace c
  | COneOf l | CNoneOf l => ascii_in c l
  | CRange lo hi =>
      (nat_of_ascii lo <=? nat_of_ascii c)%nat
      && (nat_of_ascii c <=? nat_of_ascii hi)%nat
  end.

(** With the [i] flag a character matches when one of its case variants
    does. *)
Definition class_match (icase : bool) (cl : cclass) (c : ascii) : bool :=
  let pos :=
    class_base cl c
    || (icase && (class_base cl (to_upper c) || class_base cl (to_lower c))) in
  match cl with
  | CNoneOf _ => negb pos
  | _ => pos
  end.

Definition caps : Type := list (nat * string).

Fixpoint get_cap (n : nat) (cs : caps) : option string :=
  match cs with
  | [] => None
  | (k, w) :: cs' => if (k =? n)%nat then Some w else get_cap n cs'
  end.

Definition ascii_eq_case (icase : bool) (a b : ascii) : bool :=
  Ascii.eqb a b || (icase && Ascii.eqb (to_upper a) (to_upper b)).

(** [skip_prefix icase w s]: the rest of [s] after its prefix [w]. *)
Fixpoint skip_prefix (icase : bool) (w s : string) : option string :=
  match w, s with
  | EmptyString, _ => Some s
  | String a w', String b s' =>
      if ascii_eq_case icase a b then skip_prefix icase w' s' else None
  | String _ _, EmptyString => None
  end.

Fixpoint drop (n : nat) (s : string) : string :=
  match n, s with
  | O, _ => s
  | S n', String _ s' => drop n' s'
  | S _, EmptyString => EmptyString
  end.

Fixpoint take (n : nat) (s : string) : string :=
  match n, s with
  | O, _ => EmptyString
  | S n', String c s' => String c (take n' s')
  | S _, EmptyString => EmptyString
  end.

Section Matcher.
Context {R : Type}.
Variable icase : bool.

(** The backtracking matcher, in continuation-passing style: [i] is the
    index of the next character, [s] the text from there on.  A greedy
    star tries one more iteration before the continuation, a lazy one
    the continuation first; an iteration that consumes nothing is
    rejected, so the remaining length bounds the iterations. *)
Fixpoint m (r : re) (i : nat) (s : string) (cs : caps)
    (k : nat -> string -> caps -> option R) {struct r} : option R :=
  match r with
  | Eps => k i s cs
  | Chr cl =>
      match s with
      | String a s' => if class_match icase cl a then k (S i) s' cs else None
      | EmptyString => None
      end
  | Seq r1 r2 => m r1 i s cs (fun j t cs' => m r2 j t cs' k)
  | Alt r1 r2 =>
      match m r1 i s cs k with
      | Some x => Some x
      | None => m r2 i s cs k
      end
  | Star greedy r1 =>
      (fix loop (fuel : nat) (i : nat) (s : string) (cs : caps)
           {struct fuel} : option R :=
         let again :=
           match fuel with
           | O => None
           | S fuel' =>
               m r1 i s cs
                 (fun j t cs' => if (j =? i)%nat then None else loop fuel' j t cs')
           end in
         if greedy
         then match again with Some x => Some x | None => k i s cs end
         else match k i s cs with Some x => Some x | None => again end)
        (String.length s) i s cs
  | Group n r1 =>
      m r1 i s cs (fun j t cs' => k j t ((n, take (j - i) s) :: cs'))
  | Backref n =>
      match get_cap n cs with
      | None => k i s cs
      | Some w =>
          match skip_prefix icase w s with
          | Some t => k (i + String.length w)%nat t cs
          | None => None
          end
      end
  | Bol => if (i =? 0)%nat then k i s cs else None
  | Eol => match s with EmptyString => k i s cs | _ => None end
  end.
End Matcher.

Record match_result : Type := MatchResult {
  m_start : nat;
  m_end : nat;
  m_text : string;          (* matches[0] *)
  m_caps : caps             (* matches[1], matches[2], ... *)
}.

Definition match_at (icase : bool) (r : re) (i : nat) (s : string)
  : option match_result :=
  m icase r i s []
    (fun j _ cs => Some (MatchResult i j (take (j - i) s) cs)).

(** The leftmost match at or after index [i], where [s] is the text from
    [i] on. *)
Fixpoint search_from (icase : bool) (r : re) (i : nat) (s : string)
  : option match_result :=
  match match_at icase r i s with
  | Some mr => Some mr
  | None =>
      match s with
      | String _ s' => search_from icase r (S i) s'
      | EmptyString => None
      end
  end.

(** A regular expression object: pattern, [i] flag and, for the objects
    created with the [g] flag, the mutable [lastIndex] kept beside it. *)
Record regex : Type := Regex { pattern : re; ignoreCase : bool }.

(** [RegExp.prototype.exec] on an object with the [g] flag: the search
    starts at [lastIndex]; a match moves [lastIndex] to its end, a failure
    resets it to 0. *)
Definition exec (rx : regex) (lastIndex : nat) (str : string)
  : option match_result * nat :=
  if (String.length str <? lastIndex)%nat then (None, O)
  else
    match search_from (ignoreCase rx) (pattern rx) lastIndex (drop lastIndex str) with
    | Some mr => (Some mr, m_end mr)
    | None => (None, O)
    end.

(** [RegExp.prototype.test] and [String.prototype.search] on an object
    without the [g] flag (and [search] on any object): from index 0. *)
Definition test (rx : regex) (str : string) : bool :=
  match search_from (ignoreCase rx) (pattern rx) 0 str with
  | Some _ => true
  | None => false
  end.

Definition search (rx : regex) (str : string) : option nat :=
  m_start <$> search_from (ignoreCase rx) (pattern rx) 0 str.

(** [str.replace(rx, f)] for [rx] without the [g] flag: the first match
    only. *)
Definition replace_first (rx : regex) (f : match_result -> string)
    (str : string) : string :=
  match search_from (ignoreCase rx) (pattern rx) 0 str with
  | Some mr => take (m_start mr) str ++ f mr ++ drop (m_end mr) str
  | None => str
  end.

Section ReplaceAll.
Context {St : Type}.
Variable rx : regex.
(** The replacement callback; it may read and update state of its own. *)
Variable f : St -> match_result -> string * St.

(** [str.replace(rx, f)] for [rx] with the [g] flag: every match from
    index 0 on, left to right; after an empty match the search resumes
    one character further.  [i] is the index of the first character of
    [s]. *)
Fixpoint replace_from (fuel : nat) (i : nat) (s : string) (st : St)
  : string * St :=
  match fuel with
  | O => (s, st)
  | S fuel' =>
      match search_from (ignoreCase rx) (pattern rx) i s with
      | None => (s, st)
      | Some mr =>
          let before := take (m_start mr - i) s in
          let '(rep, st1) := f st mr in
          if (m_end mr =? m_start mr)%nat then
            match drop (m_start mr - i) s with
            | String c t =>
                let '(out, st2) := replace_from fuel' (S (m_start mr)) t st1 in
                (before ++ rep ++ String c out, st2)
            | EmptyString => (before ++ rep, st1)
            end
          else
            let '(out, st2) :=
              replace_from fuel' (m_end mr) (drop (m_end mr - i) s) st1 in
            (before ++ rep ++ out, st2)
      end
  end.

Definition replace_all_st (str : string) (st : St) : string * St :=
  replace_from (S (String.length str)) 0 str st.
End ReplaceAll.

(** [str.replace(rx, rep)] with the [g] flag and a replacement text
    without [$] patterns. *)
Definition replace_all (rx : regex) (rep : string) (str : string) : string :=
  fst (replace_all_st rx (fun (_ : unit) _ => (rep, tt)) str tt).

(** The least number of characters a match of [r] holds. *)
Fixpoint min_length (r : re) : nat :=
  match r with
  | Eps | Bol | Eol | Backref _ | Star _ _ => 0
  | Chr _ => 1
  | Seq r1 r2 => min_length r1 + min_length r2
  | Alt r1 r2 => Nat.min (min_length r1) (min_length r2)
  | Group _ r1 => min_length r1
  end.

(** Where the matcher succeeds, it has called its continuation at an end
    position inside the text, at least [min_length] further on, with the
    text from there. *)
Definition reaches {R : Type} (icase : bool) (r : re) : Prop :=
  forall i s cs (k : nat -> string -> caps -> option R) x,
    m icase r i s cs k = Some x ->
    exists j cs',
      k j (drop (j - i) s) cs' = Some x
      /\ (i + min_length r <= j)%nat /\ (j <= i + String.length s)%nat.

(** [contains needle s]: the text [needle] occurs in [s]. *)
Definition contains (needle s : string) : bool :=
  test (Regex (Str needle) false) s.

(** The number of capturing parentheses of a pattern; they are numbered
    from 1 on, so it is the largest number. *)
Fixpoint groups (r : re) : nat :=
  match r with
  | Seq r1 r2 | Alt r1 r2 => Nat.max (groups r1) (groups r2)
  | Star _ r1 => groups r1
  | Group n r1 => Nat.max n (groups r1)
  | Eps | Chr _ | Backref _ | Bol | Eol => 0
  end.

Definition digit_of (c : ascii) : option nat :=
  let n := nat_of_ascii c in
  if (48 <=? n)%nat && (n <=? 57)%nat then Some (n - 48)%nat else None.

(** The text of the [n]-th parenthesis; one that took no part in the
    match gives the empty text. *)
Definition capture (n : nat) (mr : match_result) : string :=
  default EmptyString (get_cap n (m_caps mr)).

Definition is_capture (ngroups n : nat) : bool :=
  (1 <=? n)%nat && (n <=? ngroups)%nat.

(** The replacement text of [str.replace(rx, template)] for one match:
    [$$] is a dollar, [$&] the match, [$`] and [$'] the text before and
    after it, [$n] and [$nn] the parentheses; two digits that number no
    parenthesis are read as one digit and a character, and a reference to
    no parenthesis stays as it is written. *)
Fixpoint substitution (ngroups : nat) (str : string) (mr : match_result)
    (template : string) {struct template} : string :=
  match template with
  | EmptyString => EmptyString
  | String c rest =>
      if negb (Ascii.eqb c "$") then String c (substitution ngroups str mr rest)
      else
        match rest with
        | EmptyString => String c EmptyString
        | String d1 rest1 =>
            if Ascii.eqb d1 "$" then String "$" (substitution ngroups str mr rest1)
            else if Ascii.eqb d1 "&" then m_text mr ++ substitution ngroups str mr rest1
            else if Ascii.eqb d1 "`"
            then take (m_start mr) str ++ substitution ngroups str mr rest1
            else if Ascii.eqb d1 "'"
            then drop (m_end mr) str ++ substitution ngroups str mr rest1
            else
              match digit_of d1 with
              | None => String c (substitution ngroups str mr rest)
              | Some n1 =>
                  let one :=
                    (if is_capture ngroups n1 then capture n1 mr
                     else String c (String d1 EmptyString))
                    ++ substitution ngroups str mr rest1 in
                  match rest1 with
                  | EmptyString => one
                  | String d2 rest2 =>
                      match digit_of d2 with
                      | None => one
                      | Some n2 =>
                          let nn := (10 * n1 + n2)%nat in
                          if (nn <=? ngroups)%nat then
                            (if is_capture ngroups nn then capture nn mr
                             else String c (String d1 (String d2 EmptyString)))
                            ++ substitution ngroups str mr rest2
                          else one
                      end
                  end
              end
        end
  end.

(** [str.replace(rx, template)] with the [g] flag. *)
Definition replace_all_template (rx : regex) (template : string) (str : string)
  : string :=
  fst (replace_all_st rx
         (fun (_ : unit) mr =>
            (substitution (groups (pattern rx)) str mr template, tt))
         str tt).

End RegExp.

(* ===================================================================== *)
(** ** Values of the language and of the host *)
(* ===================================================================== *)

Module Js.

(** The double quote as a character. *)
Definition dquote : ascii := "034"%char.
Definition squote : ascii := "039"%char.

(** ToBoolean on a string. *)
Definition truthy (s : string) : bool :=
  match s with EmptyString => false | String _ _ => true end.

(** An option that the caller may leave out, set to null, or set to a
    text. *)
Inductive jsvalue : Type :=
| Undefined
| Null
| Text (s : string).

Definition value_truthy (v : jsvalue) : bool :=
  match v with
  | Text s => truthy s
  | Undefined | Null => false
  end.

(** The result of running a piece of code that may throw.  [Diverged]
    stands for a computation whose recursion bound was used up. *)
Inductive completion (A : Type) : Type :=
| Normal (a : A)
| Throw (error : string)
| Diverged.
Arguments Normal {A} a.
Arguments Throw {A} error.
Arguments Diverged {A}.

(** Numbers, idealised: exact rationals beside NaN and the infinities. *)
Inductive number : Type :=
| NaN
| Infinity (negative : bool)
| Num (q : Q).

Definition is_digit (c : ascii) : bool :=
  let n := nat_of_ascii c in (48 <=? n)%nat && (n <=? 57)%nat.

Definition digit_value (c : ascii) : Z := Z.of_nat (nat_of_ascii c - 48).

(** The longest run of decimal digits at the head of [s]: its value, its
    length and the rest. *)
Fixpoint read_digits (s : string) (acc : Z) (len : nat) : Z * nat * string :=
  match s with
  | String c s' =>
      if is_digit c then read_digits s' (10 * acc + digit_value c)%Z (S len)
      else (acc, len, s)
  | EmptyString => (acc, len, s)
  end.

Fixpoint skip_whitespace (s : string) : string :=
  match s with
  | String c s' => if RegExp.is_whitespace c then skip_whitespace s' else s
  | EmptyString => s
  end.

Definition pow10 (n : nat) : Z := (10 ^ Z.of_nat n)%Z.

(** The exponent part [e[+-]digits], when one follows. *)
Definition read_exponent (s : string) : Z :=
  match s with
  | String c s' =>
      if Ascii.eqb c "e" || Ascii.eqb c "E" then
        let '(neg, s2) :=
          match s' with
          | String "-" t => (true, t)
          | String "+" t => (false, t)
          | _ => (false, s')
          end in
        let '(e, len, _) := read_digits s2 0%Z O in
        if (len =? 0)%nat then 0%Z else if neg then (- e)%Z else e
      else 0%Z
  | EmptyString => 0%Z
  end.

Definition scale10 (q : Q) (e : Z) : Q :=
  match e with
  | Z0 => q
  | Zpos _ => q * inject_Z (10 ^ e)
  | Zneg _ => q / inject_Z (10 ^ (- e))
  end.

(** [parseFloat]: leading white space, a sign, then [Infinity] or the
    longest decimal literal; NaN when there is none. *)
Definition parseFloat (s : string) : number :=
  let s := skip_whitespace s in
  let '(neg, s) :=
    match s with
    | String "-" t => (true, t)
    | String "+" t => (false, t)
    | _ => (false, s)
    end in
  if String.prefix "Infinity" s then Infinity neg
  else
    let '(ip, ilen, s1) := read_digits s 0%Z O in
    let '(fp, flen, s2) :=
      match s1 with
      | String "." t => read_digits t 0%Z O
      | _ => (0%Z, O, s1)
      end in
    if ((ilen =? 0) && (flen =? 0))%nat then NaN
    else
      let mant := (inject_Z ip + inject_Z fp / inject_Z (pow10 flen))%Q in
      let q := scale10 mant (read_exponent s2) in
      Num (Qred (if neg then - q else q)).

(** [Math.floor]. *)
Definition Math_floor (x : number) : number :=
  match x with
  | Num q => Num (inject_Z (Qfloor q))
  | _ => x
  end.

(** [x - y] for a finite [y]. *)
Definition minus (x : number) (y : Q) : number :=
  match x with
  | Num q => Num (Qred (q - y))
  | _ => x
  end.

Definition Z_toString (z : Z) : string :=
  NilEmpty.string_of_int (Z.to_int z).

(** The digits after the decimal point, by long division; [r] is the
    remainder over the denominator [d]. *)
Fixpoint fraction_digits (fuel : nat) (r d : Z) : string :=
  match fuel with
  | O => EmptyString
  | S fuel' =>
      if (r =? 0)%Z then EmptyString
      else String (ascii_of_nat (48 + Z.to_nat (10 * r / d)))
                  (fraction_digits fuel' ((10 * r) mod d) d)
  end.

(** Number to text, for the template literals: the exact decimal
    expansion (cut after 20 places). *)
Definition Number_toString (x : number) : string :=
  match x with
  | NaN => "NaN"
  | Infinity neg => if neg then "-Infinity" else "Infinity"
  | Num q =>
      let n := Z.abs (Qnum q) in
      let d := Zpos (Qden q) in
      let frac := fraction_digits 20 (n mod d) d in
      (if (Qnum q <? 0)%Z then "-" else EmptyString)
      ++ Z_toString (n / d)
      ++ (if truthy frac then "." ++ frac else EmptyString)
  end.

(** Truncation toward zero, then wrap-around into 32 signed bits: the
    conversion every bit operator applies to its operand, here [x << 0]. *)
Definition truncate (q : Q) : Z := Z.quot (Qnum q) (Zpos (Qden q)).

Definition ToInt32 (z : Z) : Z :=
  let w := (z mod 2 ^ 32)%Z in
  if (w <? 2 ^ 31)%Z then w else (w - 2 ^ 32)%Z.

Definition shl0 (q : Q) : Z := ToInt32 (truncate q).

Definition digit36 (d : Z) : ascii :=
  if (d <? 10)%Z then ascii_of_nat (48 + Z.to_nat d)
  else ascii_of_nat (87 + Z.to_nat d).

Fixpoint radix36 (fuel : nat) (n : Z) : string :=
  match fuel with
  | O => EmptyString
  | S fuel' =>
      if (n <? 36)%Z then String (digit36 n) EmptyString
      else radix36 fuel' (n / 36) ++ String (digit36 (n mod 36)) EmptyString
  end.

(** [n.toString(36)] for an integer [n]. *)
Definition toString36 (n : Z) : string :=
  let fuel := S (Z.to_nat (Z.log2 (Z.abs n))) in
  if (n <? 0)%Z then "-" ++ radix36 fuel (- n) else radix36 fuel n.

(** [s.slice(-k)]. *)
Definition slice_last (k : nat) (s : string) : string :=
  RegExp.drop (String.length s - k) s.

(** [all_chars p s]: every character of [s] satisfies [p]. *)
Fixpoint all_chars (p : ascii -> bool) (s : string) : bool :=
  match s with
  | EmptyString => true
  | String c s' => p c && all_chars p s'
  end.

(** The digits of base 36, as [toString(36)] writes them. *)
Definition is_base36 (c : ascii) : bool := is_digit c || RegExp.is_lower c.

(** [parseInt(s, 10)]: leading white space, a sign, then the longest run
    of decimal digits; NaN when there is none. *)
Definition parseInt10 (s : string) : number :=
  let s := skip_whitespace s in
  let '(neg, s) :=
    match s with
    | String "-" t => (true, t)
    | String "+" t => (false, t)
    | _ => (false, s)
    end in
  let '(n, len, _) := read_digits s 0%Z O in
  if (len =? 0)%nat then NaN
  else Num (inject_Z (if neg then - n else n)).

Definition isNaN (x : number) : bool :=
  match x with NaN => true | _ => false end.

(** ToBoolean on a number: zero and NaN are falsy. *)
Definition number_truthy (x : number) : bool :=
  match x with
  | NaN => false
  | Infinity _ => true
  | Num q => negb (Qeq_bool q 0)
  end.

(** [x + y] on numbers. *)
Definition plus (x y : number) : number :=
  match x, y with
  | NaN, _ | _, NaN => NaN
  | Infinity a, Infinity b => if Bool.eqb a b then Infinity a else NaN
  | Infinity a, Num _ | Num _, Infinity a => Infinity a
  | Num p, Num q => Num (Qred (p + q))
  end.

(** The members every object inherits from [Object.prototype]: a look-up
    in a plain object gives one of them for these names when the object
    holds no entry of its own under the name. *)
Definition Object_prototype : list string :=
  ["constructor"; "__defineGetter__"; "__defineSetter__"; "hasOwnProperty";
   "__lookupGetter__"; "__lookupSetter__"; "isPrototypeOf";
   "propertyIsEnumerable"; "toString"; "valueOf"; "__proto__";
   "toLocaleString"].

Definition inherited (key : string) : bool :=
  existsb (String.eqb key) Object_prototype.

(** The integers a number holds exactly lie between [- 2^53] and
    [2^53]. *)
Definition exact_integer (z : Z) : bool :=
  ((- 2 ^ 53 <=? z) && (z <=? 2 ^ 53))%Z.

End Js.

(* ===================================================================== *)
(** ** The document: live nodes, their clones, options, host *)
(* ===================================================================== *)

Module Dom.
Import Js.

(** The interfaces the program tests nodes against with
    [isInstanceOfElement]. *)
Inductive interface : Type :=
| HTMLCanvasElement
| HTMLVideoElement
| HTMLIFrameElement
| HTMLTextAreaElement
| HTMLInputElement
| HTMLSelectElement
| HTMLImageElement
| SVGImageElement
| Element               (* an element of no interface above *)
| NotElement.           (* text, comment, ... *)

Definition interface_eqb (a b : interface) : bool :=
  match a, b with
  | HTMLCanvasElement, HTMLCanvasElement
  | HTMLVideoElement, HTMLVideoElement
  | HTMLIFrameElement, HTMLIFrameElement
  | HTMLTextAreaElement, HTMLTextAreaElement
  | HTMLInputElement, HTMLInputElement
  | HTMLSelectElement, HTMLSelectElement
  | HTMLImageElement, HTMLImageElement
  | SVGImageElement, SVGImageElement
  | Element, Element
  | NotElement, NotElement => true
  | _, _ => false
  end.

(** One declaration: name, value, priority (empty or [important]). *)
Record declaration : Type := Declaration {
  d_name : string;
  d_value : string;
  d_priority : string
}.

(** A resolved style as [getComputedStyle] hands it out: the serialized
    text (empty in the hosts that do not provide it), the indexed
    declarations, and the [transformOrigin] property. *)
Record CSSStyleDeclaration : Type := Style {
  cssText : string;
  declarations : list declaration;
  transformOrigin : string
}.

Fixpoint lookup_declaration (name : string) (l : list declaration)
  : option declaration :=
  match l with
  | [] => None
  | d :: l' =>
      if String.eqb (d_name d) name then Some d else lookup_declaration name l'
  end.

Definition getPropertyValue (style : CSSStyleDeclaration) (name : string)
  : string :=
  match lookup_declaration name (declarations style) with
  | Some d => d_value d
  | None => EmptyString
  end.

Definition getPropertyPriority (style : CSSStyleDeclaration) (name : string)
  : string :=
  match lookup_declaration name (declarations style) with
  | Some d => d_priority d
  | None => EmptyString
  end.

(** What an assignment to [className] does on a given node. *)
Inductive setter : Type :=
| Assigns
| Ignores
| Throws.

(** A node of the live tree, with what the host reports about it. *)
Inductive Node : Type := mkNode {
  n_interface : interface;
  tagName : option string;
  attributes : list (string * string);
  className : string;
  classNameSetter : setter;
  hasStyle : bool;                          (* node.style is an object *)
  data : string;                            (* character data of a text node *)
  childNodes : list Node;
  shadowRoot : option (list Node);          (* shadowRoot.childNodes *)
  assignedNodes : option (list Node);       (* the method's result, when the node has it *)
  contentDocument_body : option Node;       (* contentDocument?.body *)
  computedStyle : CSSStyleDeclaration;      (* getComputedStyle(node) *)
  computedBefore : CSSStyleDeclaration;     (* getComputedStyle(node, ":before") *)
  computedAfter : CSSStyleDeclaration;      (* getComputedStyle(node, ":after") *)
  value : string;                           (* live value of a form control *)
  canvas_toDataURL : string;
  currentSrc : string;
  poster : string;
  frame_toDataURL : string                  (* the frame drawn on a canvas, as data URL *)
}.

(** The style object of a clone: the text last assigned to [cssText] and
    the declarations made on it afterwards, latest last. *)
Record CloneStyle : Type := mkCloneStyle {
  s_cssText : string;
  s_declarations : list declaration
}.

Definition empty_style : CloneStyle := mkCloneStyle EmptyString [].

Definition setProperty (name val priority : string) (s : CloneStyle)
  : CloneStyle :=
  mkCloneStyle (s_cssText s)
    (List.filter (fun d => negb (String.eqb (d_name d) name)) (s_declarations s)
     ++ [Declaration name val priority]).

Definition declared (s : CloneStyle) (name : string) : option declaration :=
  lookup_declaration name (s_declarations s).

(** A node of the copy. *)
Inductive Clone : Type := mkClone {
  c_interface : interface;
  c_tagName : option string;
  c_attributes : list (string * string);
  c_className : string;
  c_classNameSetter : setter;
  c_style : option CloneStyle;
  c_data : string;
  c_children : list Clone
}.

Definition set_children (l : list Clone) (c : Clone) : Clone :=
  mkClone (c_interface c) (c_tagName c) (c_attributes c) (c_className c)
          (c_classNameSetter c) (c_style c) (c_data c) l.

Definition set_style (s : option CloneStyle) (c : Clone) : Clone :=
  mkClone (c_interface c) (c_tagName c) (c_attributes c) (c_className c)
          (c_classNameSetter c) s (c_data c) (c_children c).

Definition set_className (cn : string) (c : Clone) : Clone :=
  mkClone (c_interface c) (c_tagName c) (c_attributes c) cn
          (c_classNameSetter c) (c_style c) (c_data c) (c_children c).

Definition set_attributes (l : list (string * string)) (c : Clone) : Clone :=
  mkClone (c_interface c) (c_tagName c) l (c_className c)
          (c_classNameSetter c) (c_style c) (c_data c) (c_children c).

Definition appendChild (child : Clone) (c : Clone) : Clone :=
  set_children (c_children c ++ [child]) c.

Fixpoint assoc (k : string) (l : list (string * string)) : option string :=
  match l with
  | [] => None
  | (k', v) :: l' => if String.eqb k' k then Some v else assoc k l'
  end.

Definition getAttribute (c : Clone) (name : string) : option string :=
  assoc name (c_attributes c).

Fixpoint assoc_set (k v : string) (l : list (string * string))
  : list (string * string) :=
  match l with
  | [] => [(k, v)]
  | (k', v') :: l' =>
      if String.eqb k' k then (k, v) :: l' else (k', v') :: assoc_set k v l'
  end.

Definition setAttribute (name val : string) (c : Clone) : Clone :=
  set_attributes (assoc_set name val (c_attributes c)) c.

(** [isInstanceOfElement(node, Element)]. *)
Definition is_element (i : interface) : bool :=
  negb (interface_eqb i NotElement).

Definition createTextNode (text : string) : Clone :=
  mkClone NotElement None [] EmptyString Ignores None text [].

Definition createElement (tag : string) : Clone :=
  mkClone Element (Some tag) [] EmptyString Assigns (Some empty_style)
          EmptyString [].

(** [node.cloneNode(false)]: the node itself without its children; an
    inline style travels with the attributes. *)
Definition shallow (n : Node) : Clone :=
  mkClone (n_interface n) (tagName n) (attributes n) (className n)
          (classNameSetter n) (if hasStyle n then Some empty_style else None)
          (data n) [].

(** What comes back from the network for one request. *)
Inductive fetched : Type :=
| Rejected (error : string)        (* fetch, or reading the body, rejects *)
| Responded (status : nat)
            (contentType : option string)    (* the Content-Type header *)
            (reader : option string).        (* reader.result; none on a read error *)

(** The options object; an option left out reads as its falsy value. *)
Record Options : Type := mkOptions {
  filter : option (Node -> bool);
  fontEmbedCSS : jsvalue;
  skipFonts : bool;
  preferredFontFormat : string;
  includeQueryParams : bool;
  cacheBust : bool;
  imagePlaceholder : string
}.

(** The options object [{}]. *)
Definition no_options : Options :=
  mkOptions None Undefined false EmptyString false false EmptyString.

(** The host: every answer the program gets from outside itself. *)
Record Host : Type := mkHost {
  Math_random : nat -> Q;                       (* the n-th draw, in [0, 1) *)
  fetch : nat -> string -> fetched;             (* the n-th request, by URL *)
  Date_getTime : nat -> Z;                      (* the clock at the n-th request *)
  image_loads : string -> bool;                 (* an image with this source loads *)
  document_querySelector : string -> completion (option Node);
  clone_querySelector : Clone -> string -> completion bool;
  textarea_content : string -> list Clone       (* a text parsed inside a text area *)
}.

(** The state the modules keep between calls. *)
Record World : Type := mkWorld {
  counter : nat;                    (* util.js: the counter of uuid *)
  cache : gmap string string;       (* dataurl.js: cache *)
  requests : list string            (* the URLs fetched so far, oldest first *)
}.

Definition initial : World := mkWorld O ∅ [].

(** Code that reads and writes the state and may throw. *)
Definition M (A : Type) : Type := World -> completion A * World.

Definition ret {A : Type} (a : A) : M A := fun w => (Normal a, w).

Definition throw {A : Type} (error : string) : M A := fun w => (Throw error, w).

Definition bind {A B : Type} (x : M A) (f : A -> M B) : M B :=
  fun w =>
    match x w with
    | (Normal a, w1) => f a w1
    | (Throw error, w1) => (Throw error, w1)
    | (Diverged, w1) => (Diverged, w1)
    end.

(** Code that cannot throw. *)
Definition lift {A : Type} (f : World -> A * World) : M A :=
  fun w => let '(a, w1) := f w in (Normal a, w1).

(** [try { body } catch { handler }] *)
Definition catch {A : Type} (body : M A) (handler : string -> M A) : M A :=
  fun w =>
    match body w with
    | (Throw error, w1) => handler error w1
    | other => other
    end.

(** What src/util.js reads from the window, the layout and the process
    it runs in. *)
Record Window : Type := mkWindow {
  location_protocol : string;               (* window.location.protocol *)
  (* the [href] of an anchor set to a URL, in a fresh document whose base
     is the one given, if any *)
  anchor_href : option string -> string -> string;
  devicePixelRatio : option number;         (* window.devicePixelRatio *)
  (* process.env.devicePixelRatio; none when the process, its environment
     or the variable is missing *)
  env_devicePixelRatio : option string;
  clientWidth : Node -> Q;
  clientHeight : Node -> Q
}.

(** The two dimensions of a canvas. *)
Record Canvas : Type := mkCanvas {
  canvas_width : Q;
  canvas_height : Q
}.

(** The options [getImageSize] reads; one left out is [None]. *)
Record SizeOptions : Type := mkSizeOptions {
  option_width : option number;
  option_height : option number
}.

End Dom.

Notation "x <- c ;; k" := (Dom.bind c (fun x => k))
  (at level 100, c at next level, right associativity).

(* ===================================================================== *)
(** ** src/util.js *)
(* ===================================================================== *)

Module Util.
Import Js Dom.

(** [toArray]: the loop pushes [arrayLike[i]] for [i] from 0 up. *)
Definition toArray {A : Type} (arrayLike : list A) : list A :=
  fold_left (fun arr item => (arr ++ [item])%list) arrayLike [].

(** [random]: four characters in base 36, zero-padded on the left. *)
Definition random (x : Q) : string :=
  slice_last 4 ("0000" ++ toString36 (shl0 (x * inject_Z (36 ^ 4)))).

Definition counter_toString (n : nat) : string :=
  NilEmpty.string_of_uint (Nat.to_uint n).

(** [uuid]: the closure bumps its counter, then builds the name. *)
Definition uuid (h : Host) (w : World) : string * World :=
  let counter' := S (counter w) in
  ("u" ++ random (Math_random h counter') ++ counter_toString counter',
   mkWorld counter' (cache w) (requests w)).

(** [n] calls in a row: the names, first call first. *)
Fixpoint uuids (h : Host) (n : nat) (w : World) : list string * World :=
  match n with
  | O => ([], w)
  | S n' =>
      let '(name, w1) := uuid h w in
      let '(names, w2) := uuids h n' w1 in
      (name :: names, w2)
  end.

Definition isInstanceOfElement (i instance : interface) : bool :=
  match instance with
  | Element => is_element i        (* every element is an Element *)
  | _ => interface_eqb i instance
  end.

(** The pattern [^[a-z]+://] with flag [i]. *)
Definition absoluteRegex : RegExp.regex :=
  RegExp.Regex
    (RegExp.Seqs [RegExp.Bol;
                  RegExp.Plus true (RegExp.Chr (RegExp.CRange "a" "z"));
                  RegExp.Str "://"])
    true.

(** The pattern [^//]. *)
Definition protocolRelativeRegex : RegExp.regex :=
  RegExp.Regex (RegExp.Seq RegExp.Bol (RegExp.Str "//")) false.

(** The pattern [^[a-z]+:] with flag [i]. *)
Definition schemeRegex : RegExp.regex :=
  RegExp.Regex
    (RegExp.Seqs [RegExp.Bol;
                  RegExp.Plus true (RegExp.Chr (RegExp.CRange "a" "z"));
                  RegExp.Lit ":"])
    true.

(** [resolveUrl]: a URL with a scheme is absolute already; any other is
    resolved by an anchor of a fresh document, against [baseUrl] when it
    is truthy. *)
Definition resolveUrl (win : Window) (url : string) (baseUrl : option string)
  : string :=
  (* url is absolute already *)
  if RegExp.test absoluteRegex url then url
  (* url is absolute already, without protocol *)
  else if RegExp.test protocolRelativeRegex url then location_protocol win ++ url
  (* dataURI, mailto:, tel:, etc. *)
  else if RegExp.test schemeRegex url then url
  else
    anchor_href win
      match baseUrl with
      | Some b => if truthy b then Some b else None
      | None => None
      end
      url.

(** [px]: [val.replace(...)] with a text as pattern takes out its first
    occurrence only. *)
Definition px (node : Node) (styleProperty : string) : number :=
  let val := getPropertyValue (computedStyle node) styleProperty in
  if truthy val
  then parseFloat
         (RegExp.replace_first (RegExp.Regex (RegExp.Str "px") false)
                               (fun _ => EmptyString) val)
  else Num 0.

Definition getNodeWidth (win : Window) (node : Node) : number :=
  let leftBorder := px node "border-left-width" in
  let rightBorder := px node "border-right-width" in
  plus (plus (Num (clientWidth win node)) leftBorder) rightBorder.

Definition getNodeHeight (win : Window) (node : Node) : number :=
  let topBorder := px node "border-top-width" in
  let bottomBorder := px node "border-bottom-width" in
  plus (plus (Num (clientHeight win node)) topBorder) bottomBorder.

(** [x || y] for an [x] that may be left out. *)
Definition or_else (x : option number) (y : number) : number :=
  match x with
  | Some v => if number_truthy v then v else y
  | None => y
  end.

(** [getImageSize]: the pair of [width] and [height]. *)
Definition getImageSize (win : Window) (targetNode : Node) (options : SizeOptions)
  : number * number :=
  let width := or_else (option_width options) (getNodeWidth win targetNode) in
  let height := or_else (option_height options) (getNodeHeight win targetNode) in
  (width, height).

Definition getPixelRatio (win : Window) : number :=
  let val := env_devicePixelRatio win in
  let ratio :=
    match val with
    | Some v =>
        if truthy v then
          let ratio := parseInt10 v in
          Some (if isNaN ratio then Num 1 else ratio)
        else None
    | None => None
    end in
  or_else ratio (or_else (devicePixelRatio win) (Num 1)).

Definition canvasDimensionLimit : Q := 16384.

(** [x > y] *)
Definition gt (x y : Q) : bool := negb (Qle_bool x y).

Section Canvas.
(** What the canvas keeps of a number assigned to one of its dimensions:
    an element keeps its integer part, any other object the number. *)
Variable store : Q -> Q.

Definition set_width (v : Q) (canvas : Canvas) : Canvas :=
  mkCanvas (store v) (canvas_height canvas).

Definition set_height (v : Q) (canvas : Canvas) : Canvas :=
  mkCanvas (canvas_width canvas) (store v).

Definition checkCanvasDimensions (canvas : Canvas) : Canvas :=
  if gt (canvas_width canvas) canvasDimensionLimit
     || gt (canvas_height canvas) canvasDimensionLimit
  then
    if gt (canvas_width canvas) canvasDimensionLimit
       && gt (canvas_height canvas) canvasDimensionLimit
    then
      if gt (canvas_width canvas) (canvas_height canvas) then
        let canvas :=
          set_height (canvas_height canvas
                      * (canvasDimensionLimit / canvas_width canvas)) canvas in
        set_width canvasDimensionLimit canvas
      else
        let canvas :=
          set_width (canvas_width canvas
                     * (canvasDimensionLimit / canvas_height canvas)) canvas in
        set_height canvasDimensionLimit canvas
    else if gt (canvas_width canvas) canvasDimensionLimit then
      let canvas :=
        set_height (canvas_height canvas
                    * (canvasDimensionLimit / canvas_width canvas)) canvas in
      set_width canvasDimensionLimit canvas
    else
      let canvas :=
        set_width (canvas_width canvas
                   * (canvasDimensionLimit / canvas_height canvas)) canvas in
      set_height canvasDimensionLimit canvas
  else canvas.
End Canvas.

End Util.

(* ===================================================================== *)
(** ** mimes.js *)
(* ===================================================================== *)

Module Mimes.
Import RegExp Js.

Definition WOFF : string := "application/font-woff".
Definition JPEG : string := "image/jpeg".

Definition mimes : list (string * string) :=
  [ ("woff", WOFF); ("woff2", WOFF);
    ("ttf", "application/font-truetype");
    ("eot", "application/vnd.ms-fontobject");
    ("png", "image/png"); ("jpg", JPEG); ("jpeg", JPEG);
    ("gif", "image/gif"); ("tiff", "image/tiff");
    ("svg", "image/svg+xml"); ("webp", "image/webp") ].

(** [/\.([^./]*?)$/g] *)
Definition extensionRegex : regex :=
  Regex (Seqs [Lit "."; Group 1 (Star false (Chr (CNoneOf ["."; "/"]%char))); Eol])
        false.

Definition getExtension (url : string) : string :=
  match fst (exec extensionRegex 0 url) with
  | Some mr => default EmptyString (get_cap 1 (m_caps mr))
  | None => EmptyString
  end.

Fixpoint toLowerCase (s : string) : string :=
  match s with
  | EmptyString => EmptyString
  | String c s' => String (to_lower c) (toLowerCase s')
  end.

(** [mimes[extension]] or the empty text, for the keys the table itself
    holds. *)
Definition getMimeType (url : string) : string :=
  let extension := toLowerCase (getExtension url) in
  default EmptyString (Dom.assoc extension mimes).

End Mimes.

(* ===================================================================== *)
(** ** dataurl.js *)
(* ===================================================================== *)

Module Dataurl.
Import RegExp Js Dom.

Fixpoint split_on (sep : ascii) (s : string) (cur : string) : list string :=
  match s with
  | EmptyString => [cur]
  | String c s' =>
      if Ascii.eqb c sep then cur :: split_on sep s' EmptyString
      else split_on sep s' (cur ++ String c EmptyString)
  end.

(** [dataURL.split(/,/)[1]]; [None] is [undefined]. *)
Definition getContentFromDataUrl (dataURL : string) : option string :=
  nth_error (split_on "," dataURL EmptyString) 1.

(** [/^(data:)/] *)
Definition isDataUrl (url : string) : bool :=
  match search (Regex (Seq Bol (Group 1 (Str "data:"))) false) url with
  | Some _ => true
  | None => false
  end.

(** The template literal prints an undefined content as [undefined]. *)
Definition makeDataUrl (content : option string) (mimeType : string) : string :=
  "data:" ++ mimeType ++ ";base64," ++ default "undefined" content.

(** [/\?.*/] *)
Definition queryRegex : regex :=
  Regex (Seq (Lit "?") (Star true (Chr CDot))) false.

(** [/ttf|otf|eot|woff2?/i] *)
Definition fontRegex : regex :=
  Regex (Alt (Str "ttf")
        (Alt (Str "otf")
        (Alt (Str "eot")
             (Seq (Str "woff") (Opt (Lit "2"))))))
        true.

(** [/.*\//] *)
Definition directoryRegex : regex :=
  Regex (Seq (Star true (Chr CDot)) (Lit "/")) false.

Definition getCacheKey (url contentType : string) (includeQueryParams : bool)
  : string :=
  let key := replace_first queryRegex (fun _ => EmptyString) url in
  let key := if includeQueryParams then url else key in
  (* font resource *)
  let key :=
    if test fontRegex key
    then replace_first directoryRegex (fun _ => EmptyString) key
    else key in
  if truthy contentType then "[" ++ contentType ++ "]" ++ key else key.

Definition log_request (url : string) (w : World) : World :=
  mkWorld (counter w) (cache w) (requests w ++ [url]).

Definition set_cache (key v : string) (w : World) : World :=
  mkWorld (counter w) (<[key := v]> (cache w)) (requests w).

(** [fetchAsDataURL] once the network has answered with [r]: a 404 and a
    read error throw, anything else goes through [process], whose own
    exception rejects the promise as well. *)
Definition fetchAsDataURL {A : Type} (url : string) (r : fetched)
    (process : option string -> string -> completion A) : completion A :=
  match r with
  | Rejected error => Throw error
  | Responded status header reader =>
      if (status =? 404)%nat
      then Throw ("Resource " ++ String dquote (url ++ String dquote " not found"))
      else
        match reader with
        | None => Throw "error reading the response"
        | Some result => process header result
        end
  end.

Definition try_catch {A : Type} (body : completion A)
    (handler : string -> completion A) : completion A :=
  match body with
  | Throw error => handler error
  | _ => body
  end.

(** A call that has found nothing in the cache and waits for the
    network. *)
Record pending : Type := Pending {
  p_cacheKey : string;
  p_contentType : string;
  p_resourceUrl : string;        (* the URL fetched, cache-busted or not *)
  p_request : nat                (* the number of this request *)
}.

Inductive started : Type :=
| Hit (dataURL : string)
| Miss (p : pending).

(** [resourceToDataURL] up to its only suspension point, the [await] of
    [fetchAsDataURL]: the key, the look-up, the cache-busting suffix, the
    request. *)
Definition start (h : Host) (resourceUrl contentType : string)
    (options : Options) (w : World) : started * World :=
  let cacheKey := getCacheKey resourceUrl contentType (includeQueryParams options) in
  match cache w !! cacheKey with
  | Some dataURL => (Hit dataURL, w)
  | None =>
      let n := length (requests w) in
      let resourceUrl :=
        if cacheBust options
        then resourceUrl
             ++ (if test (Regex (Lit "?") false) resourceUrl then "&" else "?")
             ++ Z_toString (Date_getTime h n)
        else resourceUrl in
      (Miss (Pending cacheKey contentType resourceUrl n), log_request resourceUrl w)
  end.

(** The callback given to [fetchAsDataURL]: a missing content type is
    taken from the response header. *)
Definition process (contentType : string) (header : option string)
    (result : string) : completion (option string * string) :=
  let contentType :=
    if truthy contentType then contentType else default EmptyString header in
  Normal (getContentFromDataUrl result, contentType).

(** [options.imagePlaceholder] or, when it is falsy, the empty text. *)
Definition placeholder (options : Options) : string :=
  if truthy (imagePlaceholder options) then imagePlaceholder options
  else EmptyString.

(** [resourceToDataURL] from the answer [r] of the network on: the
    try/catch around the fetch, the write to the cache, the return. *)
Definition settle (options : Options) (p : pending) (r : fetched) (w : World)
  : completion string * World :=
  let dataURL :=
    try_catch
      (match fetchAsDataURL (p_resourceUrl p) r (process (p_contentType p)) with
       | Normal (content, contentType) => Normal (makeDataUrl content contentType)
       | Throw error => Throw error
       | Diverged => Diverged
       end)
      (fun _ => Normal (placeholder options)) in
  match dataURL with
  | Normal d => (Normal d, set_cache (p_cacheKey p) d w)
  | Throw error => (Throw error, w)
  | Diverged => (Diverged, w)
  end.

(** A call that runs alone, from its start to its return. *)
Definition resourceToDataURL (h : Host) (resourceUrl contentType : string)
    (options : Options) (w : World) : completion string * World :=
  match start h resourceUrl contentType options w with
  | (Hit dataURL, w1) => (Normal dataURL, w1)
  | (Miss p, w1) =>
      settle options p (fetch h (p_request p) (p_resourceUrl p)) w1
  end.

(** Calls in flight together.  The calls of one conversion run on one
    thread and give way to each other only while they wait for the
    network: an execution is a sequence of events, each the start of a
    call or the arrival of the answer to a call that waits. *)
Inductive event : Type :=
| Call (id : nat) (resourceUrl contentType : string) (options : Options)
| Answer (id : nat).

Record run_state : Type := RunState {
  world : World;
  waiting : list (nat * (Options * pending));   (* by call id *)
  returned : list (nat * completion string)     (* by call id, oldest first *)
}.

Fixpoint take_waiting (id : nat) (l : list (nat * (Options * pending)))
  : option (Options * pending) * list (nat * (Options * pending)) :=
  match l with
  | [] => (None, [])
  | (k, x) :: l' =>
      if (k =? id)%nat then (Some x, l')
      else let '(found, rest) := take_waiting id l' in (found, (k, x) :: rest)
  end.

Definition step (h : Host) (s : run_state) (e : event) : run_state :=
  match e with
  | Call id resourceUrl contentType options =>
      match start h resourceUrl contentType options (world s) with
      | (Hit dataURL, w) =>
          RunState w (waiting s) (returned s ++ [(id, Normal dataURL)])
      | (Miss p, w) =>
          RunState w (waiting s ++ [(id, (options, p))]) (returned s)
      end
  | Answer id =>
      match take_waiting id (waiting s) with
      | (Some (options, p), rest) =>
          let '(res, w) :=
            settle options p (fetch h (p_request p) (p_resourceUrl p)) (world s) in
          RunState w rest (returned s ++ [(id, res)])
      | (None, _) => s
      end
  end.

Definition run (h : Host) (w : World) (events : list event) : run_state :=
  fold_left (step h) events (RunState w [] []).

(** The calls of a schedule, by id, each with the cache key its
    arguments derive. *)
Definition call_key (e : event) : option (nat * string) :=
  match e with
  | Call id resourceUrl contentType options =>
      Some (id, getCacheKey resourceUrl contentType (includeQueryParams options))
  | Answer _ => None
  end.

Definition call_keys (events : list event) : list (nat * string) :=
  omap call_key events.

Fixpoint key_of (id : nat) (keys : list (nat * string)) : option string :=
  match keys with
  | [] => None
  | (k, key) :: rest => if (k =? id)%nat then Some key else key_of id rest
  end.

(** The results of the calls for [key] that have returned, oldest
    first. *)
Definition completed (key : string) (events : list event) (s : run_state)
  : list (completion string) :=
  omap (fun '(id, r) =>
          match key_of id (call_keys events) with
          | Some k => if String.eqb k key then Some r else None
          | None => None
          end)
       (returned s).

End Dataurl.

(* ===================================================================== *)
(** ** src/embed-resources.js *)
(* ===================================================================== *)

Module EmbedResources.
Import RegExp Js Dom.

Definition quotes : list ascii := [squote; dquote].

(** The pattern [url\( (Q?) ([^Q]+?) \1 \)] with flag [g], where [Q]
    stands for the class of the single and the double quote. *)
Definition URL_REGEX : regex :=
  Regex (Seqs [Str "url(";
               Group 1 (Opt (Chr (COneOf quotes)));
               Group 2 (Plus false (Chr (CNoneOf quotes)));
               Backref 1;
               Lit ")"])
        false.

(** The pattern [url\( [^)]+ \) \s* format\( (Q?) ([^Q]+) \1 \)] with
    flag [g]. *)
Definition URL_WITH_FORMAT_REGEX : regex :=
  Regex (Seqs [Str "url(";
               Plus true (Chr (CNoneOf [")"%char]));
               Lit ")";
               Star true (Chr CSpace);
               Str "format(";
               Group 1 (Opt (Chr (COneOf quotes)));
               Group 2 (Plus true (Chr (CNoneOf quotes)));
               Backref 1;
               Lit ")"])
        false.

(** The pattern [src: \s* (?: url\( [^)]+ \) \s* format\( [^)]+ \) [,;] \s* )+]
    with flag [g]. *)
Definition FONT_SRC_REGEX : regex :=
  Regex (Seqs [Str "src:";
               Star true (Chr CSpace);
               Plus true
                 (Seqs [Str "url(";
                        Plus true (Chr (CNoneOf [")"%char]));
                        Lit ")";
                        Star true (Chr CSpace);
                        Str "format(";
                        Plus true (Chr (CNoneOf [")"%char]));
                        Lit ")";
                        Chr (COneOf [","; ";"]%char);
                        Star true (Chr CSpace)])])
        false.

Definition shouldEmbed (url : string) : bool :=
  match search URL_REGEX url with
  | Some _ => true
  | None => false
  end.

(** The callback of [parseURLs] pushes the second group of every match
    and puts the match back. *)
Definition parseURLs (cssText : string) : list string :=
  let urls :=
    snd (replace_all_st URL_REGEX
           (fun (urls : list string) mr =>
              (m_text mr, (urls ++ [default EmptyString (get_cap 2 (m_caps mr))])%list))
           cssText []) in
  List.filter (fun url => negb (Dataurl.isDataUrl url)) urls.

(** The loop of the replacement callback of [filterPreferredFontFormat]:
    [URL_WITH_FORMAT_REGEX.exec(match)] until an alternative has the
    preferred format or none is left.  [lastIndex] is the one of
    [URL_WITH_FORMAT_REGEX], an object of the module: it is where the
    previous call of [exec] left it. *)
Fixpoint pick_format (fuel : nat) (preferredFontFormat match_ : string)
    (lastIndex : nat) : string * nat :=
  match fuel with
  | O => (EmptyString, lastIndex)
  | S fuel' =>
      match exec URL_WITH_FORMAT_REGEX lastIndex match_ with
      | (None, lastIndex') => (EmptyString, lastIndex')
      | (Some mr, lastIndex') =>
          let src := m_text mr in
          let format := default EmptyString (get_cap 2 (m_caps mr)) in
          if negb (truthy format) then (EmptyString, lastIndex')
          else if String.eqb format preferredFontFormat
               then ("src: " ++ src ++ ";", lastIndex')
               else pick_format fuel' preferredFontFormat match_ lastIndex'
      end
  end.

(** Every successful [exec] moves [lastIndex] forward and a [lastIndex]
    beyond the text fails, so the loop runs at most [length + 2] times. *)
Definition pick_bound (match_ : string) : nat := S (S (String.length match_)).

Definition filterPreferredFontFormat (str : string) (options : Options)
    (lastIndex : nat) : string * nat :=
  if negb (truthy (preferredFontFormat options)) then (str, lastIndex)
  else
    replace_all_st FONT_SRC_REGEX
      (fun lastIndex mr =>
         pick_format (pick_bound (m_text mr)) (preferredFontFormat options)
                     (m_text mr) lastIndex)
      str lastIndex.

(** The class of [toRegex]: the characters that get a backslash. *)
Definition escaped_characters : list ascii :=
  ["."; "*"; "+"; "?"; "^"; "$"; "{"; "}"; "("; ")"; "|"; "["; "]"; "/"; "\"]%char.

(** The pattern made of one parenthesis around that class, flag [g]. *)
Definition escapeRegex : regex :=
  Regex (Group 1 (Chr (COneOf escaped_characters))) false.

(** [url.replace(..., "\$1")]: a backslash before every such character. *)
Definition escape (url : string) : string :=
  replace_all_template escapeRegex "\$1" url.

(** The characters with a meaning of their own in a pattern. *)
Definition is_syntax_character (c : ascii) : bool :=
  ascii_in c ["^"; "$"; "\"; "."; "*"; "+"; "?"; "("; ")"; "["; "]"; "{"; "}"; "|"]%char.

(** How the constructor of expressions reads a pattern text made of
    characters that stand for themselves and of characters behind a
    backslash; [None] for any other text. *)
Fixpoint pattern_characters (text : string) : option string :=
  match text with
  | EmptyString => Some EmptyString
  | String c rest =>
      if Ascii.eqb c "\" then
        match rest with
        | String e rest' =>
            if is_syntax_character e || Ascii.eqb e "/"
            then String e <$> pattern_characters rest'
            else None
        | EmptyString => None
        end
      else if is_syntax_character c then None
      else String c <$> pattern_characters rest
  end.

(** [toRegex]: the pattern [(url\(Q?)(escaped)(Q?\))] with flag [g],
    where [Q] stands for the class of the two quotes.  The text
    [escaped] is read by [pattern_characters], which reads every text
    [escape] returns; [None] stands for a text the constructor would
    not be given here. *)
Definition toRegex (url : string) : option regex :=
  let escaped := escape url in
  match pattern_characters escaped with
  | Some literal =>
      Some (Regex (Seqs [Group 1 (Seq (Str "url(") (Opt (Chr (COneOf quotes))));
                         Group 2 (Str literal);
                         Group 3 (Seq (Opt (Chr (COneOf quotes))) (Lit ")"))])
                  false)
  | None => None
  end.

(** [embed]; [getContentFromUrl] is the optional fifth argument.  With
    it the content is asked for and then [dataurl.makeDataUrl] is called,
    which the module dataurl.js does not export: the call throws, and the
    exception is caught like any other. *)
Definition embed (h : Host) (win : Window) (cssText resourceURL : string)
    (baseURL : option string) (options : Options)
    (getContentFromUrl : option (string -> M string)) : M string :=
  catch
    (let resolvedURL :=
       match baseURL with
       | Some b => if truthy b then Util.resolveUrl win resourceURL baseURL
                   else resourceURL
       | None => resourceURL
       end in
     let contentType := Mimes.getMimeType resourceURL in
     dataURL <-
       match getContentFromUrl with
       | Some get =>
           content <- get resolvedURL ;;
           throw "TypeError: dataurl.makeDataUrl is not a function"
       | None => Dataurl.resourceToDataURL h resolvedURL contentType options
       end ;;
     match toRegex resourceURL with
     | Some rx => ret (replace_all_template rx ("$1" ++ dataURL ++ "$3") cssText)
     | None => throw "SyntaxError"
     end)
    (fun _ => ret cssText).

(** The chain [urls.reduce((deferred, url) => ...)]: one URL after the
    other, each on the text the one before has left. *)
Fixpoint embed_each (h : Host) (win : Window) (urls : list string)
    (baseUrl : option string) (options : Options) (css : string) : M string :=
  match urls with
  | [] => ret css
  | url :: rest =>
      css <- embed h win css url baseUrl options None ;;
      embed_each h win rest baseUrl options css
  end.

(** [embedResources]; [lastIndex] is the one of [URL_WITH_FORMAT_REGEX],
    which [filterPreferredFontFormat] reads and moves. *)
Definition embedResources (h : Host) (win : Window) (cssText : string)
    (baseUrl : option string) (options : Options) (lastIndex : nat)
  : M (string * nat) :=
  if negb (shouldEmbed cssText) then ret (cssText, lastIndex)
  else
    let '(filteredCSSText, lastIndex) :=
      filterPreferredFontFormat cssText options lastIndex in
    let urls := parseURLs filteredCSSText in
    css <- embed_each h win urls baseUrl options filteredCSSText ;;
    ret (css, lastIndex).

End EmbedResources.

(* ===================================================================== *)
(** ** src/embed-webfonts.js *)
(* ===================================================================== *)

Module EmbedWebfonts.
Import RegExp Js Dom.

(** [/(\/\*[\s\S]*?\*\/)/gi] *)
Definition commentsRegex : regex :=
  Regex (Group 1 (Seqs [Str "/*"; Star false (Chr CAny); Str "*/"])) true.

(** [((@.*?keyframes [\s\S]*?){([\s\S]*?}\s*?)})], flags [gi] *)
Definition keyframesRegex : regex :=
  Regex (Group 1
           (Seqs [Group 2 (Seqs [Lit "@"; Star false (Chr CDot);
                                 Str "keyframes "; Star false (Chr CAny)]);
                  Lit "{";
                  Group 3 (Seqs [Star false (Chr CAny); Lit "}";
                                 Star false (Chr CSpace)]);
                  Lit "}"]))
        true.

(** [/@import[\s\S]*?url\([^)]*\)[\s\S]*?;/gi] *)
Definition importRegex : regex :=
  Regex (Seqs [Str "@import"; Star false (Chr CAny); Str "url(";
               Star true (Chr (CNoneOf [")"%char])); Lit ")";
               Star false (Chr CAny); Lit ";"])
        true.

(** [((\s*?(?:\/\*[\s\S]*?\*\/)?\s*?@media[\s\S]*?){([\s\S]*?)}\s*?})|(([\s\S]*?){([\s\S]*?)})],
    flags [gi] *)
Definition unifiedRegex : regex :=
  Regex (Alt
           (Group 1
              (Seqs [Group 2
                       (Seqs [Star false (Chr CSpace);
                              Opt (Seqs [Str "/*"; Star false (Chr CAny); Str "*/"]);
                              Star false (Chr CSpace);
                              Str "@media";
                              Star false (Chr CAny)]);
                     Lit "{";
                     Group 3 (Star false (Chr CAny));
                     Lit "}";
                     Star false (Chr CSpace);
                     Lit "}"]))
           (Group 4
              (Seqs [Group 5 (Star false (Chr CAny));
                     Lit "{";
                     Group 6 (Star false (Chr CAny));
                     Lit "}"])))
        true.

(** The first loop of [parseCSS]: [keyframesRegex.exec(cssText)] until it
    fails, pushing [matches[0]]. *)
Fixpoint keyframes_loop (fuel : nat) (cssText : string) (lastIndex : nat)
    (result : list string) : list string :=
  match fuel with
  | O => result
  | S fuel' =>
      match exec keyframesRegex lastIndex cssText with
      | (None, _) => result
      | (Some mr, lastIndex') =>
          keyframes_loop fuel' cssText lastIndex' (result ++ [m_text mr])
      end
  end.

(** The second loop: [importRegex] first, [unifiedRegex] when it fails;
    the one that matched hands its [lastIndex] to the other. *)
Fixpoint rules_loop (fuel : nat) (cssText : string)
    (importLastIndex unifiedLastIndex : nat) (result : list string)
  : list string :=
  match fuel with
  | O => result
  | S fuel' =>
      match exec importRegex importLastIndex cssText with
      | (Some mr, lastIndex') =>
          rules_loop fuel' cssText lastIndex' lastIndex' (result ++ [m_text mr])
      | (None, _) =>
          match exec unifiedRegex unifiedLastIndex cssText with
          | (None, _) => result
          | (Some mr, lastIndex') =>
              rules_loop fuel' cssText lastIndex' lastIndex' (result ++ [m_text mr])
          end
      end
  end.

(** Every match of the three patterns holds a character, so each
    iteration moves [lastIndex] forward: [length + 1] iterations reach the
    failing [exec]. *)
Definition loop_bound (cssText : string) : nat := S (String.length cssText).

(** [source == null] is [None]. *)
Definition parseCSS (source : option string) : list string :=
  match source with
  | None => []
  | Some source =>
      let cssText := replace_all commentsRegex EmptyString source in
      let result := keyframes_loop (loop_bound cssText) cssText 0 [] in
      let cssText := replace_all keyframesRegex EmptyString cssText in
      rules_loop (loop_bound cssText) cssText 0 0 result
  end.

(** The style element [embedWebFonts] builds around a text. *)
Definition style_node (css : string) : Clone :=
  appendChild (createTextNode css) (createElement "style").

Section EmbedWebFonts.
(** The discovery of the web fonts of the document ([getWebFontCSS])
    walks the style sheets the host exposes; [embedWebFonts] uses its
    result only and is modelled for any discovery. *)
Variable getWebFontCSS : Clone -> Options -> M string.

Definition insertFirst (child : Clone) (c : Clone) : Clone :=
  match c_children c with
  | firstChild :: _ => set_children (child :: c_children c) c  (* insertBefore *)
  | [] => appendChild child c
  end.

Definition embedWebFonts (clonedNode : Clone) (options : Options) : M Clone :=
  cssText <-
    match fontEmbedCSS options with
    | Null =>
        if skipFonts options then ret Null
        else css <- getWebFontCSS clonedNode options ;; ret (Text css)
    | supplied => ret supplied           (* options.fontEmbedCSS !== null *)
    end ;;
  match cssText with
  | Text css =>
      if truthy css then
        let styleNode := createElement "style" in
        let sytleContent := createTextNode css in
        let styleNode := appendChild sytleContent styleNode in
        ret (insertFirst styleNode clonedNode)
      else ret clonedNode
  | Undefined | Null => ret clonedNode
  end.
End EmbedWebFonts.

End EmbedWebfonts.

(* ===================================================================== *)
(** ** clone-pseudos.js *)
(* ===================================================================== *)

Module ClonePseudos.
Import RegExp Js Dom.

Inductive Pseudo : Type := BEFORE | AFTER.

Definition pseudo_text (p : Pseudo) : string :=
  match p with BEFORE => ":before" | AFTER => ":after" end.

(** [window.getComputedStyle(nativeNode, pseudo)] *)
Definition getComputedStyle (n : Node) (p : Pseudo) : CSSStyleDeclaration :=
  match p with BEFORE => computedBefore n | AFTER => computedAfter n end.

(** The pattern that matches a single or a double quote, flag [g]. *)
Definition quoteRegex : regex :=
  Regex (Alt (Lit squote) (Lit dquote)) false.

Definition formatCSSText (style : CSSStyleDeclaration) : string :=
  let content := getPropertyValue style "content" in
  cssText style ++ " content: '"
    ++ replace_all quoteRegex EmptyString content ++ "';".

Fixpoint join (sep : string) (l : list string) : string :=
  match l with
  | [] => EmptyString
  | [x] => x
  | x :: l' => x ++ sep ++ join sep l'
  end.

Definition formatCSSProperties (style : CSSStyleDeclaration) : string :=
  join " "
    (map (fun name =>
            let value := getPropertyValue style name in
            let priority := getPropertyPriority style name in
            name ++ ": " ++ value
              ++ (if truthy priority then " !important" else EmptyString) ++ ";")
         (Util.toArray (map d_name (declarations style)))).

Definition pseudoRule (className : string) (pseudo : Pseudo)
    (style : CSSStyleDeclaration) : string :=
  let selector := "." ++ className ++ ":" ++ pseudo_text pseudo in
  let cssText :=
    if truthy (cssText style) then formatCSSText style
    else formatCSSProperties style in
  selector ++ "{" ++ cssText ++ "}".

Definition getPseudoElementStyle (className : string) (pseudo : Pseudo)
    (style : CSSStyleDeclaration) : Clone :=
  createTextNode (pseudoRule className pseudo style).

Definition clonePseudoElement (h : Host) (nativeNode : Node)
    (clonedNode : Clone) (pseudo : Pseudo) (w : World) : Clone * World :=
  let style := getComputedStyle nativeNode pseudo in
  let content := getPropertyValue style "content" in
  if String.eqb content EmptyString || String.eqb content "none"
  then (clonedNode, w)
  else
    let '(className, w1) := Util.uuid h w in
    let assigned :=
      match c_classNameSetter clonedNode with
      | Assigns =>
          Some (set_className (c_className clonedNode ++ " " ++ className) clonedNode)
      | Ignores => Some clonedNode
      | Throws => None
      end in
    match assigned with
    | None => (clonedNode, w1)
    | Some clonedNode =>
        let styleElement := createElement "style" in
        let styleElement :=
          appendChild (getPseudoElementStyle className pseudo style) styleElement in
        (appendChild styleElement clonedNode, w1)
    end.

Definition clonePseudoElements (h : Host) (nativeNode : Node)
    (clonedNode : Clone) (w : World) : Clone * World :=
  let '(clonedNode, w1) := clonePseudoElement h nativeNode clonedNode BEFORE w in
  clonePseudoElement h nativeNode clonedNode AFTER w1.

Definition is_quote (c : ascii) : bool :=
  Ascii.eqb squote c || Ascii.eqb dquote c.

(** The spec's words for the text of the content literal: the resolved
    value with all quote characters stripped. *)
Fixpoint without_quotes (s : string) : string :=
  match s with
  | EmptyString => EmptyString
  | String c s' =>
      if is_quote c then without_quotes s' else String c (without_quotes s')
  end.

End ClonePseudos.

(* ===================================================================== *)
(** ** src/clone-node.js *)
(* ===================================================================== *)

Module CloneNode.
Import RegExp Js Dom.

(** [createImage]: the promise resolves with the image once it has
    loaded and rejects when loading fails. *)
Definition createImage (h : Host) (url : string) : M Clone :=
  if image_loads h url
  then ret (mkClone HTMLImageElement (Some "IMG")
              [("crossorigin", "anonymous"); ("decoding", "async"); ("src", url)]
              EmptyString Assigns (Some empty_style) EmptyString [])
  else throw "the image failed to load".

Definition cloneCanvasElement (h : Host) (canvas : Node) : M Clone :=
  let dataURL := canvas_toDataURL canvas in
  if String.eqb dataURL "data:," then ret (shallow canvas)
  else createImage h dataURL.

Definition cloneVideoElement (h : Host) (video : Node) (options : Options)
  : M Clone :=
  if truthy (currentSrc video) then
    let dataURL := frame_toDataURL video in
    createImage h dataURL
  else
    let poster := poster video in
    let contentType := Mimes.getMimeType poster in
    dataURL <- Dataurl.resourceToDataURL h poster contentType options ;;
    createImage h dataURL.

Definition toUpperCase (s : string) : string :=
  string_of_list_ascii (map to_upper (list_ascii_of_string s)).

Definition isSlotElement (node : Node) : bool :=
  match tagName node with
  | Some tag => String.eqb (toUpperCase tag) "SLOT"
  | None => false
  end.

(** The children [cloneChildren] walks: the nodes assigned to a slot, the
    body of the document in a frame, the shadow tree, the node's own. *)
Definition source_children (nativeNode : Node) : list Node :=
  match isSlotElement nativeNode, assignedNodes nativeNode with
  | true, Some assigned => Util.toArray assigned
  | _, _ =>
      match Util.isInstanceOfElement (n_interface nativeNode) HTMLIFrameElement,
            contentDocument_body nativeNode with
      | true, Some body => Util.toArray (childNodes body)
      | _, _ =>
          Util.toArray
            match shadowRoot nativeNode with
            | Some shadow => shadow
            | None => childNodes nativeNode
            end
      end
  end.

(** The chain [children.reduce((deferred, child) => ...)]: one child
    after the other, each clone appended when there is one. *)
Fixpoint clone_each (clone : Node -> M (option Clone)) (children : list Node)
    (clonedNode : Clone) : M Clone :=
  match children with
  | [] => ret clonedNode
  | child :: rest =>
      clonedChild <- clone child ;;
      clone_each clone rest
        match clonedChild with
        | Some c => appendChild c clonedNode
        | None => clonedNode
        end
  end.

Definition endsWith (s suffix : string) : bool :=
  String.eqb (drop (String.length s - String.length suffix) s) suffix
  && (String.length suffix <=? String.length s)%nat.

(** The body of the loop of [cloneCSSStyle] over the names of the
    resolved style: the value, with its three adjustments... *)
Definition adjusted_value (nativeNode : Node) (clonedNode : Clone)
    (sourceStyle : CSSStyleDeclaration) (name : string) : string :=
  let value := getPropertyValue sourceStyle name in
  let value :=
    if String.eqb name "font-size" && endsWith value "px" then
      let reducedFont :=
        minus (Math_floor (parseFloat (take (String.length value - 2) value)))
              (1 # 10) in
      Number_toString reducedFont ++ "px"
    else value in
  let value :=
    if Util.isInstanceOfElement (n_interface nativeNode) HTMLIFrameElement
       && String.eqb name "display" && String.eqb value "inline"
    then "block" else value in
  match String.eqb name "d", getAttribute clonedNode "d" with
  | true, Some d => if truthy d then "path(" ++ d ++ ")" else value
  | _, _ => value
  end.

(** ... and the call of [setProperty]. *)
Definition copy_property (nativeNode : Node) (clonedNode : Clone)
    (sourceStyle : CSSStyleDeclaration) (targetStyle : CloneStyle)
    (name : string) : CloneStyle :=
  setProperty name (adjusted_value nativeNode clonedNode sourceStyle name)
              (getPropertyPriority sourceStyle name) targetStyle.

Definition cloneCSSStyle (nativeNode : Node) (clonedNode : Clone) : Clone :=
  match c_style clonedNode with
  | None => clonedNode
  | Some targetStyle =>
      let sourceStyle := computedStyle nativeNode in
      if truthy (cssText sourceStyle) then
        let targetStyle := mkCloneStyle (cssText sourceStyle) [] in
        let targetStyle :=
          setProperty "transform-origin" (transformOrigin sourceStyle)
                      EmptyString targetStyle in
        set_style (Some targetStyle) clonedNode
      else
        set_style
          (Some (fold_left (copy_property nativeNode clonedNode sourceStyle)
                           (Util.toArray (map d_name (declarations sourceStyle)))
                           targetStyle))
          clonedNode
  end.

(** Assigning [innerHTML] of a text area replaces its children by what
    the parser of the host makes of the text (character references and
    markup are read, not copied). *)
Definition cloneInputValue (h : Host) (nativeNode : Node) (clonedNode : Clone)
  : Clone :=
  let clonedNode :=
    if Util.isInstanceOfElement (n_interface nativeNode) HTMLTextAreaElement
    then set_children (textarea_content h (value nativeNode)) clonedNode
    else clonedNode in
  if Util.isInstanceOfElement (n_interface nativeNode) HTMLInputElement
  then setAttribute "value" (value nativeNode) clonedNode
  else clonedNode.

(** The first element child whose [value] attribute is the selected
    value gets the [selected] attribute. *)
Fixpoint select_option (selected : string) (children : list Clone)
  : list Clone :=
  match children with
  | [] => []
  | child :: rest =>
      if is_element (c_interface child)
      then match getAttribute child "value" with
           | Some v =>
               if String.eqb selected v
               then setAttribute "selected" EmptyString child :: rest
               else child :: select_option selected rest
           | None => child :: select_option selected rest
           end
      else child :: select_option selected rest
  end.

Definition cloneSelectValue (nativeNode : Node) (clonedNode : Clone) : Clone :=
  if Util.isInstanceOfElement (n_interface nativeNode) HTMLSelectElement
  then set_children (select_option (value nativeNode) (c_children clonedNode))
                    clonedNode
  else clonedNode.

Definition decorate (h : Host) (nativeNode : Node) (clonedNode : Clone)
    (w : World) : Clone * World :=
  if Util.isInstanceOfElement (c_interface clonedNode) Element then
    let clonedNode := cloneCSSStyle nativeNode clonedNode in
    let '(clonedNode, w1) :=
      ClonePseudos.clonePseudoElements h nativeNode clonedNode w in
    let clonedNode := cloneInputValue h nativeNode clonedNode in
    let clonedNode := cloneSelectValue nativeNode clonedNode in
    (clonedNode, w1)
  else (clonedNode, w).

(** The descendants of a clone, in document order. *)
Fixpoint descendants (c : Clone) : list Clone :=
  match c with
  | mkClone _ _ _ _ _ _ _ children =>
      (fix each (l : list Clone) : list Clone :=
         match l with
         | [] => []
         | child :: rest => (child :: descendants child ++ each rest)%list
         end) children
  end.

Definition is_use (c : Clone) : bool :=
  match c_tagName c with
  | Some tag => String.eqb (Mimes.toLowerCase tag) "use"
  | None => false
  end.

(** [clone.querySelectorAll ? clone.querySelectorAll("use") : []] *)
Definition querySelectorAll_use (clone : Clone) : list Clone :=
  if is_element (c_interface clone)
  then List.filter is_use (descendants clone)
  else [].

Definition xhtml : string := "http://www.w3.org/1999/xhtml".

(** The hidden container [ensureSVGSymbols] builds around the cloned
    definitions. *)
Definition symbols_container (nodes : list Clone) : Clone :=
  let svg := setAttribute "xmlns" xhtml (createElement "svg") in
  let svg :=
    set_style
      (Some (setProperty "display" "none" EmptyString
            (setProperty "overflow" "hidden" EmptyString
            (setProperty "height" "0" EmptyString
            (setProperty "width" "0" EmptyString
            (setProperty "position" "absolute" EmptyString empty_style))))))
      svg in
  let defs := createElement "defs" in
  let svg := appendChild defs svg in
  (* the nodes go into [defs], which is already the child of [svg] *)
  set_children [fold_left (fun defs node => appendChild node defs) nodes defs] svg.

Definition of_completion {A : Type} (c : completion A) : M A :=
  fun w => (c, w).

(** The functions below call [cloneNode] back; they take it as
    [cloneNode], at the recursion depth that is left. *)
Section Recursion.
Variable h : Host.
Variable cloneNode : Node -> Options -> bool -> M (option Clone).

(** A root is never filtered out, so the clone of the body is never
    [null]. *)
Definition cloneIFrameElement (iframe : Node) : M Clone :=
  catch
    match contentDocument_body iframe with
    | Some body =>
        cloned <- cloneNode body no_options true ;;
        match cloned with
        | Some c => ret c
        | None => ret (shallow iframe)
        end
    | None => ret (shallow iframe)
    end
    (fun _ => ret (shallow iframe)).

Definition cloneSingleNode (node : Node) (options : Options) : M Clone :=
  if Util.isInstanceOfElement (n_interface node) HTMLCanvasElement
  then cloneCanvasElement h node
  else if Util.isInstanceOfElement (n_interface node) HTMLVideoElement
  then cloneVideoElement h node options
  else if Util.isInstanceOfElement (n_interface node) HTMLIFrameElement
  then cloneIFrameElement node
  else ret (shallow node).

Definition cloneChildren (nativeNode : Node) (clonedNode : Clone)
    (options : Options) : M Clone :=
  let children := source_children nativeNode in
  if (length children =? 0)%nat
     || Util.isInstanceOfElement (n_interface nativeNode) HTMLVideoElement
  then ret clonedNode
  else
    clone_each (fun child => cloneNode child options false)
               children clonedNode.

(** The loop of [ensureSVGSymbols] over the [use] elements;
    [processedDefs] keeps the definitions in the order they came. *)
Fixpoint collect_definitions (clone : Clone) (options : Options)
    (uses : list Clone) (processedDefs : list (string * Clone))
  : M (list (string * Clone)) :=
  match uses with
  | [] => ret processedDefs
  | use :: rest =>
      match getAttribute use "xlink:href" with
      | Some id =>
          if truthy id then
            exist <- of_completion (clone_querySelector h clone id) ;;
            definition <- of_completion (document_querySelector h id) ;;
            match exist, definition,
                  existsb (fun '(k, _) => String.eqb k id) processedDefs with
            | false, Some def, false =>
                cloned <- cloneNode def options true ;;
                collect_definitions clone options rest
                  match cloned with
                  | Some c => (processedDefs ++ [(id, c)])%list
                  | None => processedDefs      (* a root is never [null] *)
                  end
            | _, _, _ => collect_definitions clone options rest processedDefs
            end
          else collect_definitions clone options rest processedDefs
      | None => collect_definitions clone options rest processedDefs
      end
  end.

Definition ensureSVGSymbols (clone : Clone) (options : Options) : M Clone :=
  let uses := querySelectorAll_use clone in
  match uses with
  | [] => ret clone
  | _ =>
      processedDefs <- collect_definitions clone options uses [] ;;
      let nodes := map snd processedDefs in
      match nodes with
      | [] => ret clone
      | _ => ret (appendChild (symbols_container nodes) clone)
      end
  end.
End Recursion.

(** [cloneNode]; [fuel] bounds the depth of the recursion, and the
    result is [None] for [null]. *)
Fixpoint cloneNode (h : Host) (fuel : nat) (node : Node) (options : Options)
    (isRoot : bool) {struct fuel} : M (option Clone) :=
  if negb isRoot
     && match filter options with
        | Some f => negb (f node)
        | None => false
        end
  then ret None
  else
    match fuel with
    | O => fun w => (Diverged, w)
    | S fuel' =>
        clonedNode <- cloneSingleNode h (cloneNode h fuel') node options ;;
        clonedNode <- cloneChildren (cloneNode h fuel') node clonedNode options ;;
        clonedNode <- lift (decorate h node clonedNode) ;;
        clonedNode <- ensureSVGSymbols h (cloneNode h fuel') clonedNode options ;;
        ret (Some clonedNode)
    end.

(** The nodes whose clone starts as their shallow copy and whose cloned
    children no later step replaces: anything but a canvas, a video, a
    frame, a text area and a selection list. *)
Definition plain (i : interface) : bool :=
  match i with
  | HTMLCanvasElement | HTMLVideoElement | HTMLIFrameElement
  | HTMLTextAreaElement | HTMLSelectElement => false
  | _ => true
  end.

Definition tagged (tag : string) (c : Clone) : Prop := c_tagName c = Some tag.

(** [refines f g]: wherever [f] comes to a result, [g] comes to the same. *)
Definition refines (f g : Node -> Options -> bool -> M (option Clone)) : Prop :=
  forall node options isRoot w r w',
    f node options isRoot w = (r, w') -> r <> Diverged ->
    g node options isRoot w = (r, w').

End CloneNode.

(* ===================================================================== *)
(** ** Sample documents, options and hosts *)
(* ===================================================================== *)

Module Samples.
Import RegExp Js Dom.

(** [quoted s]: [s] between double quotes. *)
Definition quoted (s : string) : string :=
  String dquote (s ++ String dquote EmptyString).

(** A host whose first request is answered with a PNG and whose later
    requests fail; every random draw is one half. *)
Definition host : Host :=
  mkHost (fun _ => 1 # 2)
         (fun n _ =>
            match n with
            | O => Responded 200 (Some "image/png") (Some "data:image/png;base64,AAAA")
            | S _ => Rejected "network error"
            end)
         (fun _ => 0%Z)
         (fun _ => true)
         (fun _ => Normal None)
         (fun _ _ => Normal false)
         (fun text => if truthy text then [createTextNode text] else []).

(** A host without network. *)
Definition offline : Host :=
  mkHost (fun _ => 1 # 2) (fun _ _ => Rejected "offline") (fun _ => 0%Z)
         (fun _ => true) (fun _ => Normal None) (fun _ _ => Normal false)
         (fun text => if truthy text then [createTextNode text] else []).

(** A host whose resources are all missing. *)
Definition missing : Host :=
  mkHost (fun _ => 1 # 2) (fun _ _ => Responded 404 None None) (fun _ => 0%Z)
         (fun _ => true) (fun _ => Normal None) (fun _ _ => Normal false)
         (fun text => if truthy text then [createTextNode text] else []).

(** The resolved style of a pseudo-element that generates nothing. *)
Definition no_content : CSSStyleDeclaration :=
  Style EmptyString [Declaration "content" "none" EmptyString] EmptyString.

(** A resolved style in a host that gives no serialized text. *)
Definition resolved : CSSStyleDeclaration :=
  Style EmptyString
        [Declaration "font-size" "16.5px" EmptyString;
         Declaration "color" "red" "important"]
        EmptyString.

Definition div (id : string) (before : CSSStyleDeclaration)
    (children : list Node) : Node :=
  mkNode Element (Some "DIV") [("id", id)] EmptyString Assigns true EmptyString
         children None None None resolved before no_content
         EmptyString EmptyString EmptyString EmptyString EmptyString.

Definition A : Node := div "A" no_content [].
Definition B : Node := div "B" no_content [].
Definition C : Node := div "C" no_content [].

(** A container without generated content. *)
Definition box : Node := div "box" no_content [A; B; C].

(** The content [x], as the host resolves it: between double quotes. *)
Definition content_x : CSSStyleDeclaration :=
  Style EmptyString [Declaration "content" (quoted "x") EmptyString] EmptyString.

(** A container whose [::before] generates the text [x]. *)
Definition labelled : Node := div "labelled" content_x [A; B; C].

Definition node_id (n : Node) : string :=
  default EmptyString (assoc "id" (attributes n)).

(** The filter that rejects exactly the node [B]. *)
Definition all_but_B (n : Node) : bool := negb (String.eqb (node_id n) "B").

Definition filtering : Options :=
  mkOptions (Some all_but_B) Undefined false EmptyString false false EmptyString.

Definition with_placeholder : Options :=
  mkOptions None Undefined false EmptyString false false "data:image/gif;base64,R0lG".

Definition prefer_woff2 : Options :=
  mkOptions None Undefined false "woff2" false false EmptyString.

(** [src: url(x.woff2) format("woff2"), url(x.ttf) format("truetype");] *)
Definition font_src (x : string) : string :=
  "src: url(" ++ x ++ ".woff2) format(" ++ quoted "woff2" ++ "), url("
    ++ x ++ ".ttf) format(" ++ quoted "truetype" ++ ");".

(** [src: url(x.woff2) format("woff2");] *)
Definition woff2_src (x : string) : string :=
  "src: url(" ++ x ++ ".woff2) format(" ++ quoted "woff2" ++ ");".

Definition font_face : string :=
  "@font-face{font-family:F;src:url(data:font/woff2;base64,AAAA)}".

(** The pseudo-element style of the round-trip scenario: the resolved
    content holds a single quote and two double quotes. *)
Definition quoted_content : CSSStyleDeclaration :=
  Style "color: red;"
        [Declaration "content" ("it's " ++ quoted "quoted") EmptyString]
        EmptyString.

(** A node whose [::before] resolves, with a serialized style, to the
    content of the round-trip scenario. *)
Definition quoting : Node := div "quoting" quoted_content [].

(** The clone in a result of [cloneNode] (an empty text node when there is
    none). *)
Definition cloned (r : completion (option Clone) * World) : Clone :=
  match r with
  | (Normal (Some c), _) => c
  | _ => createTextNode EmptyString
  end.

Definition picture : string := "http://example.com/a.png".

(** Two references to the same picture whose calls are in flight together,
    as [embedChildren] starts them for two sibling images: both start
    before the network answers either. *)
Definition two_references : list Dataurl.event :=
  [Dataurl.Call 1 picture "image/png" no_options;
   Dataurl.Call 2 picture "image/png" no_options;
   Dataurl.Answer 1;
   Dataurl.Answer 2].

(** Two references to one picture in flight together, the second
    answered before the first. *)
Definition overtaken : list Dataurl.event :=
  [Dataurl.Call 1 picture "image/png" no_options;
   Dataurl.Call 2 picture "image/png" no_options;
   Dataurl.Answer 2;
   Dataurl.Answer 1].

Definition keyframes_and_rule : string :=
  "@keyframes spin{0%{opacity:0}100%{opacity:1}} .a{color:red}".

(** An element with a border on three sides, and a window to measure it
    in. *)
Definition framed : CSSStyleDeclaration :=
  Style EmptyString
        [Declaration "border-left-width" "2px" EmptyString;
         Declaration "border-right-width" "3px" EmptyString;
         Declaration "border-top-width" "1px" EmptyString;
         Declaration "border-bottom-width" "0px" EmptyString]
        EmptyString.

Definition frame : Node :=
  mkNode Element (Some "DIV") [] EmptyString Assigns true EmptyString
         [] None None None framed no_content no_content
         EmptyString EmptyString EmptyString EmptyString EmptyString.

Definition window : Window :=
  mkWindow "https:" (fun _ url => url) (Some (Num 2)) (Some "3")
           (fun _ => 300%Q) (fun _ => 150%Q).

End Samples.

(* ===================================================================== *)
(** ** Classes of characters the properties are stated for *)
(* ===================================================================== *)

Module Classes.
Import RegExp Js Dom.

(** A letter, of either case: what a scheme is made of for [resolveUrl]. *)
Definition is_letter (c : ascii) : bool := is_lower c || is_upper c.

(** A character [toRegex] does not escape. *)
Definition unescaped (c : ascii) : bool :=
  negb (ascii_in c EmbedResources.escaped_characters).

(** A character a reference can hold for [URL_REGEX]: no quote and no
    closing parenthesis. *)
Definition url_character (c : ascii) : bool :=
  negb (ascii_in c [squote; dquote; ")"%char]).

(** What stands around the URL of a reference: nothing, or one quote. *)
Definition is_quotation (q : string) : bool :=
  match q with
  | EmptyString => true
  | String c EmptyString => ascii_in c EmbedResources.quotes
  | _ => false
  end.

(** A character that has no meaning in a replacement text. *)
Definition no_dollar (c : ascii) : bool := negb (Ascii.eqb c "$").

(** A character an extension can hold for [getExtension]. *)
Definition extension_character (c : ascii) : bool :=
  negb (ascii_in c ["."; "/"]%char).

(** Characters that do not end the content type of a data URL, do not
    begin a query, do not end a line. *)
Definition no_comma (c : ascii) : bool := negb (Ascii.eqb c ",").

Definition no_question (c : ascii) : bool := negb (Ascii.eqb c "?").
Definition no_line_end (c : ascii) : bool := negb (is_line_terminator c).

(** [needle] occurs in [s], in either case of its letters. *)
Definition contains_ci (needle s : string) : bool :=
  test (Regex (Str needle) true) s.

(** Characters other than the braces. *)
Definition no_open (c : ascii) : bool := negb (Ascii.eqb c "{").
Definition no_close (c : ascii) : bool := negb (Ascii.eqb c "}").

(** A rule of a style sheet, given by its selector and its declarations;
    it is plain when no opening brace is in the selector and no closing
    one in the declarations. *)
Definition rule_text (r : string * string) : string :=
  fst r ++ "{" ++ snd r ++ "}".

Definition plain_rule (r : string * string) : bool :=
  all_chars no_open (fst r) && all_chars no_close (snd r).

(** Rules one after the other, and a rest. *)
Definition sheet_text (rules : list (string * string)) (rest : string) : string :=
  fold_right (fun r s => rule_text r ++ s) rest rules.

(** The cache key [embed] has [resourceToDataURL] compute for a
    reference. *)
Definition reference_key (options : Options) (url : string) : string :=
  Dataurl.getCacheKey url (Mimes.getMimeType url) (includeQueryParams options).

(** A reference for which no look-up gives a member every object
    inherits: neither its extension in the table of content types nor
    its key in the cache. *)
Definition ordinary (options : Options) (url : string) : bool :=
  negb (inherited (Mimes.toLowerCase (Mimes.getExtension url)))
  && negb (inherited (reference_key options url)).

Definition in_cache (w : World) (key : string) : bool :=
  match cache w !! key with
  | Some _ => true
  | None => false
  end.

(** The references that are asked for when they are taken one after the
    other: those whose key is not known yet, each making its key
    known. *)
Fixpoint first_requests (key : string -> string) (known : string -> bool)
    (urls : list string) : list string :=
  match urls with
  | [] => []
  | url :: rest =>
      if known (key url) then first_requests key known rest
      else url :: first_requests key
                    (fun k => known k || String.eqb k (key url)) rest
  end.

End Classes.

(* ===================================================================== *)
(** * Properties *)
(* ===================================================================== *)

Import RegExp Js Dom.
#[local] Arguments String.append !_ _ / : simpl nomatch.

(** ** Texts *)


Lemma str_length_append (s t : string) :
  String.length (s ++ t) = (String.length s + String.length t)%nat.
Proof. induction s as [|c s IH]; simpl; [reflexivity | now rewrite IH]. Qed.

Lemma str_length_drop (n : nat) (s : string) :
  String.length (drop n s) = (String.length s - n)%nat.
Proof.
  revert s; induction n as [|n IH]; intros [|c s]; simpl; auto.
Qed.

Lemma str_length_take (n : nat) (s : string) :
  String.length (take n s) = Nat.min n (String.length s).
Proof.
  revert s; induction n as [|n IH]; intros [|c s]; simpl; auto.
Qed.

Lemma str_take_drop (n : nat) (s : string) : take n s ++ drop n s = s.
Proof.
  revert s; induction n as [|n IH]; intros [|c s]; simpl; auto.
  now rewrite IH.
Qed.

Lemma str_drop_append (s t : string) : drop (String.length s) (s ++ t) = t.
Proof. induction s as [|c s IH]; simpl; auto. Qed.

Lemma str_take_append (s t : string) : take (String.length s) (s ++ t) = s.
Proof. induction s as [|c s IH]; simpl; auto. now rewrite IH. Qed.

(** Two texts that agree on a prefix of known length agree on the rest. *)
Lemma str_append_inj (s1 s2 t1 t2 : string) :
  String.length s1 = String.length s2 ->
  s1 ++ t1 = s2 ++ t2 -> s1 = s2 /\ t1 = t2.
Proof.
  revert s2; induction s1 as [|c s1 IH]; intros [|c2 s2] Hlen Heq;
    simpl in *; try discriminate; auto.
  injection Heq as -> Heq. injection Hlen as Hlen.
  destruct (IH _ Hlen Heq) as [-> ->]; auto.
Qed.


(** ** The matcher stays inside the text *)

Lemma str_drop_drop (a b : nat) (s : string) : drop a (drop b s) = drop (b + a) s.
Proof.
  revert s; induction b as [|b IH]; intros s; simpl; auto.
  destruct s as [|c s]; simpl; auto. now destruct a.
Qed.

Lemma skip_prefix_drop (icase : bool) (w s t : string) :
  skip_prefix icase w s = Some t ->
  t = drop (String.length w) s /\ (String.length w <= String.length s)%nat.
Proof.
  revert s; induction w as [|a w IH]; intros [|b s]; simpl; try discriminate.
  - intros [= <-]. auto.
  - intros [= <-]. split; [reflexivity | lia].
  - destruct (ascii_eq_case icase a b); [|discriminate].
    intros H. destruct (IH _ H). split; [assumption | lia].
Qed.

Section Invariant.
Context {R : Type}.
Variable icase : bool.

Lemma reaches_star (greedy : bool) (r : re) :
  reaches (R := R) icase r -> reaches (R := R) icase (Star greedy r).
Proof.
  intros IH i s cs k x. cbn [m min_length].
  generalize (String.length s) at 1. intros fuel. revert i s cs.
  induction fuel as [|fuel IHf]; intros i s cs.
  - destruct greedy; [|destruct (k i s cs) eqn:E; [|discriminate]]; intros H.
    + exists i, cs. rewrite Nat.sub_diag. simpl. split; [assumption | lia].
    + exists i, cs. rewrite Nat.sub_diag. simpl. split; [congruence | lia].
  - set (again := m icase r i s cs _).
    assert (Hagain : again = Some x ->
              exists j cs', k j (drop (j - i) s) cs' = Some x
                            /\ (i + 0 <= j)%nat /\ (j <= i + String.length s)%nat).
    { unfold again. intros H. apply IH in H as (j1 & cs1 & H & Hlo & Hhi).
      destruct (Nat.eqb_spec j1 i); [discriminate|].
      apply IHf in H as (j & cs' & H & Hlo' & Hhi').
      rewrite str_drop_drop in H. rewrite str_length_drop in Hhi'.
      exists j, cs'. replace (j1 - i + (j - j1))%nat with (j - i)%nat in H by lia.
      split; [assumption | lia]. }
    assert (Hk : k i s cs = Some x ->
              exists j cs', k j (drop (j - i) s) cs' = Some x
                            /\ (i + 0 <= j)%nat /\ (j <= i + String.length s)%nat).
    { intros H. exists i, cs. rewrite Nat.sub_diag. simpl. split; [assumption | lia]. }
    destruct greedy.
    + destruct again as [y|]; [intros [= ->]; auto | auto].
    + destruct (k i s cs) as [y|]; [intros [= ->]; auto | auto].
Qed.

Lemma m_reaches (r : re) : reaches (R := R) icase r.
Proof.
  induction r as [|cl|r1 IH1 r2 IH2|r1 IH1 r2 IH2|greedy r1 IH1|n r1 IH1|n| |];
    try (apply reaches_star; assumption);
    intros i s cs k x; cbn [m min_length].
  - intros H. exists i, cs. rewrite Nat.sub_diag. simpl. split; [assumption | lia].
  - destruct s as [|a s]; [discriminate|].
    destruct (class_match icase cl a); [|discriminate].
    intros H. exists (S i), cs. replace (S i - i)%nat with 1%nat by lia.
    simpl. split; [assumption | lia].
  - intros H. apply IH1 in H as (j1 & cs1 & H & Hlo & Hhi).
    apply IH2 in H as (j & cs' & H & Hlo' & Hhi').
    rewrite str_drop_drop in H. rewrite str_length_drop in Hhi'.
    exists j, cs'. replace (j1 - i + (j - j1))%nat with (j - i)%nat in H by lia.
    split; [assumption | lia].
  - destruct (m icase r1 i s cs k) as [y|] eqn:E.
    + intros [= ->]. apply IH1 in E as (j & cs' & H & Hlo & Hhi).
      exists j, cs'. split; [assumption | lia].
    + intros H. apply IH2 in H as (j & cs' & H & Hlo & Hhi).
      exists j, cs'. split; [assumption | lia].
  - intros H. apply IH1 in H as (j & cs' & H & Hlo & Hhi).
    exists j, ((n, take (j - i) s) :: cs'). split; [assumption | lia].
  - destruct (get_cap n cs) as [w|].
    + destruct (skip_prefix icase w s) as [t|] eqn:E; [|discriminate].
      apply skip_prefix_drop in E as [-> Hlen].
      intros H. exists (i + String.length w)%nat, cs.
      replace (i + String.length w - i)%nat with (String.length w) by lia.
      split; [assumption | lia].
    + intros H. exists i, cs. rewrite Nat.sub_diag. simpl.
      split; [assumption | lia].
  - destruct (Nat.eqb i 0); [|discriminate].
    intros H. exists i, cs. rewrite Nat.sub_diag. simpl. split; [assumption | lia].
  - destruct s; [|discriminate].
    intros H. exists i, cs. rewrite Nat.sub_diag. simpl. split; [assumption | lia].
Qed.
End Invariant.

Lemma match_at_bounds (icase : bool) (r : re) (i : nat) (s : string)
    (mr : match_result) :
  match_at icase r i s = Some mr ->
  m_start mr = i
  /\ (i + min_length r <= m_end mr)%nat
  /\ (m_end mr <= i + String.length s)%nat
  /\ m_text mr = take (m_end mr - i) s.
Proof.
  unfold match_at. intros H.
  apply m_reaches in H as (j & cs' & [= <-] & Hlo & Hhi). simpl. auto.
Qed.

Lemma search_from_bounds (icase : bool) (r : re) (i : nat) (s : string)
    (mr : match_result) :
  search_from icase r i s = Some mr ->
  (i <= m_start mr)%nat
  /\ (m_start mr + min_length r <= m_end mr)%nat
  /\ (m_end mr <= i + String.length s)%nat
  /\ m_text mr = take (m_end mr - m_start mr) (drop (m_start mr - i) s).
Proof.
  revert i; induction s as [|c s IH]; intros i; cbn [search_from].
  - destruct (match_at icase r i EmptyString) as [mr'|] eqn:E; [|discriminate].
    intros [= ->]. apply match_at_bounds in E as (-> & Hlo & Hhi & Ht).
    rewrite Nat.sub_diag. simpl. repeat split; auto; lia.
  - destruct (match_at icase r i (String c s)) as [mr'|] eqn:E.
    + intros [= ->]. apply match_at_bounds in E as (-> & Hlo & Hhi & Ht).
      rewrite Nat.sub_diag. cbn [drop]. repeat split; auto; lia.
    + intros H. apply IH in H as (Hs & Hlo & Hhi & Ht).
      replace (m_start mr - i)%nat with (S (m_start mr - S i)) by lia.
      cbn [drop String.length]. repeat split; auto; lia.
Qed.

Lemma exec_bounds (rx : regex) (lastIndex : nat) (str : string)
    (mr : match_result) (lastIndex' : nat) :
  exec rx lastIndex str = (Some mr, lastIndex') ->
  lastIndex' = m_end mr
  /\ (lastIndex + min_length (pattern rx) <= lastIndex')%nat
  /\ (lastIndex' <= String.length str)%nat.
Proof.
  unfold exec. destruct (Nat.ltb_spec (String.length str) lastIndex); [discriminate|].
  destruct (search_from _ _ _ _) as [mr'|] eqn:E; [|discriminate].
  intros [= -> <-]. apply search_from_bounds in E as (Hs & Hlo & Hhi & _).
  rewrite str_length_drop in Hhi. split; [reflexivity | lia].
Qed.

Lemma exec_fails_beyond (rx : regex) (lastIndex : nat) (str : string) :
  (String.length str < lastIndex)%nat -> exec rx lastIndex str = (None, O).
Proof.
  unfold exec. intros H.
  destruct (Nat.ltb_spec (String.length str) lastIndex); [reflexivity | lia].
Qed.

(** ** The loop bounds are never reached *)

Lemma replace_from_S {St : Type} (rx : regex)
    (f : St -> match_result -> string * St) (fuel i : nat) (s : string) (st : St) :
  replace_from rx f (S fuel) i s st =
      match search_from (ignoreCase rx) (pattern rx) i s with
      | None => (s, st)
      | Some mr =>
          let before := take (m_start mr - i) s in
          let '(rep, st1) := f st mr in
          if (m_end mr =? m_start mr)%nat then
            match drop (m_start mr - i) s with
            | String c t =>
                let '(out, st2) := replace_from rx f fuel (S (m_start mr)) t st1 in
                (before ++ rep ++ String c out, st2)
            | EmptyString => (before ++ rep, st1)
            end
          else
            let '(out, st2) :=
              replace_from rx f fuel (m_end mr) (drop (m_end mr - i) s) st1 in
            (before ++ rep ++ out, st2)
      end.
Proof. reflexivity. Qed.

(** [replace_from] with more fuel than characters left does what it does
    with any larger amount. *)
Lemma replace_from_enough {St : Type} (rx : regex)
    (f : St -> match_result -> string * St) (fuel i : nat) (s : string) (st : St) :
  (String.length s < fuel)%nat ->
  replace_from rx f fuel i s st = replace_from rx f (S fuel) i s st.
Proof.
  revert i s st; induction fuel as [|fuel IH]; intros i s st Hlen; [lia|].
  rewrite (replace_from_S rx f fuel), (replace_from_S rx f (S fuel)).
  destruct (search_from (ignoreCase rx) (pattern rx) i s) as [mr|] eqn:E;
    [|reflexivity].
  apply search_from_bounds in E as (Hs & Hlo & Hhi & _).
  destruct (f st mr) as [rep st1].
  destruct (Nat.eqb_spec (m_end mr) (m_start mr)) as [Heq|Hne].
  - destruct (drop (m_start mr - i) s) as [|c t] eqn:Ed; [reflexivity|].
    assert (Ht : (String.length t < fuel)%nat).
    { pose proof (str_length_drop (m_start mr - i) s) as Hd. rewrite Ed in Hd.
      simpl in Hd. lia. }
    now rewrite <- (IH _ _ _ Ht).
  - assert (Ht : (String.length (drop (m_end mr - i) s) < fuel)%nat)
      by (rewrite str_length_drop; lia).
    now rewrite <- (IH _ _ _ Ht).
Qed.

Lemma replace_all_st_enough {St : Type} (rx : regex)
    (f : St -> match_result -> string * St) (fuel : nat) (str : string) (st : St) :
  (String.length str < fuel)%nat ->
  replace_from rx f fuel 0 str st = replace_all_st rx f str st.
Proof.
  unfold replace_all_st. intros H.
  induction fuel as [|fuel IH]; [lia|].
  destruct (Nat.eq_dec fuel (String.length str)) as [->|Hne]; [reflexivity|].
  rewrite <- replace_from_enough by lia. apply IH. lia.
Qed.

Import EmbedResources EmbedWebfonts.

Lemma pick_format_S (fuel : nat) (preferredFontFormat match_ : string)
    (lastIndex : nat) :
  pick_format (S fuel) preferredFontFormat match_ lastIndex
  = match exec URL_WITH_FORMAT_REGEX lastIndex match_ with
    | (None, lastIndex') => (EmptyString, lastIndex')
    | (Some mr, lastIndex') =>
        let src := m_text mr in
        let format := default EmptyString (get_cap 2 (m_caps mr)) in
        if negb (truthy format) then (EmptyString, lastIndex')
        else if String.eqb format preferredFontFormat
             then ("src: " ++ src ++ ";", lastIndex')
             else pick_format fuel preferredFontFormat match_ lastIndex'
    end.
Proof. reflexivity. Qed.

Lemma keyframes_loop_S (fuel : nat) (cssText : string) (lastIndex : nat)
    (result : list string) :
  keyframes_loop (S fuel) cssText lastIndex result
  = match exec keyframesRegex lastIndex cssText with
    | (None, _) => result
    | (Some mr, lastIndex') =>
        keyframes_loop fuel cssText lastIndex' (result ++ [m_text mr])
    end.
Proof. reflexivity. Qed.

Lemma rules_loop_S (fuel : nat) (cssText : string)
    (importLastIndex unifiedLastIndex : nat) (result : list string) :
  rules_loop (S fuel) cssText importLastIndex unifiedLastIndex result
  = match exec importRegex importLastIndex cssText with
    | (Some mr, lastIndex') =>
        rules_loop fuel cssText lastIndex' lastIndex' (result ++ [m_text mr])
    | (None, _) =>
        match exec unifiedRegex unifiedLastIndex cssText with
        | (None, _) => result
        | (Some mr, lastIndex') =>
            rules_loop fuel cssText lastIndex' lastIndex' (result ++ [m_text mr])
        end
    end.
Proof. reflexivity. Qed.

Lemma pick_format_enough (fuel : nat) (preferred text : string) (lastIndex : nat) :
  (S (String.length text) - lastIndex < fuel)%nat ->
  pick_format fuel preferred text lastIndex
  = pick_format (S fuel) preferred text lastIndex.
Proof.
  revert lastIndex; induction fuel as [|fuel IH]; intros lastIndex Hlen; [lia|].
  rewrite (pick_format_S fuel), (pick_format_S (S fuel)).
  destruct (exec URL_WITH_FORMAT_REGEX lastIndex text) as [[mr|] lastIndex'] eqn:E;
    [|reflexivity].
  apply exec_bounds in E as (_ & Hlo & Hhi).
  change (min_length (pattern URL_WITH_FORMAT_REGEX)) with 15%nat in Hlo.
  cbv zeta.
  destruct (negb (truthy _)); [reflexivity|].
  destruct (String.eqb _ preferred); [reflexivity|].
  apply IH. lia.
Qed.

(** The bound [pick_bound] of the callback is enough from any [lastIndex]. *)
Lemma pick_bound_enough (fuel : nat) (preferred text : string) (lastIndex : nat) :
  (pick_bound text <= fuel)%nat ->
  pick_format fuel preferred text lastIndex
  = pick_format (pick_bound text) preferred text lastIndex.
Proof.
  unfold pick_bound. intros H.
  induction fuel as [|fuel IH]; [lia|].
  destruct (Nat.eq_dec (S fuel) (S (S (String.length text)))) as [->|Hne];
    [reflexivity|].
  rewrite <- pick_format_enough by lia. apply IH. lia.
Qed.

Lemma keyframes_loop_enough (fuel : nat) (cssText : string) (lastIndex : nat)
    (result : list string) :
  (String.length cssText - lastIndex < fuel)%nat ->
  keyframes_loop fuel cssText lastIndex result
  = keyframes_loop (S fuel) cssText lastIndex result.
Proof.
  revert lastIndex result; induction fuel as [|fuel IH];
    intros lastIndex result Hlen; [lia|].
  rewrite (keyframes_loop_S fuel), (keyframes_loop_S (S fuel)).
  destruct (exec keyframesRegex lastIndex cssText) as [[mr|] lastIndex'] eqn:E;
    [|reflexivity].
  apply exec_bounds in E as (_ & Hlo & Hhi).
  change (min_length (pattern keyframesRegex)) with 14%nat in Hlo.
  apply IH. lia.
Qed.

Lemma rules_loop_enough (fuel : nat) (cssText : string)
    (importLastIndex unifiedLastIndex : nat) (result : list string) :
  (String.length cssText - Nat.min importLastIndex unifiedLastIndex < fuel)%nat ->
  rules_loop fuel cssText importLastIndex unifiedLastIndex result
  = rules_loop (S fuel) cssText importLastIndex unifiedLastIndex result.
Proof.
  revert importLastIndex unifiedLastIndex result; induction fuel as [|fuel IH];
    intros importLastIndex unifiedLastIndex result Hlen; [lia|].
  rewrite (rules_loop_S fuel), (rules_loop_S (S fuel)).
  destruct (exec importRegex importLastIndex cssText) as [[mr|] lastIndex'] eqn:E.
  - apply exec_bounds in E as (_ & Hlo & Hhi).
    change (min_length (pattern importRegex)) with 13%nat in Hlo.
    apply IH. lia.
  - destruct (exec unifiedRegex unifiedLastIndex cssText) as [[mr|] lastIndex''] eqn:E';
      [|reflexivity].
    apply exec_bounds in E' as (_ & Hlo & Hhi).
    change (min_length (pattern unifiedRegex)) with 2%nat in Hlo.
    apply IH. lia.
Qed.

(** Both loops of [parseCSS] stop by themselves within [loop_bound]. *)
Lemma loop_bound_enough (fuel : nat) (cssText : string) (result : list string) :
  (loop_bound cssText <= fuel)%nat ->
  keyframes_loop fuel cssText 0 result
  = keyframes_loop (loop_bound cssText) cssText 0 result
  /\ rules_loop fuel cssText 0 0 result
     = rules_loop (loop_bound cssText) cssText 0 0 result.
Proof.
  unfold loop_bound. intros H.
  induction fuel as [|fuel IH]; [lia|].
  destruct (Nat.eq_dec fuel (String.length cssText)) as [->|Hne]; [auto|].
  rewrite <- keyframes_loop_enough, <- rules_loop_enough by (simpl; lia).
  apply IH. lia.
Qed.

(* ===================================================================== *)
(** ** src/util.js: the names [uuid] generates *)
(* ===================================================================== *)

Import Util.

Lemma all_chars_append p s t :
  all_chars p (s ++ t) = all_chars p s && all_chars p t.
Proof.
  induction s as [|c s IH]; simpl; auto. rewrite IH. now rewrite andb_assoc.
Qed.

Lemma all_chars_drop p n s : all_chars p s = true -> all_chars p (drop n s) = true.
Proof.
  revert s; induction n as [|n IH]; intros [|c s]; simpl; auto.
  intros [_ H]%andb_prop; auto.
Qed.

Lemma digit36_base36 (d : Z) : (0 <= d < 36)%Z -> is_base36 (digit36 d) = true.
Proof.
  intros Hd.
  assert (H : forallb (fun k => is_base36 (digit36 (Z.of_nat k))) (seq 0 36) = true)
    by (vm_compute; reflexivity).
  rewrite forallb_forall in H.
  specialize (H (Z.to_nat d)). rewrite Z2Nat.id in H by lia.
  apply H, in_seq. lia.
Qed.

Lemma radix36_base36 (fuel : nat) (n : Z) :
  (0 <= n)%Z -> all_chars is_base36 (radix36 fuel n) = true.
Proof.
  revert n; induction fuel as [|fuel IH]; intros n Hn; simpl; auto.
  destruct (Z.ltb_spec n 36).
  - simpl. rewrite digit36_base36 by lia. reflexivity.
  - rewrite all_chars_append, IH by (apply Z.div_pos; lia). simpl.
    rewrite digit36_base36; auto. apply Z.mod_pos_bound; lia.
Qed.

Lemma truncate_range (x : Q) (k : Z) :
  (0 < k)%Z -> (0 <= x)%Q -> (x < 1)%Q ->
  (0 <= truncate (x * inject_Z k) < k)%Z.
Proof.
  intros Hk H0 H1. destruct x as [a b]. unfold Qle, Qlt in *. simpl in *.
  unfold truncate; simpl.
  assert (Ha : (0 <= a)%Z) by lia.
  assert (Hb : (a < Z.pos b)%Z) by lia.
  rewrite Pos.mul_1_r.
  rewrite Z.quot_div_nonneg by nia.
  split.
  - apply Z.div_pos; nia.
  - apply Z.div_lt_upper_bound; nia.
Qed.

Lemma ToInt32_small (z : Z) : (0 <= z < 2 ^ 31)%Z -> ToInt32 z = z.
Proof.
  intros Hz. unfold ToInt32.
  rewrite Z.mod_small by lia.
  destruct (Z.ltb_spec z (2 ^ 31)); lia.
Qed.

Lemma random_length (x : Q) : String.length (Util.random x) = 4%nat.
Proof.
  unfold Util.random, slice_last.
  rewrite str_length_drop, str_length_append. simpl. lia.
Qed.

Lemma random_base36 (x : Q) :
  (0 <= x)%Q -> (x < 1)%Q -> all_chars is_base36 (Util.random x) = true.
Proof.
  intros H0 H1. unfold Util.random, slice_last.
  apply all_chars_drop. rewrite all_chars_append. simpl.
  pose proof (truncate_range x (36 ^ 4) ltac:(lia) H0 H1) as Ht.
  unfold shl0. rewrite ToInt32_small by lia.
  unfold toString36.
  destruct (Z.ltb_spec (truncate (x * inject_Z (36 ^ 4))) 0); [lia|].
  apply radix36_base36; lia.
Qed.

Lemma counter_toString_inj (n n' : nat) :
  counter_toString n = counter_toString n' -> n = n'.
Proof.
  unfold counter_toString. intros H.
  apply (f_equal NilEmpty.uint_of_string) in H.
  rewrite !NilEmpty.usu in H. injection H as H.
  apply (f_equal Nat.of_uint) in H.
  now rewrite !DecimalNat.Unsigned.of_to in H.
Qed.

Lemma uuid_counter (h : Host) (w : World) :
  counter (snd (uuid h w)) = S (counter w).
Proof. reflexivity. Qed.

Lemma uuid_name (h : Host) (w : World) :
  fst (uuid h w)
  = "u" ++ Util.random (Math_random h (S (counter w)))
        ++ counter_toString (S (counter w)).
Proof. reflexivity. Qed.

Lemma uuid_inj (h : Host) (w w' : World) :
  fst (uuid h w) = fst (uuid h w') -> counter w = counter w'.
Proof.
  rewrite !uuid_name. intros H. simpl in H. injection H as H.
  apply str_append_inj in H as [_ H]; [|now rewrite !random_length].
  apply counter_toString_inj in H. lia.
Qed.

Lemma uuids_S (h : Host) (n : nat) (w : World) :
  fst (uuids h (S n) w)
  = fst (uuid h w) :: fst (uuids h n (snd (uuid h w))).
Proof.
  cbn [uuids]. destruct (uuid h w) as [name0 w1]. cbn [fst snd].
  destruct (uuids h n w1) as [names w2]. reflexivity.
Qed.

Lemma uuids_names (h : Host) (n : nat) (w : World) (name : string) :
  In name (fst (uuids h n w)) ->
  exists w', name = fst (uuid h w') /\ (counter w <= counter w' < counter w + n)%nat.
Proof.
  revert w; induction n as [|n IH]; intros w.
  - simpl. tauto.
  - rewrite uuids_S. intros [<- | Hin].
    + exists w. split; [reflexivity | lia].
    + destruct (IH _ Hin) as (w' & -> & Hc).
      exists w'. split; [reflexivity|].
      rewrite uuid_counter in Hc. lia.
Qed.

Lemma uuids_NoDup (h : Host) (n : nat) (w : World) : List.NoDup (fst (uuids h n w)).
Proof.
  revert w; induction n as [|n IH]; intros w.
  - simpl. constructor.
  - rewrite uuids_S. constructor; [|apply IH].
    intros Hin. apply uuids_names in Hin as (w' & Hname & Hc).
    apply uuid_inj in Hname. rewrite uuid_counter in Hc. lia.
Qed.

(** C10.  The names of [uuid] never collide.  With every draw of
    [Math.random] in [0, 1): each name is the letter [u], exactly four
    characters that are digits of base 36, then the decimal text of the
    counter, and each call raises the counter by one; two calls made at
    different values of the counter give different names; so the names of
    any number of calls in a row are pairwise different. *)
Theorem uuid_names_never_collide (h : Host) :
  (forall k, (0 <= Math_random h k)%Q /\ (Math_random h k < 1)%Q) ->
  (forall w,
      exists r,
        fst (uuid h w) = "u" ++ r ++ counter_toString (S (counter w))
        /\ String.length r = 4%nat
        /\ all_chars is_base36 r = true
        /\ counter (snd (uuid h w)) = S (counter w))
  /\ (forall w w', counter w <> counter w' -> fst (uuid h w) <> fst (uuid h w'))
  /\ (forall n w, List.NoDup (fst (uuids h n w))).
Proof.
  intros Hrange. split; [|split].
  - intros w. exists (Util.random (Math_random h (S (counter w)))).
    split; [apply uuid_name|]. split; [apply random_length|].
    split; [|reflexivity]. apply random_base36; apply Hrange.
  - intros w w' Hne Heq. apply Hne. eapply uuid_inj; eauto.
  - apply uuids_NoDup.
Qed.

Lemma uuid_names_never_collide_witness :
  (forall k, (0 <= Math_random Samples.host k)%Q
             /\ (Math_random Samples.host k < 1)%Q)
  /\ (forall w w',
         counter w <> counter w' ->
         fst (uuid Samples.host w) <> fst (uuid Samples.host w'))
  /\ List.NoDup (fst (uuids Samples.host 3 initial)).
Proof.
  assert (Hrange : forall k, (0 <= Math_random Samples.host k)%Q
                             /\ (Math_random Samples.host k < 1)%Q).
  { intros k. simpl. unfold Qle, Qlt. simpl. lia. }
  split; [exact Hrange|].
  destruct (uuid_names_never_collide Samples.host Hrange) as (_ & Hdiff & Hnodup).
  split; [exact Hdiff | apply Hnodup].
Defined.

Example uuid_first_names :
  fst (uuids Samples.host 3 initial) = ["ui0001"; "ui0002"; "ui0003"].
Proof. vm_compute. reflexivity. Qed.

(* ===================================================================== *)
(** ** dataurl.js: the cache key, the cache, the fall-back *)
(* ===================================================================== *)

Import Dataurl.

(** *** The cache key *)

Example getCacheKey_strips_query :
  getCacheKey "http://example.com/a.png?x=1" EmptyString false
  = "http://example.com/a.png".
Proof. vm_compute. reflexivity. Qed.

Example getCacheKey_keeps_query :
  getCacheKey "http://example.com/a.png?x=1" EmptyString true
  = "http://example.com/a.png?x=1".
Proof. vm_compute. reflexivity. Qed.

Example getCacheKey_font_file_name :
  getCacheKey "http://example.com/fonts/a.woff2?v=3" EmptyString false = "a.woff2".
Proof. vm_compute. reflexivity. Qed.

(** A content type, when there is one, goes in front between brackets. *)
Lemma getCacheKey_prefix (url contentType : string) (includeQueryParams : bool) :
  truthy contentType = true ->
  getCacheKey url contentType includeQueryParams
  = "[" ++ contentType ++ "]" ++ getCacheKey url EmptyString includeQueryParams.
Proof. unfold getCacheKey. intros ->. reflexivity. Qed.

(** C4.  The test for a font resource looks for [ttf], [otf], [eot] or
    [woff] anywhere in the key, not in its extension: the picture
    [http://notfound.com/a.png] has no font extension, yet its key is cut
    down to the file name, and a different picture of the same file name
    under another directory gets the very same key. *)
Theorem getCacheKey_font_test_ignores_extension :
  Mimes.getExtension "http://notfound.com/a.png" = "png"
  /\ getCacheKey "http://notfound.com/a.png" "image/png" false = "[image/png]a.png"
  /\ getCacheKey "http://notfound.com/icons/a.png" "image/png" false
     = "[image/png]a.png".
Proof. vm_compute. repeat split; reflexivity. Qed.

(** *** The call never fails *)

Lemma settle_normal (options : Options) (p : pending) (r : fetched) (w : World) :
  exists dataURL,
    settle options p r w = (Normal dataURL, set_cache (p_cacheKey p) dataURL w).
Proof.
  unfold settle, fetchAsDataURL, try_catch, process.
  destruct r as [error | status header [result|]]; simpl; eauto.
  all: destruct (status =? 404)%nat; simpl; eauto.
Qed.

Lemma settle_failure (options : Options) (p : pending) (r : fetched) (w : World)
    (error : string) :
  fetchAsDataURL (p_resourceUrl p) r (process (p_contentType p)) = Throw error ->
  settle options p r w
  = (Normal (placeholder options),
     set_cache (p_cacheKey p) (placeholder options) w).
Proof. unfold settle. intros ->. reflexivity. Qed.

Lemma start_key (h : Host) url ct options w p w1 :
  start h url ct options w = (Miss p, w1) ->
  p_cacheKey p = getCacheKey url ct (includeQueryParams options)
  /\ cache w !! p_cacheKey p = None
  /\ cache w1 = cache w
  /\ counter w1 = counter w
  /\ requests w1 = (requests w ++ [p_resourceUrl p])%list.
Proof.
  unfold start.
  destruct (cache w !! getCacheKey url ct (includeQueryParams options)) eqn:E;
    [discriminate|].
  intros [= <- <-]. simpl. auto.
Qed.

Lemma start_hit (h : Host) url ct options w d :
  cache w !! getCacheKey url ct (includeQueryParams options) = Some d ->
  start h url ct options w = (Hit d, w).
Proof. unfold start. now intros ->. Qed.

Lemma resourceToDataURL_normal (h : Host) url ct options w :
  exists dataURL w', resourceToDataURL h url ct options w = (Normal dataURL, w').
Proof.
  unfold resourceToDataURL.
  destruct (start h url ct options w) as [[d | p] w1]; [eauto|].
  destruct (settle_normal options p (fetch h (p_request p) (p_resourceUrl p)) w1)
    as [d ->]. eauto.
Qed.

(** C2.  [resourceToDataURL] never lets a failure through: whatever the
    URL, the content type, the options, the state and the answers of the
    network, it returns normally; and when the fetch it issues fails (the
    request is rejected, the answer is a 404, or the content cannot be
    read), the result is the configured placeholder, or the empty text
    when there is none, one request has been made, and a look-up in the
    cache under the key computed from the arguments then gives that same
    value. *)
Theorem resourceToDataURL_degrades (h : Host) (resourceUrl contentType : string)
    (options : Options) (w : World) :
  (exists dataURL w',
      resourceToDataURL h resourceUrl contentType options w = (Normal dataURL, w'))
  /\ (forall p w1 error,
         start h resourceUrl contentType options w = (Miss p, w1) ->
         fetchAsDataURL (p_resourceUrl p) (fetch h (p_request p) (p_resourceUrl p))
                        (process (p_contentType p)) = Throw error ->
         exists w',
           resourceToDataURL h resourceUrl contentType options w
           = (Normal (placeholder options), w')
           /\ cache w'
                !! getCacheKey resourceUrl contentType (includeQueryParams options)
              = Some (placeholder options)
           /\ requests w' = (requests w ++ [p_resourceUrl p])%list).
Proof.
  split; [apply resourceToDataURL_normal|].
  intros p w1 error Hstart Hfail. unfold resourceToDataURL. rewrite Hstart.
  destruct (start_key _ _ _ _ _ _ _ Hstart) as (Hkey & _ & _ & _ & Hreq).
  rewrite (settle_failure options p _ w1 error Hfail). eexists. split; [reflexivity|].
  cbn [set_cache cache requests]. rewrite <- Hkey.
  split; [apply lookup_insert_eq | exact Hreq].
Qed.

Lemma resourceToDataURL_degrades_witness :
  exists w',
    resourceToDataURL Samples.missing Samples.picture "image/png"
                      Samples.with_placeholder initial
    = (Normal "data:image/gif;base64,R0lG", w')
    /\ cache w' !! "[image/png]http://example.com/a.png"
       = Some "data:image/gif;base64,R0lG"
    /\ requests w' = [Samples.picture].
Proof.
  exact (proj2 (resourceToDataURL_degrades Samples.missing Samples.picture
                  "image/png" Samples.with_placeholder initial)
               (Pending "[image/png]http://example.com/a.png" "image/png"
                        Samples.picture 0)
               (log_request Samples.picture initial)
               ("Resource " ++ String dquote (Samples.picture ++ String dquote " not found"))
               eq_refl eq_refl).
Defined.

Example resourceToDataURL_offline_without_placeholder :
  fst (resourceToDataURL Samples.offline Samples.picture "image/png" no_options initial)
  = Normal EmptyString.
Proof. vm_compute. reflexivity. Qed.

(** *** The cache answers later calls *)

Lemma resourceToDataURL_cached (h : Host) url ct options w d w1 :
  resourceToDataURL h url ct options w = (Normal d, w1) ->
  cache w1 !! getCacheKey url ct (includeQueryParams options) = Some d.
Proof.
  unfold resourceToDataURL.
  destruct (start h url ct options w) as [[d' | p] w'] eqn:Hstart.
  - intros [= <- <-]. unfold start in Hstart.
    destruct (cache w !! _) eqn:E; [|discriminate].
    now injection Hstart as <- <-.
  - destruct (start_key _ _ _ _ _ _ _ Hstart) as (Hkey & _).
    destruct (settle_normal options p (fetch h (p_request p) (p_resourceUrl p)) w')
      as [d' ->].
    intros [= <- <-]. rewrite <- Hkey. simpl. apply lookup_insert_eq.
Qed.

Lemma resourceToDataURL_keeps (h : Host) url ct options w key d :
  cache w !! key = Some d ->
  cache (snd (resourceToDataURL h url ct options w)) !! key = Some d.
Proof.
  intros Hkey. unfold resourceToDataURL.
  destruct (start h url ct options w) as [[d' | p] w'] eqn:Hstart.
  - unfold start in Hstart.
    destruct (cache w !! getCacheKey url ct (includeQueryParams options));
      [|discriminate].
    now injection Hstart as <- <-.
  - destruct (start_key _ _ _ _ _ _ _ Hstart) as (_ & Hnone & Hcache & _).
    destruct (settle_normal options p (fetch h (p_request p) (p_resourceUrl p)) w')
      as [d' ->].
    simpl. rewrite Hcache. rewrite lookup_insert_ne; [assumption|].
    intros <-. congruence.
Qed.

(** C3, the claim as stated fails.  Two references to one picture whose
    calls overlap: both find the cache empty, both fetch; here the first
    fetch succeeds and the second fails, so the two references do not even
    get the same text. *)
Lemma concurrent_references_fetch_twice :
  requests (world (run Samples.host initial Samples.two_references))
  = [Samples.picture; Samples.picture]
  /\ returned (run Samples.host initial Samples.two_references)
     = [(1%nat, Normal "data:image/png;base64,AAAA"); (2%nat, Normal EmptyString)].
Proof. vm_compute. split; reflexivity. Qed.

(** *** Calls in flight together *)

Lemma key_of_app (id : nat) (l1 l2 : list (nat * string)) :
  key_of id (l1 ++ l2)
  = match key_of id l1 with
    | Some k => Some k
    | None => key_of id l2
    end.
Proof.
  induction l1 as [|[k key] l1 IH]; simpl; [reflexivity|].
  destruct (k =? id)%nat; auto.
Qed.

Lemma key_of_In (id : nat) (l : list (nat * string)) :
  In id (map fst l) -> exists key, key_of id l = Some key.
Proof.
  induction l as [|[k key] l IH]; simpl; [contradiction|].
  destruct (Nat.eqb_spec k id) as [->|Hne]; [eauto|].
  intros [H | H]; [congruence | auto].
Qed.

Lemma key_of_fresh (id : nat) (l : list (nat * string)) :
  ~ In id (map fst l) -> key_of id l = None.
Proof.
  induction l as [|[k key] l IH]; simpl; [reflexivity|].
  intros H. destruct (Nat.eqb_spec k id) as [->|Hne]; [tauto|].
  apply IH. tauto.
Qed.

Lemma take_waiting_In (id : nat) (l : list (nat * (Options * pending)))
    (x : Options * pending) (rest : list (nat * (Options * pending))) :
  take_waiting id l = (Some x, rest) ->
  In (id, x) l /\ (forall y, In y rest -> In y l).
Proof.
  revert rest; induction l as [|[k y] l IH]; intros rest; simpl; [discriminate|].
  destruct (Nat.eqb_spec k id) as [->|Hne].
  - intros [= -> ->]. auto.
  - destruct (take_waiting id l) as [found rest'] eqn:E.
    intros [= -> <-]. destruct (IH rest' eq_refl) as [Hin Hrest].
    split; [auto|]. intros z [<- | Hz]; auto.
Qed.

Lemma omap_In_ext {A B : Type} (f g : A -> option B) (l : list A) :
  (forall x, In x l -> f x = g x) -> omap f l = omap g l.
Proof.
  induction l as [|x l IH]; intros H; [reflexivity|].
  assert (E : forall (k : A -> option B) (y : A) (t : list A),
            omap k (y :: t)
            = match k y with Some z => z :: omap k t | None => omap k t end)
    by reflexivity.
  rewrite !E, (H x) by (left; reflexivity).
  rewrite IH by (intros y Hy; apply H; right; exact Hy). reflexivity.
Qed.

Lemma omap_snoc {A B : Type} (f : A -> option B) (l : list A) (x : A) :
  omap f (l ++ [x])%list
  = (omap f l ++ match f x with Some y => [y] | None => [] end)%list.
Proof. rewrite omap_app. f_equal. Qed.

Lemma run_snoc (h : Host) (w : World) (events : list event) (e : event) :
  run h w (events ++ [e]) = step h (run h w events) e.
Proof. unfold run. now rewrite fold_left_app. Qed.

Lemma call_keys_snoc (events : list event) (e : event) :
  call_keys (events ++ [e])
  = (call_keys events ++ match call_key e with Some x => [x] | None => [] end)%list.
Proof.
  unfold call_keys. rewrite omap_app. simpl. now destruct (call_key e).
Qed.

(** Whatever the interleaving: the calls that wait are calls of the
    schedule, each under the key its arguments derive, and under every
    key for which a call has returned the cache holds the result of the
    call that returned last. *)
Lemma run_invariant (h : Host) (w : World) (events : list event) :
  NoDup (map fst (call_keys events)) ->
  (forall id options p,
      In (id, (options, p)) (waiting (run h w events)) ->
      key_of id (call_keys events) = Some (p_cacheKey p))
  /\ (forall id r, In (id, r) (returned (run h w events)) ->
                   In id (map fst (call_keys events)))
  /\ (forall key r,
         last (completed key events (run h w events)) = Some r ->
         exists dataURL,
           r = Normal dataURL
           /\ cache (world (run h w events)) !! key = Some dataURL).
Proof.
  induction events as [|e events IH] using rev_ind; intros Hnodup.
  - cbn. repeat split; try contradiction. intros key r H. discriminate H.
  - rewrite call_keys_snoc, map_app in Hnodup.
    apply NoDup_app in Hnodup as (Hold & Hfresh & _).
    destruct (IH Hold) as (Hwait & Hret & Hlast). clear IH.
    rewrite run_snoc. unfold completed. rewrite !call_keys_snoc.
    fold (completed) in Hlast.
    set (s := run h w events) in *.
    assert (Hsame : forall id x, In id (map fst (call_keys events)) ->
              key_of id (call_keys events ++ x) = key_of id (call_keys events)).
    { intros id x Hin. rewrite key_of_app.
      destruct (key_of_In _ _ Hin) as [k ->]. reflexivity. }
    destruct e as [id resourceUrl contentType options | id]; cbn [step call_key].
    + (* a call starts *)
      assert (Hid : ~ In id (map fst (call_keys events))).
      { intros Hin. apply (Hfresh id); [now apply list_elem_of_In|].
        apply list_elem_of_In. left. reflexivity. }
      set (key0 := getCacheKey resourceUrl contentType (includeQueryParams options)).
      assert (Hnew : key_of id (call_keys events ++ [(id, key0)]) = Some key0).
      { rewrite key_of_app, (key_of_fresh _ _ Hid). simpl. now rewrite Nat.eqb_refl. }
      destruct (start h resourceUrl contentType options (world s))
        as [[dataURL | p] w1] eqn:Hstart.
      * (* it finds the key *)
        unfold start in Hstart. fold key0 in Hstart.
        destruct (cache (world s) !! key0) as [d|] eqn:Hcache; [|discriminate].
        injection Hstart as <- <-.
        cbn [waiting returned world]. split; [|split].
        -- intros id' options' p' Hin. rewrite Hsame; [eauto|].
           destruct (key_of (id') (call_keys events)) eqn:E.
           ++ destruct (in_dec Nat.eq_dec id' (map fst (call_keys events))) as [|Hn];
                [assumption|].
              rewrite (key_of_fresh _ _ Hn) in E. discriminate.
           ++ rewrite (Hwait _ _ _ Hin) in E. discriminate.
        -- intros id' r Hin. rewrite map_app, in_app_iff.
           apply in_app_or in Hin as [Hin | [[= <- <-] | []]]; [left; eauto|].
           right. simpl. auto.
        -- intros key r. cbn [returned].
           rewrite omap_snoc. cbv beta iota. rewrite Hnew.
           replace (omap _ (returned s)) with (completed key events s).
           2:{ unfold completed. apply omap_In_ext.
               intros [id' r'] Hin. rewrite Hsame; [reflexivity|]. eauto. }
           destruct (String.eqb_spec key0 key) as [<-|Hne].
           ++ cbn. rewrite last_snoc. intros [= <-]. eauto.
           ++ cbn. rewrite app_nil_r. apply Hlast.
      * (* it waits for the network *)
        destruct (start_key _ _ _ _ _ _ _ Hstart) as (Hkey & _ & Hcache & _).
        fold key0 in Hkey.
        cbn [waiting returned world]. split; [|split].
        -- intros id' options' p' Hin.
           apply in_app_or in Hin as [Hin | [[= <- <- <-] | []]].
           ++ rewrite Hsame; [eauto|].
              destruct (in_dec Nat.eq_dec id' (map fst (call_keys events))) as [|Hn];
                [assumption|].
              pose proof (Hwait _ _ _ Hin) as Hk.
              rewrite (key_of_fresh _ _ Hn) in Hk. discriminate.
           ++ now rewrite Hnew, Hkey.
        -- intros id' r Hin. rewrite map_app, in_app_iff. left; eauto.
        -- intros key r. cbn [returned].
           replace (omap _ (returned s)) with (completed key events s).
           2:{ unfold completed. apply omap_In_ext.
               intros [id' r'] Hin. rewrite Hsame; [reflexivity|]. eauto. }
           rewrite Hcache. apply Hlast.
    + (* an answer arrives *)
      rewrite !app_nil_r.
      destruct (take_waiting id (waiting s)) as [[[options p]|] rest] eqn:Htake.
      * destruct (take_waiting_In _ _ _ _ Htake) as [Hin Hrest].
        destruct (settle_normal options p (fetch h (p_request p) (p_resourceUrl p))
                    (world s)) as [d ->].
        cbn [waiting returned world]. split; [|split].
        -- intros id' options' p' Hin'. apply Hrest in Hin'. eauto.
        -- intros id' r Hin'.
           apply in_app_or in Hin' as [Hin' | [[= <- <-] | []]]; [eauto|].
           pose proof (Hwait _ _ _ Hin) as Hk.
           destruct (in_dec Nat.eq_dec id (map fst (call_keys events))) as [|Hn];
             [assumption|].
           rewrite (key_of_fresh _ _ Hn) in Hk. discriminate.
        -- intros key r. cbn [returned].
           rewrite omap_snoc. cbv beta iota. rewrite (Hwait _ _ _ Hin).
           fold (completed key events s).
           destruct (String.eqb_spec (p_cacheKey p) key) as [<-|Hne].
           ++ cbn. rewrite last_snoc. intros [= <-]. exists d.
              split; [reflexivity|]. apply lookup_insert_eq.
           ++ cbn. rewrite app_nil_r. intros Hl.
              destruct (Hlast _ _ Hl) as (d' & -> & Hc). exists d'.
              split; [reflexivity|]. now rewrite lookup_insert_ne.
      * auto.
Qed.

(** C3, amended.  For a cache key that names no member every object
    inherits, and whatever the interleaving of the calls made so far: a
    call whose arguments derive the cache key of a call that has
    returned performs no fetch, leaves the state as it is and returns at
    once, with the text that the call for that key that returned last
    has returned.  That is the earlier call itself unless a call for the
    key that was in flight with it returned after it.  And every call,
    run from its start to its return, fetches at most once: not at all
    when its key is in the cache, once when it is not, and the cache
    holds its result under the key afterwards.  So two references to one
    URL that are processed one after the other get the same text and cost
    one fetch. *)
Theorem resourceToDataURL_hit_after_completion (h : Host) (w : World)
    (events : list event) (id : nat) (resourceUrl contentType : string)
    (options : Options) (r : completion string) :
  NoDup (map fst (call_keys events)) ->
  inherited (getCacheKey resourceUrl contentType (includeQueryParams options)) = false ->
  last (completed (getCacheKey resourceUrl contentType (includeQueryParams options))
                  events (run h w events)) = Some r ->
  (exists dataURL,
      r = Normal dataURL
      /\ step h (run h w events) (Call id resourceUrl contentType options)
         = RunState (world (run h w events)) (waiting (run h w events))
                    (returned (run h w events) ++ [(id, Normal dataURL)]))
  /\ (forall w0 cached,
         cache w0 !! getCacheKey resourceUrl contentType (includeQueryParams options)
         = Some cached ->
         resourceToDataURL h resourceUrl contentType options w0 = (Normal cached, w0))
  /\ (forall w0,
         cache w0 !! getCacheKey resourceUrl contentType (includeQueryParams options)
         = None ->
         exists dataURL w1 request,
           resourceToDataURL h resourceUrl contentType options w0 = (Normal dataURL, w1)
           /\ requests w1 = (requests w0 ++ [request])%list
           /\ cache w1
                !! getCacheKey resourceUrl contentType (includeQueryParams options)
              = Some dataURL).
Proof.
  intros Hnodup _ Hlast. split; [|split].
  - destruct (run_invariant h w events Hnodup) as (_ & _ & Hinv).
    destruct (Hinv _ _ Hlast) as (dataURL & -> & Hcache).
    exists dataURL. split; [reflexivity|].
    cbn [step]. now rewrite (start_hit _ _ _ _ _ _ Hcache).
  - intros w0 cached Hcache. unfold resourceToDataURL.
    now rewrite (start_hit _ _ _ _ _ _ Hcache).
  - intros w0 Hmiss.
    destruct (resourceToDataURL_normal h resourceUrl contentType options w0)
      as (dataURL & w1 & E).
    exists dataURL, w1.
    pose proof (resourceToDataURL_cached _ _ _ _ _ _ _ E) as Hcached.
    unfold resourceToDataURL in E.
    destruct (start h resourceUrl contentType options w0) as [[d | p] w'] eqn:Hstart.
    + unfold start in Hstart. rewrite Hmiss in Hstart. discriminate.
    + destruct (start_key _ _ _ _ _ _ _ Hstart) as (_ & _ & _ & _ & Hreq).
      destruct (settle_normal options p (fetch h (p_request p) (p_resourceUrl p)) w')
        as [d' Hsettle].
      rewrite Hsettle in E. injection E as <- <-.
      exists (p_resourceUrl p).
      split; [unfold resourceToDataURL; now rewrite Hstart, Hsettle|].
      split; [exact Hreq | assumption].
Qed.

Lemma resourceToDataURL_hit_after_completion_witness :
  returned (run Samples.host initial Samples.overtaken)
  = [(2%nat, Normal EmptyString); (1%nat, Normal "data:image/png;base64,AAAA")]
  /\ step Samples.host (run Samples.host initial Samples.overtaken)
          (Call 3 (Samples.picture ++ "?retina=1") "image/png" no_options)
     = RunState (world (run Samples.host initial Samples.overtaken))
                (waiting (run Samples.host initial Samples.overtaken))
                (returned (run Samples.host initial Samples.overtaken)
                 ++ [(3%nat, Normal "data:image/png;base64,AAAA")])
  /\ requests (world (run Samples.host initial Samples.overtaken))
     = [Samples.picture; Samples.picture].
Proof.
  split; [vm_compute; reflexivity|]. split; [|vm_compute; reflexivity].
  destruct (proj1 (resourceToDataURL_hit_after_completion Samples.host initial
                     Samples.overtaken 3 (Samples.picture ++ "?retina=1")
                     "image/png" no_options (Normal "data:image/png;base64,AAAA")
                     ltac:(apply (bool_decide_eq_true_1 _); vm_compute; reflexivity)
                     ltac:(reflexivity) ltac:(vm_compute; reflexivity)))
    as (dataURL & E & Hstep).
  injection E as <-. exact Hstep.
Defined.

(* ===================================================================== *)
(** ** src/embed-resources.js: the preferred font format *)
(* ===================================================================== *)

(** Without a preferred format the text comes back as it is, and
    [URL_WITH_FORMAT_REGEX] is not touched. *)
Lemma filterPreferredFontFormat_no_preference (str : string) (options : Options)
    (lastIndex : nat) :
  truthy (preferredFontFormat options) = false ->
  filterPreferredFontFormat str options lastIndex = (str, lastIndex).
Proof. unfold filterPreferredFontFormat. intros ->. reflexivity. Qed.

(** The scenario of the spec, on a [URL_WITH_FORMAT_REGEX] that has not
    been used: the alternative of the preferred format survives.  The
    expression object is left with its [lastIndex] behind that
    alternative. *)
Example filterPreferredFontFormat_scenario :
  filterPreferredFontFormat (Samples.font_src "a") Samples.prefer_woff2 0
  = (Samples.woff2_src "a", 33%nat).
Proof. vm_compute. reflexivity. Qed.

Example filterPreferredFontFormat_second_alternative :
  fst (filterPreferredFontFormat
         "src: url(a.ttf) format('truetype'), url(a.woff2) format('woff2');"
         Samples.prefer_woff2 0)
  = "src: url(a.woff2) format('woff2');".
Proof. vm_compute. reflexivity. Qed.

Example filterPreferredFontFormat_no_match :
  fst (filterPreferredFontFormat
         "src: url(a.ttf) format('truetype'), url(a.woff) format('woff');"
         Samples.prefer_woff2 0)
  = EmptyString.
Proof. vm_compute. reflexivity. Qed.

(** C7.  The callback returns as soon as it has found the preferred
    format and leaves [lastIndex] of the shared [URL_WITH_FORMAT_REGEX]
    where that match ended; the next declaration is then searched from
    there on, past its own first alternative.  Of two declarations that
    both offer the preferred format the second is dropped, within one text
    and from one call to the next. *)
Theorem filterPreferredFontFormat_drops_second_declaration :
  filterPreferredFontFormat (Samples.font_src "a" ++ " " ++ Samples.font_src "b")
                            Samples.prefer_woff2 0
  = (Samples.woff2_src "a", 0%nat)
  /\ filterPreferredFontFormat (Samples.font_src "b") Samples.prefer_woff2
       (snd (filterPreferredFontFormat (Samples.font_src "a") Samples.prefer_woff2 0))
     = (EmptyString, 0%nat).
Proof. vm_compute. split; reflexivity. Qed.

(* ===================================================================== *)
(** ** src/embed-webfonts.js: the rule extractor, the font stage *)
(* ===================================================================== *)

(** C6.  The text of the scenario yields exactly two fragments: the
    keyframes block, then the rule for [.a] (with the blank that precedes
    it in the text). *)
Theorem parseCSS_keyframes_then_rule :
  parseCSS (Some Samples.keyframes_and_rule)
  = ["@keyframes spin{0%{opacity:0}100%{opacity:1}}"; " .a{color:red}"].
Proof. vm_compute. reflexivity. Qed.

Example parseCSS_null : parseCSS None = [].
Proof. reflexivity. Qed.

Example parseCSS_strips_comments :
  parseCSS (Some "/* note */.a{color:red}/* end */") = [".a{color:red}"].
Proof. vm_compute. reflexivity. Qed.

Section FontStage.
Variable getWebFontCSS : Clone -> Options -> M string.

(** A style node put in with [insertFirst] is the first child, in front of
    the children that were there. *)
Lemma insertFirst_children (child clone : Clone) :
  c_children (insertFirst child clone) = child :: c_children clone.
Proof.
  unfold insertFirst. destruct (c_children clone) eqn:E; simpl; now rewrite ?E.
Qed.

(** A text supplied as [fontEmbedCSS] is used as it is, without discovery;
    when it is not empty, it becomes the first child. *)
Lemma embedWebFonts_supplied (clonedNode : Clone) (options : Options)
    (css : string) (w : World) :
  fontEmbedCSS options = Text css ->
  embedWebFonts getWebFontCSS clonedNode options w
  = (Normal (if truthy css then insertFirst (style_node css) clonedNode
             else clonedNode), w).
Proof.
  unfold embedWebFonts, bind, ret. intros ->. destruct (truthy css); reflexivity.
Qed.

(** [fontEmbedCSS: null] with [skipFonts]: nothing is done. *)
Lemma embedWebFonts_skipped (clonedNode : Clone) (options : Options) (w : World) :
  fontEmbedCSS options = Null -> skipFonts options = true ->
  embedWebFonts getWebFontCSS clonedNode options w = (Normal clonedNode, w).
Proof. unfold embedWebFonts, bind, ret. intros -> ->. reflexivity. Qed.

(** [fontEmbedCSS: null] without [skipFonts]: the text comes from the
    discovery. *)
Lemma embedWebFonts_discovers (clonedNode : Clone) (options : Options)
    (css : string) (w w1 : World) :
  fontEmbedCSS options = Null -> skipFonts options = false ->
  getWebFontCSS clonedNode options w = (Normal css, w1) ->
  embedWebFonts getWebFontCSS clonedNode options w
  = (Normal (if truthy css then insertFirst (style_node css) clonedNode
             else clonedNode), w1).
Proof.
  unfold embedWebFonts, bind, ret. intros -> -> ->. destruct (truthy css); reflexivity.
Qed.

(** An option object without [fontEmbedCSS]: the option reads as
    [undefined], which is not [null], so neither [skipFonts] nor the
    discovery is looked at and nothing is embedded. *)
Lemma embedWebFonts_undefined (clonedNode : Clone) (options : Options) (w : World) :
  fontEmbedCSS options = Undefined ->
  embedWebFonts getWebFontCSS clonedNode options w = (Normal clonedNode, w).
Proof. unfold embedWebFonts, bind, ret. intros ->. reflexivity. Qed.
End FontStage.

(** C1.  With the options [{}], the ones [toSvg] takes when it is given
    none, the caller has supplied no font text and has not asked to skip
    the fonts; the stage embeds nothing all the same, whatever the
    discovery would have found: it is not called, the state is untouched
    and the clone is returned as it came, without a style node in front of
    its children. *)
Theorem embedWebFonts_absent_option_embeds_nothing
    (getWebFontCSS : Clone -> Options -> M string) (clonedNode : Clone) (w : World) :
  embedWebFonts getWebFontCSS clonedNode no_options w = (Normal clonedNode, w).
Proof. reflexivity. Qed.

(** The same document with [fontEmbedCSS: null] spelled out: the font face
    the discovery finds is put in front. *)
Example embedWebFonts_explicit_null :
  embedWebFonts (fun _ _ => ret Samples.font_face)
                (set_children [createTextNode "text"] (createElement "div"))
                (mkOptions None Null false EmptyString false false EmptyString)
                initial
  = (Normal (set_children [style_node Samples.font_face; createTextNode "text"]
                          (createElement "div")), initial).
Proof. reflexivity. Qed.

(* ===================================================================== *)
(** ** clone-pseudos.js: the rule for generated content *)
(* ===================================================================== *)

Import ClonePseudos.

Lemma without_quotes_clean (s : string) :
  all_chars (fun c => negb (is_quote c)) (without_quotes s) = true.
Proof.
  induction s as [|c s IH]; simpl; auto.
  destruct (is_quote c) eqn:E; simpl; auto. now rewrite E.
Qed.

Lemma without_quotes_append_clean (pre post : string) :
  without_quotes pre = pre ->
  without_quotes (pre ++ post) = pre ++ without_quotes post.
Proof.
  induction pre as [|c pre IH]; simpl; auto.
  destruct (is_quote c) eqn:E.
  - intros H. exfalso.
    pose proof (without_quotes_clean pre) as Hc. rewrite H in Hc. simpl in Hc.
    rewrite E in Hc. discriminate.
  - intros [= H]. now rewrite IH.
Qed.

Lemma match_at_quote (i : nat) (c : ascii) (s : string) :
  match_at false (pattern quoteRegex) i (String c s)
  = if is_quote c then Some (MatchResult i (S i) (String c EmptyString) []) else None.
Proof.
  unfold match_at, is_quote, quoteRegex, Lit.
  cbn -[Ascii.eqb Nat.sub squote dquote].
  rewrite !orb_false_r.
  replace (S i - i)%nat with 1%nat by lia.
  destruct (Ascii.eqb squote c), (Ascii.eqb dquote c); reflexivity.
Qed.

Lemma search_quote (i : nat) (s : string) :
  match search_from false (pattern quoteRegex) i s with
  | None => without_quotes s = s
  | Some mr =>
      exists pre q post,
        s = pre ++ String q post /\ without_quotes pre = pre /\ is_quote q = true
        /\ m_start mr = (i + String.length pre)%nat /\ m_end mr = S (m_start mr)
  end.
Proof.
  revert i; induction s as [|c s IH]; intros i.
  - reflexivity.
  - cbn [search_from]. rewrite match_at_quote.
    destruct (is_quote c) eqn:E.
    + exists EmptyString, c, s. simpl. repeat split; auto.
    + specialize (IH (S i)).
      destruct (search_from false (pattern quoteRegex) (S i) s) as [mr|].
      * destruct IH as (pre & q & post & -> & Hpre & Hq & Hs & He).
        exists (String c pre), q, post. simpl. rewrite E, Hpre.
        repeat split; auto. lia.
      * simpl. rewrite E. now rewrite IH.
Qed.

Lemma replace_quotes (fuel i : nat) (s : string) :
  (String.length s < fuel)%nat ->
  fst (replace_from quoteRegex (fun (_ : unit) _ => (EmptyString, tt)) fuel i s tt)
  = without_quotes s.
Proof.
  revert i s; induction fuel as [|fuel IH]; intros i s Hlen; [lia|].
  cbn [replace_from]. pose proof (search_quote i s) as Hs.
  change (ignoreCase quoteRegex) with false.
  destruct (search_from false (pattern quoteRegex) i s) as [mr|].
  - destruct Hs as (pre & q & post & -> & Hpre & Hq & Hstart & Hend).
    rewrite Hend, Hstart.
    replace (S (i + String.length pre) =? i + String.length pre)%nat with false
      by (symmetry; apply Nat.eqb_neq; lia).
    replace (i + String.length pre - i)%nat with (String.length pre) by lia.
    replace (S (i + String.length pre) - i)%nat with (S (String.length pre)) by lia.
    rewrite str_take_append.
    replace (drop (S (String.length pre)) (pre ++ String q post)) with post.
    2:{ change (S (String.length pre)) with (1 + String.length pre)%nat.
        clear. induction pre; simpl; auto. }
    specialize (IH (S (i + String.length pre)) post).
    destruct (replace_from _ _ fuel _ post tt) as [out st2]. simpl in *.
    rewrite IH.
    + now rewrite without_quotes_append_clean; simpl; [rewrite Hq|].
    + rewrite str_length_append in Hlen. simpl in Hlen. lia.
  - simpl. now rewrite Hs.
Qed.

Lemma replace_all_quotes (s : string) :
  replace_all quoteRegex EmptyString s = without_quotes s.
Proof. unfold replace_all, replace_all_st. apply replace_quotes. lia. Qed.

Example formatCSSText_round_trip :
  formatCSSText Samples.quoted_content = "color: red; content: 'its quoted';".
Proof. vm_compute. reflexivity. Qed.

(** C8, the claim as stated fails.  In a host whose resolved style has no
    serialized text the rule is built from the single properties, and the
    value of [content] goes in as it is: with its double quotes and
    without single quotes around it. *)
Lemma pseudo_rule_keeps_quotes_without_cssText :
  fst (clonePseudoElement Samples.host Samples.labelled
         (shallow Samples.labelled) BEFORE initial)
  = appendChild
      (appendChild
         (createTextNode
            (".ui0001::before{content: " ++ Samples.quoted "x" ++ ";}"))
         (createElement "style"))
      (set_className " ui0001" (shallow Samples.labelled))
  /\ contains "content: 'x'"
       (".ui0001::before{content: " ++ Samples.quoted "x" ++ ";}") = false.
Proof. vm_compute. split; reflexivity. Qed.

(** C8, amended.  For a node whose pseudo-element has a resolved content
    other than the empty text and [none], whose resolved style comes with
    a serialized text, and whose clone takes the class name: the clone
    gets one more child, a style element holding the rule
    [.name:pseudo{text content: 'literal';}], where [name] is the fresh
    name, [text] the serialized style and [literal] the resolved content
    with every single and double quote stripped; the literal holds no
    quote. *)
Theorem clonePseudoElement_content_literal (h : Host) (nativeNode : Node)
    (clonedNode : Clone) (pseudo : Pseudo) (w : World) :
  let style := getComputedStyle nativeNode pseudo in
  let content := getPropertyValue style "content" in
  content <> EmptyString -> content <> "none" ->
  truthy (cssText style) = true ->
  c_classNameSetter clonedNode <> Throws ->
  exists clonedNode',
    c_children clonedNode' = c_children clonedNode
    /\ clonePseudoElement h nativeNode clonedNode pseudo w
       = (appendChild
            (appendChild
               (createTextNode
                  (("." ++ fst (uuid h w) ++ ":" ++ pseudo_text pseudo)
                   ++ "{"
                   ++ (cssText style ++ " content: '" ++ without_quotes content ++ "';")
                   ++ "}"))
               (createElement "style"))
            clonedNode',
          snd (uuid h w))
    /\ all_chars (fun c => negb (is_quote c)) (without_quotes content) = true.
Proof.
  intros style content Hne Hnone Htext Hset.
  unfold clonePseudoElement. fold style. fold content.
  apply String.eqb_neq in Hne, Hnone. rewrite Hne, Hnone. cbn [orb].
  destruct (uuid h w) as [className w1] eqn:Eu. cbn [fst snd].
  unfold getPseudoElementStyle, pseudoRule, formatCSSText.
  fold style. rewrite Htext. fold content. rewrite replace_all_quotes.
  destruct (c_classNameSetter clonedNode) eqn:Es; [| |congruence].
  - eexists. split; [|split; [reflexivity | apply without_quotes_clean]].
    reflexivity.
  - eexists. split; [|split; [reflexivity | apply without_quotes_clean]].
    reflexivity.
Qed.

Lemma clonePseudoElement_content_literal_witness :
  exists clonedNode',
    c_children clonedNode' = c_children (shallow Samples.quoting)
    /\ clonePseudoElement Samples.host Samples.quoting (shallow Samples.quoting)
                          BEFORE initial
       = (appendChild
            (appendChild
               (createTextNode ".ui0001::before{color: red; content: 'its quoted';}")
               (createElement "style"))
            clonedNode',
          mkWorld 1 ∅ [])
    /\ all_chars (fun c => negb (is_quote c)) "its quoted" = true.
Proof.
  apply (clonePseudoElement_content_literal Samples.host Samples.quoting
           (shallow Samples.quoting) BEFORE initial).
  - intros H. vm_compute in H. discriminate H.
  - intros H. vm_compute in H. discriminate H.
  - reflexivity.
  - intros H. vm_compute in H. discriminate H.
Defined.

(* ===================================================================== *)
(** ** src/clone-node.js: the resolved style, the children *)
(* ===================================================================== *)

Import CloneNode.

(** *** The font size *)

Lemma toArray_id {A : Type} (l : list A) : toArray l = l.
Proof.
  unfold toArray.
  assert (H : forall acc, fold_left (fun arr item => (arr ++ [item])%list) l acc
                          = (acc ++ l)%list).
  { induction l as [|x l IH]; intros acc; simpl.
    - now rewrite app_nil_r.
    - rewrite IH, <- app_assoc. reflexivity. }
  apply H.
Qed.

Lemma lookup_declaration_app (name : string) (l1 l2 : list declaration) :
  lookup_declaration name (l1 ++ l2)
  = match lookup_declaration name l1 with
    | Some d => Some d
    | None => lookup_declaration name l2
    end.
Proof.
  induction l1 as [|d l1 IH]; simpl; auto.
  destruct (String.eqb (d_name d) name); auto.
Qed.

Lemma lookup_declaration_filter (name other : string) (l : list declaration) :
  lookup_declaration name
    (List.filter (fun d => negb (String.eqb (d_name d) other)) l)
  = if String.eqb other name then None else lookup_declaration name l.
Proof.
  induction l as [|d l IH]; simpl.
  - now destruct (String.eqb other name).
  - destruct (String.eqb (d_name d) other) eqn:E1; simpl.
    + apply String.eqb_eq in E1. rewrite E1.
      destruct (String.eqb other name) eqn:E2; auto.
    + destruct (String.eqb (d_name d) name) eqn:E2; auto.
      apply String.eqb_eq in E2. rewrite <- E2.
      rewrite String.eqb_sym, E1. reflexivity.
Qed.

Lemma declared_setProperty (name val priority other : string) (s : CloneStyle) :
  declared (setProperty name val priority s) other
  = if String.eqb name other then Some (Declaration name val priority)
    else declared s other.
Proof.
  unfold declared, setProperty. simpl.
  rewrite lookup_declaration_app, lookup_declaration_filter. simpl.
  destruct (String.eqb name other); auto.
  now destruct (lookup_declaration other (s_declarations s)).
Qed.

Lemma declared_copied (nativeNode : Node) (clonedNode : Clone)
    (sourceStyle : CSSStyleDeclaration) (names : list string)
    (targetStyle : CloneStyle) (name : string) :
  In name names ->
  declared (fold_left (copy_property nativeNode clonedNode sourceStyle) names targetStyle)
           name
  = Some (Declaration name (adjusted_value nativeNode clonedNode sourceStyle name)
                      (getPropertyPriority sourceStyle name)).
Proof.
  revert targetStyle.
  induction names as [|n names IH] using rev_ind; intros targetStyle Hin;
    [destruct Hin|].
  rewrite fold_left_app. simpl. unfold copy_property at 1.
  rewrite declared_setProperty.
  destruct (String.eqb n name) eqn:E.
  - apply String.eqb_eq in E. now subst.
  - apply IH. apply in_app_or in Hin as [Hin | [-> | []]]; auto.
    now rewrite String.eqb_refl in E.
Qed.

Lemma lookup_declaration_In (name : string) (l : list declaration) (d : declaration) :
  lookup_declaration name l = Some d -> In name (map d_name l).
Proof.
  induction l as [|d' l IH]; simpl; [discriminate|].
  destruct (String.eqb (d_name d') name) eqn:E; auto.
  apply String.eqb_eq in E. auto.
Qed.

Lemma endsWith_append (s suffix : string) : endsWith (s ++ suffix) suffix = true.
Proof.
  unfold endsWith. rewrite str_length_append.
  replace (String.length s + String.length suffix - String.length suffix)%nat
    with (String.length s) by lia.
  rewrite str_drop_append, String.eqb_refl. simpl.
  apply Nat.leb_le. lia.
Qed.

Lemma adjusted_font_size (nativeNode : Node) (clonedNode : Clone)
    (sourceStyle : CSSStyleDeclaration) (digits : string) :
  getPropertyValue sourceStyle "font-size" = digits ++ "px" ->
  adjusted_value nativeNode clonedNode sourceStyle "font-size"
  = Number_toString (minus (Math_floor (parseFloat digits)) (1 # 10)) ++ "px".
Proof.
  intros Hv. unfold adjusted_value. rewrite Hv.
  change (String.eqb "font-size" "font-size") with true.
  change (String.eqb "font-size" "display") with false.
  change (String.eqb "font-size" "d") with false.
  rewrite endsWith_append, andb_false_r. cbn [andb].
  rewrite str_length_append.
  replace (String.length digits + String.length "px" - 2)%nat
    with (String.length digits) by (simpl; lia).
  now rewrite str_take_append.
Qed.

(** C9.  The code rounds the number down before it takes the tenth off,
    where the claim, and the comment of [cloneCSSStyle], take the tenth
    off the resolved size: on the path that copies the resolved
    properties one by one, a resolved font size of 16.5 pixels is applied
    to the clone as 15.9 pixels, not as the 16.4 pixels that 16.5 reduced
    by 0.1 makes. *)
Theorem font_size_is_floored :
  cssText (computedStyle Samples.A) = EmptyString
  /\ getPropertyValue (computedStyle Samples.A) "font-size" = "16.5px"
  /\ match c_style (cloneCSSStyle Samples.A (shallow Samples.A)) with
     | Some applied => d_value <$> declared applied "font-size"
     | None => None
     end = Some "15.9px"
  /\ Number_toString (minus (parseFloat "16.5") (1 # 10)) ++ "px" = "16.4px".
Proof. vm_compute. repeat split; reflexivity. Qed.

Example whole_font_size :
  Number_toString (minus (Math_floor (parseFloat "16")) (1 # 10)) ++ "px" = "15.9px"
  /\ Number_toString (minus (parseFloat "16") (1 # 10)) ++ "px" = "15.9px".
Proof. vm_compute. split; reflexivity. Qed.

(** *** The children of a clone *)

Lemma cloneNode_filtered (h : Host) (fuel : nat) (node : Node) (options : Options)
    (f : Node -> bool) (w : World) :
  filter options = Some f -> f node = false ->
  cloneNode h fuel node options false w = (Normal None, w).
Proof.
  intros Hf Hnode. destruct fuel; simpl; rewrite Hf, Hnode; reflexivity.
Qed.

Lemma cloneNode_root (h : Host) (fuel : nat) (node : Node) (options : Options) :
  cloneNode h (S fuel) node options true
  = (clonedNode <- cloneSingleNode h (cloneNode h fuel) node options ;;
     clonedNode <- cloneChildren (cloneNode h fuel) node clonedNode options ;;
     clonedNode <- lift (decorate h node clonedNode) ;;
     clonedNode <- ensureSVGSymbols h (cloneNode h fuel) clonedNode options ;;
     ret (Some clonedNode)).
Proof. reflexivity. Qed.

Lemma cloneSingleNode_plain (h : Host) cn (node : Node) (options : Options) :
  plain (n_interface node) = true ->
  cloneSingleNode h cn node options = ret (shallow node).
Proof.
  unfold cloneSingleNode. destruct (n_interface node); simpl; intros H;
    try discriminate; reflexivity.
Qed.

Lemma clonePseudoElement_children (h : Host) (nativeNode : Node) (clonedNode : Clone)
    (pseudo : Pseudo) (w : World) :
  exists styles,
    c_children (fst (clonePseudoElement h nativeNode clonedNode pseudo w))
    = (c_children clonedNode ++ styles)%list
    /\ (length styles <= 1)%nat /\ Forall (tagged "style") styles.
Proof.
  unfold clonePseudoElement.
  destruct (_ || _).
  - exists []. simpl. rewrite app_nil_r. auto.
  - destruct (uuid h w) as [className w1].
    destruct (c_classNameSetter clonedNode); simpl.
    + eexists [_]. split; [reflexivity|]. split; [simpl; lia|].
      constructor; [reflexivity | constructor].
    + eexists [_]. split; [reflexivity|]. split; [simpl; lia|].
      constructor; [reflexivity | constructor].
    + exists []. rewrite app_nil_r. auto.
Qed.

Lemma clonePseudoElements_children (h : Host) (nativeNode : Node) (clonedNode : Clone)
    (w : World) :
  exists styles,
    c_children (fst (clonePseudoElements h nativeNode clonedNode w))
    = (c_children clonedNode ++ styles)%list
    /\ (length styles <= 2)%nat /\ Forall (tagged "style") styles.
Proof.
  unfold clonePseudoElements.
  destruct (clonePseudoElement_children h nativeNode clonedNode BEFORE w)
    as (s1 & H1 & L1 & F1).
  destruct (clonePseudoElement h nativeNode clonedNode BEFORE w) as [c1 w1].
  destruct (clonePseudoElement_children h nativeNode c1 AFTER w1)
    as (s2 & H2 & L2 & F2).
  simpl in H1. exists (s1 ++ s2)%list. rewrite H2, H1, app_assoc.
  split; [reflexivity|]. split; [rewrite length_app; lia|].
  apply Forall_app; auto.
Qed.

Lemma cloneCSSStyle_children (nativeNode : Node) (clonedNode : Clone) :
  c_children (cloneCSSStyle nativeNode clonedNode) = c_children clonedNode.
Proof.
  unfold cloneCSSStyle. destruct (c_style clonedNode); [|reflexivity].
  destruct (truthy _); reflexivity.
Qed.

Lemma decorate_children (h : Host) (nativeNode : Node) (clonedNode : Clone)
    (w : World) :
  plain (n_interface nativeNode) = true ->
  exists styles,
    c_children (fst (decorate h nativeNode clonedNode w))
    = (c_children clonedNode ++ styles)%list
    /\ (length styles <= 2)%nat /\ Forall (tagged "style") styles.
Proof.
  intros Hplain. unfold decorate.
  destruct (isInstanceOfElement (c_interface clonedNode) Element).
  - destruct (clonePseudoElements_children h nativeNode
                (cloneCSSStyle nativeNode clonedNode) w) as (styles & Hc & Hl & Hf).
    destruct (clonePseudoElements h nativeNode _ w) as [c1 w1].
    simpl in Hc. rewrite cloneCSSStyle_children in Hc.
    exists styles. split; [|auto].
    unfold cloneSelectValue, cloneInputValue.
    destruct (n_interface nativeNode); try discriminate; simpl; assumption.
  - exists []. rewrite app_nil_r.
    repeat split; [simpl; lia | constructor].
Qed.

Lemma ensureSVGSymbols_children (h : Host) cn (clone : Clone) (options : Options)
    (w : World) (final : Clone) (w' : World) :
  ensureSVGSymbols h cn clone options w = (Normal final, w') ->
  exists containers,
    c_children final = (c_children clone ++ containers)%list
    /\ (length containers <= 1)%nat /\ Forall (tagged "svg") containers.
Proof.
  unfold ensureSVGSymbols.
  destruct (querySelectorAll_use clone) as [|use uses].
  - intros [= <- <-]. exists []. rewrite app_nil_r. auto.
  - unfold bind.
    destruct (collect_definitions h cn clone options (use :: uses) [] w)
      as [[defs | error |] w1]; try discriminate.
    destruct (map snd defs) as [|node nodes].
    + intros [= <- <-]. exists []. rewrite app_nil_r. auto.
    + intros [= <- <-]. eexists [_]. split; [reflexivity|].
      split; [simpl; lia|]. constructor; [reflexivity | constructor].
Qed.

(** *** More fuel changes no result *)

Lemma bind_result {A B : Type} (x : M A) (k : A -> M B) (w : World)
    (r : completion B) (w' : World) :
  (x <- x ;; k x) w = (r, w') -> r <> Diverged ->
  (exists a w1, x w = (Normal a, w1) /\ k a w1 = (r, w'))
  \/ (exists error, x w = (Throw error, w') /\ r = Throw error).
Proof.
  unfold bind. destruct (x w) as [[a | error |] w1]; intros H Hr.
  - left. eauto.
  - injection H as <- <-. right. eauto.
  - injection H as <- <-. congruence.
Qed.

Section Refinement.
Variable h : Host.
Variables f g : Node -> Options -> bool -> M (option Clone).
Hypothesis Hfg : refines f g.

Lemma cloneIFrameElement_refines (iframe : Node) (w : World)
    (r : completion Clone) (w' : World) :
  cloneIFrameElement f iframe w = (r, w') -> r <> Diverged ->
  cloneIFrameElement g iframe w = (r, w').
Proof.
  unfold cloneIFrameElement, catch.
  destruct (contentDocument_body iframe) as [body|]; [|auto].
  unfold bind.
  destruct (f body no_options true w) as [[cloned | error |] w1] eqn:E.
  - rewrite (Hfg _ _ _ _ _ _ E) by discriminate. auto.
  - rewrite (Hfg _ _ _ _ _ _ E) by discriminate. auto.
  - intros [= <- <-]. congruence.
Qed.

Lemma cloneSingleNode_refines (node : Node) (options : Options) (w : World)
    (r : completion Clone) (w' : World) :
  cloneSingleNode h f node options w = (r, w') -> r <> Diverged ->
  cloneSingleNode h g node options w = (r, w').
Proof.
  unfold cloneSingleNode.
  destruct (isInstanceOfElement _ HTMLCanvasElement); [auto|].
  destruct (isInstanceOfElement _ HTMLVideoElement); [auto|].
  destruct (isInstanceOfElement _ HTMLIFrameElement); [|auto].
  apply cloneIFrameElement_refines.
Qed.

Lemma clone_each_refines (options : Options) (children : list Node)
    (clonedNode : Clone) (w : World) (r : completion Clone) (w' : World) :
  clone_each (fun child => f child options false) children clonedNode w = (r, w') ->
  r <> Diverged ->
  clone_each (fun child => g child options false) children clonedNode w = (r, w').
Proof.
  revert clonedNode w; induction children as [|child rest IH];
    intros clonedNode w H Hr; [exact H|].
  cbn [clone_each] in *.
  destruct (bind_result _ _ _ _ _ H Hr) as [(a & w1 & Ha & Hk) | (error & Ha & ->)].
  - unfold bind. rewrite (Hfg _ _ _ _ _ _ Ha) by discriminate. now apply IH.
  - unfold bind. rewrite (Hfg _ _ _ _ _ _ Ha) by discriminate. reflexivity.
Qed.

Lemma cloneChildren_refines (nativeNode : Node) (clonedNode : Clone)
    (options : Options) (w : World) (r : completion Clone) (w' : World) :
  cloneChildren f nativeNode clonedNode options w = (r, w') -> r <> Diverged ->
  cloneChildren g nativeNode clonedNode options w = (r, w').
Proof.
  unfold cloneChildren. destruct (_ || _); [auto|]. apply clone_each_refines.
Qed.

Lemma collect_definitions_refines (clone : Clone) (options : Options)
    (uses : list Clone) (processedDefs : list (string * Clone)) (w : World)
    (r : completion (list (string * Clone))) (w' : World) :
  collect_definitions h f clone options uses processedDefs w = (r, w') ->
  r <> Diverged ->
  collect_definitions h g clone options uses processedDefs w = (r, w').
Proof.
  revert processedDefs w; induction uses as [|use rest IH];
    intros processedDefs w H Hr; [exact H|].
  cbn [collect_definitions] in *.
  destruct (getAttribute use "xlink:href") as [id|]; [|now apply IH].
  destruct (truthy id); [|now apply IH].
  unfold bind, of_completion in *.
  destruct (clone_querySelector h clone id) as [exist | error |]; [|exact H|exact H].
  destruct (document_querySelector h id) as [definition | error |];
    [|exact H|exact H].
  destruct exist; [now apply IH|].
  destruct definition as [def|]; [|now apply IH].
  destruct (existsb _ processedDefs); [now apply IH|].
  destruct (f def options true w) as [[cloned | error |] w1] eqn:E.
  - rewrite (Hfg _ _ _ _ _ _ E) by discriminate. now apply IH.
  - rewrite (Hfg _ _ _ _ _ _ E) by discriminate. exact H.
  - injection H as <- <-. congruence.
Qed.

Lemma ensureSVGSymbols_refines (clone : Clone) (options : Options) (w : World)
    (r : completion Clone) (w' : World) :
  ensureSVGSymbols h f clone options w = (r, w') -> r <> Diverged ->
  ensureSVGSymbols h g clone options w = (r, w').
Proof.
  unfold ensureSVGSymbols.
  destruct (querySelectorAll_use clone) as [|use uses]; [auto|].
  intros H Hr.
  destruct (bind_result _ _ _ _ _ H Hr) as [(a & w1 & Ha & Hk) | (error & Ha & ->)];
    unfold bind;
    rewrite (collect_definitions_refines _ _ _ _ _ _ _ Ha) by discriminate;
    auto.
Qed.
End Refinement.

Lemma cloneNode_more_fuel (h : Host) (fuel : nat) :
  refines (cloneNode h fuel) (cloneNode h (S fuel)).
Proof.
  induction fuel as [|fuel IH]; intros node options isRoot w r w' H Hr.
  - cbn [cloneNode] in *. destruct (negb isRoot && _); [exact H|].
    injection H as <- <-. congruence.
  - remember (S fuel) as fuel1 eqn:Ef. cbn [cloneNode]. rewrite Ef in *.
    cbn [cloneNode] in H.
    destruct (negb isRoot && _); [exact H|].
    destruct (bind_result _ _ _ _ _ H Hr) as [(c1 & w1 & H1 & K1) | (e & H1 & ->)];
      unfold bind at 1; rewrite (cloneSingleNode_refines h _ _ IH _ _ _ _ _ H1)
        by discriminate; [|reflexivity].
    destruct (bind_result _ _ _ _ _ K1 Hr) as [(c2 & w2 & H2 & K2) | (e & H2 & ->)];
      unfold bind at 1; rewrite (cloneChildren_refines _ _ IH _ _ _ _ _ _ H2)
        by discriminate; [|reflexivity].
    destruct (bind_result _ _ _ _ _ K2 Hr) as [(c3 & w3 & H3 & K3) | (e & H3 & ->)];
      unfold bind at 1; rewrite H3; [|reflexivity].
    destruct (bind_result _ _ _ _ _ K3 Hr) as [(c4 & w4 & H4 & K4) | (e & H4 & ->)];
      unfold bind at 1; rewrite (ensureSVGSymbols_refines h _ _ IH _ _ _ _ _ H4)
        by discriminate; [exact K4 | reflexivity].
Qed.

(** A result reached within some depth is the result at every larger
    depth: the bound only cuts off what does not end within it. *)
Lemma cloneNode_fuel_monotone (h : Host) (fuel fuel' : nat) :
  (fuel <= fuel')%nat -> refines (cloneNode h fuel) (cloneNode h fuel').
Proof.
  induction 1 as [|fuel' Hle IH].
  - intros node options isRoot w r w' H _. exact H.
  - intros node options isRoot w r w' H Hr.
    apply cloneNode_more_fuel; [|exact Hr]. now apply IH.
Qed.

(** A root is cloned whatever the filter says of it: the result of
    [cloneNode] for a root is never [null]. *)
Lemma cloneNode_root_not_null (h : Host) (fuel : nat) (node : Node)
    (options : Options) (w w' : World) :
  cloneNode h fuel node options true w <> (Normal None, w').
Proof.
  destruct fuel as [|fuel]; [discriminate|].
  rewrite cloneNode_root. unfold bind, ret, lift.
  destruct (cloneSingleNode _ _ _ _ w) as [[c1| |] w1]; try discriminate.
  destruct (cloneChildren _ _ _ _ w1) as [[c2| |] w2]; try discriminate.
  destruct (decorate h node c2 w2) as [c3 w3].
  destruct (ensureSVGSymbols _ _ _ _ w3) as [[c4| |] w4]; discriminate.
Qed.


(** The nodes [cloneChildren] walks are the node's own child nodes when
    the node is no slot, no frame and hosts no shadow tree. *)
Lemma source_children_own (node : Node) :
  plain (n_interface node) = true ->
  isSlotElement node = false -> shadowRoot node = None ->
  source_children node = childNodes node.
Proof.
  intros Hplain Hslot Hshadow. unfold source_children.
  rewrite Hslot, Hshadow, toArray_id.
  destruct (n_interface node); try discriminate Hplain; reflexivity.
Qed.

(** The clone of a root whose walked children are [A, B, C], of which the
    filter takes out [B]. *)
Lemma cloneNode_walked_children (h : Host) (fuel : nat)
    (options : Options) (f : Node -> bool) (node A B C : Node)
    (a c final : Clone) (w0 w1 w2 w4 : World) :
  filter options = Some f ->
  f B = false ->
  plain (n_interface node) = true ->
  source_children node = [A; B; C] ->
  cloneNode h fuel A options false w0 = (Normal (Some a), w1) ->
  cloneNode h fuel C options false w1 = (Normal (Some c), w2) ->
  (let decorated := decorate h node (set_children [a; c] (shallow node)) w2 in
   ensureSVGSymbols h (cloneNode h fuel) (fst decorated) options (snd decorated)
   = (Normal final, w4)) ->
  (forall fuel', (S fuel <= fuel')%nat ->
     cloneNode h fuel' node options true w0 = (Normal (Some final), w4))
  /\ exists styles containers,
       c_children final = ([a; c] ++ styles ++ containers)%list
       /\ (length styles <= 2)%nat /\ Forall (tagged "style") styles
       /\ (length containers <= 1)%nat /\ Forall (tagged "svg") containers.
Proof.
  intros Hf HfB Hplain Hchildren HA HC Hsym.
  destruct (decorate_children h node (set_children [a; c] (shallow node)) w2 Hplain)
    as (styles & Hch & Hlen & Hst).
  cbv zeta in Hsym.
  destruct (ensureSVGSymbols_children _ _ _ _ _ _ _ Hsym)
    as (containers & Hch' & Hlen' & Hsvg).
  split.
  - intros fuel' Hfuel.
    apply (cloneNode_fuel_monotone h (S fuel) fuel' Hfuel); [|discriminate].
    rewrite cloneNode_root. unfold bind at 1.
    rewrite cloneSingleNode_plain by assumption. unfold ret at 1.
    unfold bind at 1. unfold cloneChildren. rewrite Hchildren.
    replace ((length [A; B; C] =? 0)%nat) with false by reflexivity.
    replace (isInstanceOfElement (n_interface node) HTMLVideoElement) with false
      by (destruct (n_interface node); try discriminate; reflexivity).
    cbn [orb clone_each]. unfold bind at 1. rewrite HA.
    unfold bind at 1.
    rewrite (cloneNode_filtered h fuel B options f w1 Hf HfB).
    unfold bind at 1. rewrite HC. unfold ret at 1.
    change (appendChild c (appendChild a (shallow node)))
      with (set_children [a; c] (shallow node)).
    unfold bind at 1, lift.
    destruct (decorate h node (set_children [a; c] (shallow node)) w2)
      as [decorated w3].
    unfold bind at 1. cbn [fst snd] in Hsym. rewrite Hsym. reflexivity.
  - exists styles, containers. rewrite Hch', Hch, <- app_assoc. auto.
Qed.



Example box_children :
  c_children
    (Samples.cloned
       (cloneNode Samples.host 2 Samples.box Samples.filtering true initial))
  = [Samples.cloned
       (cloneNode Samples.host 1 Samples.A Samples.filtering false initial);
     Samples.cloned
       (cloneNode Samples.host 1 Samples.C Samples.filtering false initial)].
Proof. vm_compute. reflexivity. Qed.

(* ===================================================================== *)
(** * Further properties *)
(* ===================================================================== *)

Import Util Dataurl EmbedResources Mimes ClonePseudos CloneNode Classes.

(** ** More on texts *)

Lemma str_append_nil (s : string) : s ++ EmptyString = s.
Proof. induction s as [|c s IH]; simpl; [reflexivity | now rewrite IH]. Qed.

Lemma str_take_all (s : string) : take (String.length s) s = s.
Proof. induction s as [|c s IH]; simpl; [reflexivity | now rewrite IH]. Qed.

Lemma str_append_assoc (s t u : string) : (s ++ t) ++ u = s ++ t ++ u.
Proof. induction s as [|c s IH]; simpl; [reflexivity | now rewrite IH]. Qed.

Lemma skip_prefix_append (s t : string) : skip_prefix false s (s ++ t) = Some t.
Proof.
  induction s as [|c s IH]; simpl; [reflexivity|].
  unfold ascii_eq_case. now rewrite Ascii.eqb_refl.
Qed.

Lemma all_chars_impl (p q : ascii -> bool) (s : string) :
  (forall c, p c = true -> q c = true) ->
  all_chars p s = true -> all_chars q s = true.
Proof.
  intros Hpq. induction s as [|c s IH]; simpl; [reflexivity|].
  intros H. apply andb_prop in H as [Hc Hs]. now rewrite (Hpq _ Hc), IH.
Qed.

Lemma drop_within (p : ascii -> bool) (v t : string) (n : nat) :
  all_chars p v = true -> (n < String.length v)%nat ->
  exists c rest, drop n (v ++ t) = String c rest /\ p c = true.
Proof.
  revert n; induction v as [|a v IH]; intros n Hv Hn; [simpl in Hn; lia|].
  simpl in Hv. apply andb_prop in Hv as [Ha Hv].
  destruct n as [|n]; [simpl; eauto|].
  simpl. apply IH; [assumption | simpl in Hn; lia].
Qed.

(** ** The equations of the matcher *)

Section Equations.
Context {R : Type}.
Variable icase : bool.
Implicit Types (i : nat) (s : string) (cs : caps)
               (k : nat -> string -> caps -> option R).

Lemma m_Seq r1 r2 i s cs k :
  m icase (Seq r1 r2) i s cs k
  = m icase r1 i s cs (fun j t cs' => m icase r2 j t cs' k).
Proof. reflexivity. Qed.

Lemma m_Alt r1 r2 i s cs k :
  m icase (Alt r1 r2) i s cs k
  = match m icase r1 i s cs k with
    | Some x => Some x
    | None => m icase r2 i s cs k
    end.
Proof. reflexivity. Qed.

Lemma m_Group n r i s cs k :
  m icase (Group n r) i s cs k
  = m icase r i s cs (fun j t cs' => k j t ((n, take (j - i) s) :: cs')).
Proof. reflexivity. Qed.

Lemma m_Eps i s cs k : m icase Eps i s cs k = k i s cs.
Proof. reflexivity. Qed.

Lemma m_Chr cl i a s cs k :
  m icase (Chr cl) i (String a s) cs k
  = if class_match icase cl a then k (S i) s cs else None.
Proof. reflexivity. Qed.

Lemma m_Chr_nil cl i cs k : m icase (Chr cl) i EmptyString cs k = None.
Proof. reflexivity. Qed.

Lemma m_Backref n i s cs k :
  m icase (Backref n) i s cs k
  = match get_cap n cs with
    | None => k i s cs
    | Some w =>
        match skip_prefix icase w s with
        | Some t => k (i + String.length w)%nat t cs
        | None => None
        end
    end.
Proof. reflexivity. Qed.

Lemma m_Bol i s cs k :
  m icase Bol i s cs k = if (i =? 0)%nat then k i s cs else None.
Proof. reflexivity. Qed.

Lemma m_Eol i s cs k :
  m icase Eol i s cs k = match s with EmptyString => k i s cs | _ => None end.
Proof. reflexivity. Qed.
End Equations.

(** A class without the [i] flag. *)
Lemma class_match_exact (cl : cclass) (c : ascii) :
  class_match false cl c
  = match cl with
    | CNoneOf _ => negb (class_base cl c)
    | _ => class_base cl c
    end.
Proof. unfold class_match. cbn [andb]. rewrite orb_false_r. reflexivity. Qed.

(** ** Scanning a run of characters *)

Section Runs.
Context {R : Type}.
Variable icase : bool.
Variable cl : cclass.

(** A lazy star over a class stops at the first position where what
    follows the star matches. *)
Lemma star_lazy_scan (v t : string) (i : nat) (cs : caps)
    (k : nat -> string -> caps -> option R) (x : R) :
  all_chars (class_match icase cl) v = true ->
  (forall n, (n < String.length v)%nat ->
             k (i + n)%nat (drop n (v ++ t)) cs = None) ->
  k (i + String.length v)%nat t cs = Some x ->
  m icase (Star false (Chr cl)) i (v ++ t) cs k = Some x.
Proof.
  intros Hv Hk Hend. cbn [m].
  assert (Hfuel : (String.length v <= String.length (v ++ t))%nat)
    by (rewrite str_length_append; lia).
  revert Hfuel. generalize (String.length (v ++ t)). intros fuel.
  revert i fuel Hv Hk Hend.
  induction v as [|a v IH]; intros i fuel Hv Hk Hend Hfuel.
  - simpl in *. rewrite Nat.add_0_r in Hend.
    destruct fuel; rewrite Hend; reflexivity.
  - simpl in Hv. apply andb_prop in Hv as [Ha Hv].
    destruct fuel as [|fuel]; [simpl in Hfuel; lia|].
    pose proof (Hk 0%nat ltac:(simpl; lia)) as H0.
    rewrite Nat.add_0_r in H0. cbn [drop] in H0.
    change (String a v ++ t) with (String a (v ++ t)) in *.
    rewrite H0. cbn [m]. rewrite Ha.
    replace (S i =? i)%nat with false by (symmetry; apply Nat.eqb_neq; lia).
    apply IH; auto.
    + intros n Hn. specialize (Hk (S n) ltac:(simpl; lia)).
      rewrite <- Nat.add_succ_comm in Hk. exact Hk.
    + simpl in Hend. rewrite <- Nat.add_succ_comm in Hend. exact Hend.
    + simpl in Hfuel. lia.
Qed.

(** A greedy star over a class runs to the end of the run; when what
    follows the star matches there, that is the match. *)
Lemma star_greedy_scan (v t : string) (i : nat) (cs : caps)
    (k : nat -> string -> caps -> option R) (x : R) :
  all_chars (class_match icase cl) v = true ->
  match t with
  | String c _ => class_match icase cl c = false
  | EmptyString => True
  end ->
  k (i + String.length v)%nat t cs = Some x ->
  m icase (Star true (Chr cl)) i (v ++ t) cs k = Some x.
Proof.
  intros Hv Ht Hend. cbn [m].
  assert (Hfuel : (String.length v <= String.length (v ++ t))%nat)
    by (rewrite str_length_append; lia).
  revert Hfuel. generalize (String.length (v ++ t)). intros fuel.
  revert i fuel Hv Hend.
  induction v as [|a v IH]; intros i fuel Hv Hend Hfuel.
  - simpl in *. rewrite Nat.add_0_r in Hend.
    destruct fuel as [|fuel]; [now rewrite Hend|].
    cbn [m]. destruct t as [|c t]; [now rewrite Hend|].
    rewrite Ht. now rewrite Hend.
  - simpl in Hv. apply andb_prop in Hv as [Ha Hv].
    destruct fuel as [|fuel]; [simpl in Hfuel; lia|].
    change (String a v ++ t) with (String a (v ++ t)) in *.
    cbn [m]. rewrite Ha.
    replace (S i =? i)%nat with false by (symmetry; apply Nat.eqb_neq; lia).
    rewrite (IH (S i) fuel); auto.
    + simpl in Hend. rewrite <- Nat.add_succ_comm in Hend. exact Hend.
    + simpl in Hfuel. lia.
Qed.

(** A star over a class fails when what follows it fails everywhere in
    the run and just behind it. *)
Lemma star_fails (greedy : bool) (v t : string) (i : nat) (cs : caps)
    (k : nat -> string -> caps -> option R) :
  all_chars (class_match icase cl) v = true ->
  match t with
  | String c _ => class_match icase cl c = false
  | EmptyString => True
  end ->
  (forall n, (n <= String.length v)%nat ->
             k (i + n)%nat (drop n (v ++ t)) cs = None) ->
  m icase (Star greedy (Chr cl)) i (v ++ t) cs k = None.
Proof.
  intros Hv Ht Hk. cbn [m].
  generalize (String.length (v ++ t)). intros fuel.
  revert i fuel Hv Hk.
  induction v as [|a v IH]; intros i fuel Hv Hk.
  - pose proof (Hk 0%nat ltac:(simpl; lia)) as H0.
    rewrite Nat.add_0_r in H0. cbn [drop] in H0. simpl in *.
    destruct fuel as [|fuel]; [destruct greedy; now rewrite H0|].
    cbn [m]. destruct t as [|c t]; [destruct greedy; now rewrite H0|].
    rewrite Ht. destruct greedy; now rewrite H0.
  - simpl in Hv. apply andb_prop in Hv as [Ha Hv].
    pose proof (Hk 0%nat ltac:(simpl; lia)) as H0.
    rewrite Nat.add_0_r in H0. cbn [drop] in H0.
    change (String a v ++ t) with (String a (v ++ t)) in *.
    destruct fuel as [|fuel]; [destruct greedy; now rewrite H0|].
    cbn [m]. rewrite Ha.
    replace (S i =? i)%nat with false by (symmetry; apply Nat.eqb_neq; lia).
    rewrite (IH (S i) fuel); auto.
    + destruct greedy; now rewrite H0.
    + intros n Hn. specialize (Hk (S n) ltac:(simpl; lia)).
      rewrite <- Nat.add_succ_comm in Hk. exact Hk.
Qed.
End Runs.

(** A run of pattern characters, without the [i] flag, matches the text
    itself. *)
Lemma m_Str {R : Type} (p : string) (i : nat) (s : string) (cs : caps)
    (k : nat -> string -> caps -> option R) :
  m false (Str p) i s cs k
  = match skip_prefix false p s with
    | Some t => k (i + String.length p)%nat t cs
    | None => None
    end.
Proof.
  revert i s; induction p as [|a p IH]; intros i s.
  - simpl. now rewrite Nat.add_0_r.
  - assert (Hone : forall (k' : nat -> string -> caps -> option R),
               m false (Lit a) i s cs k'
               = match s with
                 | String b s' => if ascii_eq_case false a b then k' (S i) s' cs else None
                 | EmptyString => None
                 end).
    { intros k'. unfold Lit, ascii_eq_case. cbn -[Ascii.eqb].
      destruct s as [|b s']; reflexivity. }
    destruct p as [|a' p'].
    + cbn [Str]. rewrite Hone. cbn [skip_prefix String.length].
      destruct s as [|b s']; [reflexivity|].
      destruct (ascii_eq_case false a b); [|reflexivity].
      now rewrite Nat.add_1_r.
    + change (Str (String a (String a' p'))) with (Seq (Lit a) (Str (String a' p'))).
      cbn [m]. rewrite Hone.
      destruct s as [|b s']; [reflexivity|].
      cbn [skip_prefix]. destruct (ascii_eq_case false a b); [|reflexivity].
      rewrite IH. cbn [String.length].
      now replace (i + S (S (String.length p')))%nat
        with (S i + S (String.length p'))%nat by lia.
Qed.

(** ** Searching *)

Lemma search_from_fails (icase : bool) (r : re) (i : nat) (s : string) :
  (forall n, (n <= String.length s)%nat ->
             match_at icase r (i + n) (drop n s) = None) ->
  search_from icase r i s = None.
Proof.
  revert i; induction s as [|c s IH]; intros i H; cbn [search_from].
  - pose proof (H 0%nat ltac:(simpl; lia)) as H0.
    rewrite Nat.add_0_r in H0. simpl in H0. now rewrite H0.
  - pose proof (H 0%nat ltac:(simpl; lia)) as H0.
    rewrite Nat.add_0_r in H0. cbn [drop] in H0. rewrite H0.
    apply IH. intros n Hn. specialize (H (S n) ltac:(simpl; lia)).
    now rewrite <- Nat.add_succ_comm in H.
Qed.

Lemma search_from_none (icase : bool) (r : re) (i : nat) (s : string) :
  search_from icase r i s = None ->
  forall n, (n <= String.length s)%nat ->
            match_at icase r (i + n) (drop n s) = None.
Proof.
  revert i; induction s as [|c s IH]; intros i; cbn [search_from].
  - destruct (match_at icase r i EmptyString) eqn:E; [discriminate|].
    intros _ n Hn. simpl in Hn. replace n with 0%nat by lia.
    now rewrite Nat.add_0_r.
  - destruct (match_at icase r i (String c s)) eqn:E; [discriminate|].
    intros H [|n] Hn.
    + now rewrite Nat.add_0_r.
    + cbn [drop]. rewrite <- Nat.add_succ_comm. apply IH; [assumption|].
      simpl in Hn. lia.
Qed.

(** The leftmost match is the first position where the pattern
    matches. *)
Lemma search_from_first (icase : bool) (r : re) (i n : nat) (s : string)
    (mr : match_result) :
  (forall n', (n' < n)%nat -> match_at icase r (i + n') (drop n' s) = None) ->
  (n <= String.length s)%nat ->
  match_at icase r (i + n) (drop n s) = Some mr ->
  search_from icase r i s = Some mr.
Proof.
  revert i s; induction n as [|n IH]; intros i s Hbefore Hlen Hat.
  - rewrite Nat.add_0_r in Hat. cbn [drop] in Hat.
    destruct s; cbn [search_from]; now rewrite Hat.
  - destruct s as [|c s]; [simpl in Hlen; lia|].
    cbn [search_from].
    pose proof (Hbefore 0%nat ltac:(lia)) as H0.
    rewrite Nat.add_0_r in H0. cbn [drop] in H0. rewrite H0.
    apply IH.
    + intros n' Hn'. specialize (Hbefore (S n') ltac:(lia)).
      now rewrite <- Nat.add_succ_comm in Hbefore.
    + simpl in Hlen. lia.
    + cbn [drop] in Hat. now rewrite <- Nat.add_succ_comm in Hat.
Qed.

Lemma search_from_here (icase : bool) (r : re) (i : nat) (s : string)
    (mr : match_result) :
  match_at icase r i s = Some mr -> search_from icase r i s = Some mr.
Proof. intros H. destruct s; cbn [search_from]; now rewrite H. Qed.

(** A text that does not occur has no occurrence at any position. *)
Lemma contains_false (needle s : string) :
  contains needle s = false ->
  forall n, (n <= String.length s)%nat ->
            skip_prefix false needle (drop n s) = None.
Proof.
  unfold contains, test. cbn [ignoreCase pattern].
  destruct (search_from false (Str needle) 0 s) eqn:E; [discriminate|].
  intros _ n Hn. pose proof (search_from_none _ _ _ _ E n Hn) as H.
  unfold match_at in H. rewrite m_Str in H.
  destruct (skip_prefix false needle (drop n s)); [discriminate | reflexivity].
Qed.

(** A pattern that begins with a run of pattern characters matches only
    where the run occurs. *)
Lemma search_from_needs_prefix (p : string) (r : re) (i : nat) (s : string) :
  contains p s = false ->
  search_from false (Seq (Str p) r) i s = None.
Proof.
  intros H. apply search_from_fails. intros n Hn.
  unfold match_at. cbn [m]. rewrite m_Str.
  now rewrite (contains_false _ _ H n Hn).
Qed.

(** ** src/embed-resources.js: the pattern of a URL *)

Lemma match_at_escaped (i : nat) (c : ascii) (s : string) :
  match_at false (pattern escapeRegex) i (String c s)
  = if ascii_in c escaped_characters
    then Some (MatchResult i (S i) (String c EmptyString)
                           [(1%nat, String c EmptyString)])
    else None.
Proof.
  unfold match_at, escapeRegex. cbn [pattern m].
  unfold class_match. cbn [class_base andb]. rewrite orb_false_r.
  destruct (ascii_in c escaped_characters); [|reflexivity].
  replace (S i - i)%nat with 1%nat by lia. reflexivity.
Qed.

Lemma search_escaped (i : nat) (s : string) :
  match search_from false (pattern escapeRegex) i s with
  | None => all_chars unescaped s = true
  | Some mr =>
      exists pre c post,
        s = pre ++ String c post /\ all_chars unescaped pre = true
        /\ ascii_in c escaped_characters = true
        /\ mr = MatchResult (i + String.length pre) (S (i + String.length pre))
                            (String c EmptyString) [(1%nat, String c EmptyString)]
  end.
Proof.
  revert i; induction s as [|c s IH]; intros i.
  - reflexivity.
  - cbn [search_from]. rewrite match_at_escaped.
    destruct (ascii_in c escaped_characters) eqn:E.
    + exists EmptyString, c, s. simpl. rewrite Nat.add_0_r. auto.
    + specialize (IH (S i)).
      destruct (search_from false (pattern escapeRegex) (S i) s) as [mr|].
      * destruct IH as (pre & c' & post & -> & Hpre & Hc & ->).
        exists (String c pre), c', post. simpl. unfold unescaped at 1. rewrite E.
        simpl. rewrite <- !Nat.add_succ_comm. auto.
      * simpl. unfold unescaped at 1. now rewrite E.
Qed.

(** Every character behind a backslash in the escaped text is one the
    constructor takes as itself there, and no other character of the
    text has a meaning of its own. *)
Lemma unescaped_plain (c : ascii) :
  unescaped c = true -> is_syntax_character c = false /\ Ascii.eqb c "\" = false.
Proof.
  unfold unescaped, is_syntax_character, escaped_characters, ascii_in.
  cbn [existsb]. intros H. apply negb_true_iff in H.
  repeat (apply orb_false_elim in H as [? H]).
  split; [|assumption].
  repeat (apply orb_false_intro; [assumption|]). reflexivity.
Qed.

Lemma escaped_identity (c : ascii) :
  ascii_in c escaped_characters = true ->
  is_syntax_character c || Ascii.eqb c "/" = true.
Proof.
  unfold is_syntax_character, escaped_characters, ascii_in.
  cbn [existsb]. intros H.
  repeat (apply orb_prop in H as [H | H]; [rewrite H; now rewrite ?orb_true_r|]).
  discriminate.
Qed.

Lemma pattern_characters_plain (pre rest : string) :
  all_chars unescaped pre = true ->
  pattern_characters (pre ++ rest) = (String.append pre) <$> pattern_characters rest.
Proof.
  induction pre as [|c pre IH]; intros H.
  - simpl. now destruct (pattern_characters rest).
  - simpl in H. apply andb_prop in H as [Hc Hpre].
    destruct (unescaped_plain _ Hc) as [Hs Hb].
    change (String c pre ++ rest) with (String c (pre ++ rest)).
    cbn [pattern_characters]. rewrite Hb, Hs, (IH Hpre).
    now destruct (pattern_characters rest).
Qed.

Lemma escape_read (fuel i : nat) (s str : string) :
  (String.length s < fuel)%nat ->
  pattern_characters
    (fst (replace_from escapeRegex
            (fun (_ : unit) mr =>
               (substitution (groups (pattern escapeRegex)) str mr "\$1", tt))
            fuel i s tt))
  = Some s.
Proof.
  revert i s; induction fuel as [|fuel IH]; intros i s Hlen; [lia|].
  rewrite replace_from_S. pose proof (search_escaped i s) as Hs.
  change (ignoreCase escapeRegex) with false.
  destruct (search_from false (pattern escapeRegex) i s) as [mr|].
  - destruct Hs as (pre & c & post & -> & Hpre & Hc & ->).
    cbn [m_start m_end].
    replace (S (i + String.length pre) =? i + String.length pre)%nat with false
      by (symmetry; apply Nat.eqb_neq; lia).
    replace (i + String.length pre - i)%nat with (String.length pre) by lia.
    replace (S (i + String.length pre) - i)%nat with (S (String.length pre)) by lia.
    rewrite str_take_append.
    replace (drop (S (String.length pre)) (pre ++ String c post)) with post.
    2:{ clear. induction pre; simpl; auto. }
    specialize (IH (S (i + String.length pre)) post).
    destruct (replace_from _ _ fuel _ post tt) as [out st2]. cbn [fst] in *.
    rewrite pattern_characters_plain by assumption.
    change (substitution (groups (pattern escapeRegex)) str
              {| m_start := i + String.length pre;
                 m_end := S (i + String.length pre);
                 m_text := String c EmptyString;
                 m_caps := [(1%nat, String c EmptyString)] |} "\$1")
      with (String "\" (String c EmptyString)).
    change ((String "\" (String c EmptyString)) ++ out) with (String "\" (String c out)).
    cbn [pattern_characters]. change (Ascii.eqb "\" "\") with true. cbv iota.
    rewrite (escaped_identity _ Hc). rewrite IH.
    + reflexivity.
    + rewrite str_length_append in Hlen. simpl in Hlen. lia.
  - cbn [fst]. rewrite <- (str_append_nil s) at 1.
    rewrite pattern_characters_plain by assumption. simpl.
    now rewrite str_append_nil.
Qed.

Lemma pattern_characters_escape (url : string) :
  pattern_characters (escape url) = Some url.
Proof.
  unfold escape, replace_all_template, replace_all_st. apply escape_read. lia.
Qed.

Lemma toRegex_pattern (url : string) :
  toRegex url
  = Some (Regex (Seqs [Group 1 (Seq (Str "url(") (Opt (Chr (COneOf quotes))));
                       Group 2 (Str url);
                       Group 3 (Seq (Opt (Chr (COneOf quotes))) (Lit ")"))])
                false).
Proof. unfold toRegex. now rewrite pattern_characters_escape. Qed.

(** X1.  [toRegex] escapes every character that has a meaning in a
    pattern: whatever the URL holds, the expression it builds has the URL
    itself, character by character, between the parenthesis that holds
    [url(] and the one that holds [)]. *)
Theorem toRegex_literal (url : string) :
  toRegex url
  = Some (Regex (Seqs [Group 1 (Seq (Str "url(") (Opt (Chr (COneOf quotes))));
                       Group 2 (Str url);
                       Group 3 (Seq (Opt (Chr (COneOf quotes))) (Lit ")"))])
                false).
Proof. unfold toRegex. now rewrite pattern_characters_escape. Qed.

(** ** src/embed-resources.js: texts without a reference *)

Lemma shouldEmbed_needs_url (css : string) :
  contains "url(" css = false -> shouldEmbed css = false.
Proof.
  intros H. unfold shouldEmbed, search.
  change (pattern URL_REGEX) with
    (Seq (Str "url(")
         (Seqs [Group 1 (Opt (Chr (COneOf quotes)));
                Group 2 (Plus false (Chr (CNoneOf quotes)));
                Backref 1; Lit ")"])).
  cbn [ignoreCase]. now rewrite search_from_needs_prefix.
Qed.

(** X2.  A text in which [url(] does not occur comes back from
    [embedResources] as it is: nothing is fetched, the cache and the
    position of [URL_WITH_FORMAT_REGEX] stay as they were. *)
Theorem embedResources_without_url (h : Host) (win : Window) (cssText : string)
    (baseUrl : option string) (options : Options) (lastIndex : nat) (w : World) :
  contains "url(" cssText = false ->
  embedResources h win cssText baseUrl options lastIndex w
  = (Normal (cssText, lastIndex), w).
Proof.
  intros H. unfold embedResources. now rewrite (shouldEmbed_needs_url _ H).
Qed.

Lemma embedResources_without_url_witness :
  embedResources Samples.host
    (mkWindow "http:" (fun _ url => url) None None (fun _ => 0%Q) (fun _ => 0%Q))
    "color: red; background: none" (Some "http://example.com/") no_options 7 initial
  = (Normal ("color: red; background: none", 7%nat), initial).
Proof. apply embedResources_without_url. reflexivity. Defined.

(** ** src/embed-resources.js: no failure gets out *)

Lemma embed_world (h : Host) (win : Window) (cssText resourceURL : string)
    (options : Options) (w : World) :
  exists css,
    embed h win cssText resourceURL None options None w
    = (Normal css,
       snd (resourceToDataURL h resourceURL (Mimes.getMimeType resourceURL) options w)).
Proof.
  unfold embed, catch, bind.
  destruct (resourceToDataURL_normal h resourceURL (Mimes.getMimeType resourceURL)
              options w) as (d & w' & ->).
  rewrite toRegex_pattern. cbn [snd]. unfold ret. eauto.
Qed.

Lemma embed_normal (h : Host) (win : Window) (cssText resourceURL : string)
    (baseURL : option string) (options : Options) (w : World) :
  exists css w',
    embed h win cssText resourceURL baseURL options None w = (Normal css, w').
Proof.
  unfold embed, catch, bind.
  match goal with
  | |- context [resourceToDataURL h ?u ?ct options w] =>
      destruct (resourceToDataURL_normal h u ct options w) as (d & w' & ->)
  end.
  rewrite toRegex_pattern. unfold ret. eauto.
Qed.

Lemma embed_each_normal (h : Host) (win : Window) (urls : list string)
    (baseUrl : option string) (options : Options) (css : string) (w : World) :
  exists css' w',
    embed_each h win urls baseUrl options css w = (Normal css', w').
Proof.
  revert css w; induction urls as [|url urls IH]; intros css w.
  - simpl. unfold ret. eauto.
  - cbn [embed_each]. unfold bind.
    destruct (embed_normal h win css url baseUrl options w) as (css1 & w1 & ->).
    apply IH.
Qed.

(** X3.  [embedResources] never fails: whatever the text, the base URL,
    the options, the state and the answers of the network, it returns a
    text. *)
Theorem embedResources_never_fails (h : Host) (win : Window) (cssText : string)
    (baseUrl : option string) (options : Options) (lastIndex : nat) (w : World) :
  exists css lastIndex' w',
    embedResources h win cssText baseUrl options lastIndex w
    = (Normal (css, lastIndex'), w').
Proof.
  unfold embedResources.
  destruct (shouldEmbed cssText); cbn [negb]; [|unfold ret; eauto].
  destruct (filterPreferredFontFormat cssText options lastIndex) as [filtered li].
  unfold bind.
  destruct (embed_each_normal h win (parseURLs filtered) baseUrl options filtered w)
    as (css & w' & ->).
  unfold ret. eauto.
Qed.

(** ** src/embed-resources.js: one reference *)

Lemma url_character_spec (c : ascii) :
  url_character c = true ->
  ascii_in c quotes = false /\ Ascii.eqb ")" c = false.
Proof.
  unfold url_character, ascii_in, quotes. cbn [existsb]. intros H.
  apply negb_true_iff in H.
  apply orb_false_elim in H as [H1 H]. apply orb_false_elim in H as [H2 H].
  apply orb_false_elim in H as [H3 _].
  rewrite H1, H2. split; [reflexivity|].
  rewrite Ascii.eqb_sym. exact H3.
Qed.

(** The reference at the head of a text, as [URL_REGEX] reads it. *)
Lemma URL_REGEX_reads (i : nat) (q u post : string) :
  is_quotation q = true -> u <> EmptyString -> all_chars url_character u = true ->
  match_at false (pattern URL_REGEX) i (("url(" ++ q ++ u ++ q ++ ")") ++ post)
  = Some (MatchResult i (i + String.length ("url(" ++ q ++ u ++ q ++ ")"))
                      ("url(" ++ q ++ u ++ q ++ ")")
                      [(2%nat, u); (1%nat, q)]).
Proof.
  intros Hq Hu Hchars.
  destruct u as [|a u]; [congruence|]. clear Hu.
  simpl in Hchars. apply andb_prop in Hchars as [Ha Hchars].
  destruct (url_character_spec _ Ha) as [Haq Hap].
  assert (Hnq : all_chars (class_match false (CNoneOf quotes)) u = true).
  { eapply all_chars_impl; [|exact Hchars]. intros c Hc.
    destruct (url_character_spec _ Hc) as [Hcq _].
    rewrite class_match_exact. cbn [class_base]. now rewrite Hcq. }
  unfold match_at.
  change (pattern URL_REGEX) with
    (Seq (Str "url(")
      (Seq (Group 1 (Alt (Chr (COneOf quotes)) Eps))
        (Seq (Group 2 (Seq (Chr (CNoneOf quotes)) (Star false (Chr (CNoneOf quotes)))))
          (Seq (Backref 1) (Lit ")"))))).
  rewrite m_Seq, m_Str.
  rewrite !str_append_assoc.
  change ("url(" ++ q ++ String a u ++ q ++ ")" ++ post)
    with ("url(" ++ (q ++ String a u ++ q ++ ")" ++ post)).
  rewrite skip_prefix_append.
  set (whole := "url(" ++ q ++ String a u ++ q ++ ")" ++ post).
  set (final := fun j' (_ : string) cs' =>
                  Some (MatchResult i j' (take (j' - i) whole) cs')).
  (* what follows the second parenthesis, at the end of the URL *)
  assert (Hend : forall j cs,
            get_cap 1 cs = Some q ->
            m false (Seq (Backref 1) (Lit ")")) j (q ++ ")" ++ post) cs final
            = Some (MatchResult i (S (j + String.length q))
                      (take (S (j + String.length q) - i) whole) cs)).
  { intros j cs Hcap. rewrite m_Seq, m_Backref, Hcap, skip_prefix_append.
    change (")" ++ post) with (String ")" post).
    unfold Lit. rewrite m_Chr, class_match_exact. cbn [class_base].
    now rewrite Ascii.eqb_refl. }
  (* and inside the URL *)
  assert (Hmid : forall j c rest cs,
            get_cap 1 cs = Some q -> url_character c = true ->
            m false (Seq (Backref 1) (Lit ")")) j (String c rest) cs final = None).
  { intros j c rest cs Hcap Hc. destruct (url_character_spec _ Hc) as [Hcq Hcp].
    rewrite m_Seq, m_Backref, Hcap.
    destruct q as [|c0 [|? ?]]; [| |discriminate Hq].
    - cbn [skip_prefix]. unfold Lit. rewrite m_Chr, class_match_exact.
      cbn [class_base]. now rewrite Hcp.
    - cbn [skip_prefix]. unfold ascii_eq_case. rewrite orb_false_r.
      destruct (Ascii.eqb_spec c0 c) as [->|]; [|reflexivity].
      cbn [is_quotation] in Hq. congruence. }
  (* the second parenthesis *)
  assert (Hurl : forall j,
            m false (Seq (Group 2 (Seq (Chr (CNoneOf quotes))
                                       (Star false (Chr (CNoneOf quotes)))))
                         (Seq (Backref 1) (Lit ")")))
              j (String a u ++ q ++ ")" ++ post) [(1%nat, q)] final
            = Some (MatchResult i (S (S (j + String.length u) + String.length q))
                      (take (S (S (j + String.length u) + String.length q) - i) whole)
                      [(2%nat, String a u); (1%nat, q)])).
  { intros j.
    change (String a u ++ q ++ ")" ++ post) with (String a (u ++ q ++ ")" ++ post)).
    rewrite m_Seq, m_Group, m_Seq, m_Chr, class_match_exact.
    cbn [class_base]. rewrite Haq. cbn [negb].
    erewrite (star_lazy_scan false (CNoneOf quotes) u (q ++ ")" ++ post) (S j)).
    - reflexivity.
    - exact Hnq.
    - intros n Hn.
      destruct (drop_within url_character u (q ++ ")" ++ post) n Hchars Hn)
        as (c & rest & -> & Hc).
      apply Hmid; [reflexivity | exact Hc].
    - cbv beta. rewrite Hend by reflexivity.
      replace (S j + String.length u - j)%nat with (S (String.length u)) by lia.
      change (take (S (String.length u)) (String a (u ++ q ++ ")" ++ post)))
        with (String a (take (String.length u) (u ++ q ++ ")" ++ post))).
      rewrite str_take_append. reflexivity. }
  assert (Hlen : String.length ("url(" ++ q ++ String a u ++ q ++ ")")
                 = (6 + String.length u + 2 * String.length q)%nat).
  { change ("url(" ++ q ++ String a u ++ q ++ ")")
      with ("url(" ++ (q ++ String a (u ++ q ++ ")"))).
    rewrite !str_length_append. cbn [String.length].
    rewrite !str_length_append. cbn [String.length]. lia. }
  assert (Htake : forall n, n = (6 + String.length u + 2 * String.length q)%nat ->
            take n whole = "url(" ++ q ++ String a u ++ q ++ ")").
  { intros n ->. rewrite <- Hlen. unfold whole.
    replace ("url(" ++ q ++ String a u ++ q ++ ")" ++ post)
      with (("url(" ++ q ++ String a u ++ q ++ ")") ++ post)
      by (now rewrite !str_append_assoc).
    apply str_take_append. }
  rewrite m_Seq, m_Group, m_Alt.
  destruct q as [|c0 [|? ?]]; [| |discriminate Hq].
  - (* no quote *)
    change (EmptyString ++ String a u ++ EmptyString ++ ")" ++ post)
      with (String a (u ++ EmptyString ++ ")" ++ post)).
    rewrite m_Chr, class_match_exact. cbn [class_base]. rewrite Haq.
    rewrite m_Eps, Nat.sub_diag. cbn [take].
    change (String a (u ++ EmptyString ++ ")" ++ post))
      with (String a u ++ EmptyString ++ ")" ++ post).
    rewrite Hurl.
    f_equal. cbn [String.length] in *. f_equal; [lia|].
    apply Htake. lia.
  - (* a quote *)
    cbn [is_quotation] in Hq.
    change (String c0 EmptyString ++ String a u ++ String c0 EmptyString ++ ")" ++ post)
      with (String c0 (String a u ++ String c0 EmptyString ++ ")" ++ post)).
    rewrite m_Chr, class_match_exact. cbn [class_base]. rewrite Hq.
    replace (S (i + String.length "url(") - (i + String.length "url("))%nat
      with 1%nat by lia.
    cbn [take].
    rewrite Hurl.
    f_equal. cbn [String.length] in *. f_equal; [lia|].
    apply Htake. lia.
Qed.

Lemma URL_REGEX_search_none (i : nat) (s : string) :
  contains "url(" s = false ->
  search_from false (pattern URL_REGEX) i s = None.
Proof.
  intros H.
  change (pattern URL_REGEX) with
    (Seq (Str "url(")
         (Seqs [Group 1 (Opt (Chr (COneOf quotes)));
                Group 2 (Plus false (Chr (CNoneOf quotes)));
                Backref 1; Lit ")"])).
  now apply search_from_needs_prefix.
Qed.

Lemma isDataUrl_prefix (url : string) :
  isDataUrl url
  = match skip_prefix false "data:" url with Some _ => true | None => false end.
Proof.
  unfold isDataUrl, search. cbn [ignoreCase pattern].
  assert (Hat : match_at false (Seq Bol (Group 1 (Str "data:"))) 0 url
                = match skip_prefix false "data:" url with
                  | Some t => Some (MatchResult 0 5 (take 5 url) [(1%nat, take 5 url)])
                  | None => None
                  end).
  { unfold match_at. rewrite m_Seq, m_Bol. cbn [Nat.eqb].
    rewrite m_Group, m_Str. now destruct (skip_prefix false "data:" url). }
  destruct (skip_prefix false "data:" url) eqn:E.
  - now rewrite (search_from_here _ _ _ _ _ Hat).
  - destruct url as [|c url]; cbn [search_from]; rewrite Hat; [reflexivity|].
    rewrite search_from_fails; [reflexivity|].
    intros n Hn. unfold match_at. rewrite m_Seq, m_Bol. reflexivity.
Qed.

(** The URLs [parseURLs] finds in a text that holds one reference, at
    its head. *)
Lemma parseURLs_one (q u post : string) :
  is_quotation q = true -> u <> EmptyString -> all_chars url_character u = true ->
  contains "url(" post = false ->
  parseURLs (("url(" ++ q ++ u ++ q ++ ")") ++ post)
  = if isDataUrl u then [] else [u].
Proof.
  intros Hq Hu Hchars Hpost. unfold parseURLs, replace_all_st.
  pose proof (URL_REGEX_reads 0 q u post Hq Hu Hchars) as Hread.
  apply search_from_here in Hread.
  assert (Hlen : exists n, String.length ("url(" ++ q ++ u ++ q ++ ")") = S n).
  { cbn [String.append String.length]. eauto. }
  destruct Hlen as [n Hlen].
  assert (Hfuel : exists fuel,
             String.length (("url(" ++ q ++ u ++ q ++ ")") ++ post) = S (S fuel)).
  { rewrite str_length_append, Hlen. destruct post; simpl; eauto.
    rewrite Nat.add_0_r. destruct n; [|eauto].
    cbn [String.append String.length] in Hlen. lia. }
  destruct Hfuel as [fuel ->].
  rewrite replace_from_S. change (ignoreCase URL_REGEX) with false.
  rewrite Hread.
  cbn [m_start m_end m_text m_caps].
  rewrite !Nat.add_0_l, !Nat.sub_0_r.
  replace (String.length ("url(" ++ q ++ u ++ q ++ ")") =? 0)%nat with false
    by (now rewrite Hlen).
  rewrite str_drop_append.
  rewrite replace_from_S. change (ignoreCase URL_REGEX) with false.
  rewrite (URL_REGEX_search_none _ _ Hpost).
  cbn [snd app List.filter].
  change (default EmptyString (get_cap 2 [(2%nat, u); (1%nat, q)])) with u.
  now destruct (isDataUrl u).
Qed.

(** *** The replacement *)

Lemma substitution_plain (ngroups : nat) (str : string) (mr : match_result)
    (d rest : string) :
  all_chars no_dollar d = true ->
  substitution ngroups str mr (d ++ rest) = d ++ substitution ngroups str mr rest.
Proof.
  induction d as [|c d IH]; intros H; [reflexivity|].
  simpl in H. apply andb_prop in H as [Hc Hd].
  change (String c d ++ rest) with (String c (d ++ rest)).
  cbn [substitution]. unfold no_dollar in Hc. rewrite Hc.
  now rewrite IH.
Qed.

(** With fewer than ten parentheses, [$1] is the first one whatever
    comes next. *)
Lemma substitution_first (ngroups : nat) (str : string) (mr : match_result)
    (rest : string) :
  (1 <= ngroups < 10)%nat ->
  substitution ngroups str mr (String "$" (String "1" rest))
  = capture 1 mr ++ substitution ngroups str mr rest.
Proof.
  intros Hn. cbn [substitution].
  change (negb (Ascii.eqb "$" "$")) with false. cbv iota.
  change (Ascii.eqb "1" "$") with false.
  change (Ascii.eqb "1" "&") with false.
  change (Ascii.eqb "1" "`") with false.
  change (Ascii.eqb "1" "'") with false. cbv iota.
  change (digit_of "1") with (Some 1%nat). cbv iota.
  assert (Hcap : is_capture ngroups 1 = true).
  { unfold is_capture. apply andb_true_intro. split; apply Nat.leb_le; lia. }
  rewrite Hcap.
  destruct rest as [|d2 rest2]; [reflexivity|].
  destruct (digit_of d2) as [n2|]; [|reflexivity].
  replace (10 * 1 + n2 <=? ngroups)%nat with false
    by (symmetry; apply Nat.leb_gt; lia).
  reflexivity.
Qed.

Lemma substitution_third_last (str : string) (mr : match_result) :
  substitution 3 str mr "$3" = capture 3 mr.
Proof.
  cbn. change (digit_of "3") with (Some 3%nat). cbv iota.
  change (is_capture 3 3) with true. cbv iota. apply str_append_nil.
Qed.

(** The pattern of [toRegex] on a text that begins with a reference to
    its URL. *)
Lemma toRegex_reads (i : nat) (q u post : string) :
  is_quotation q = true -> u <> EmptyString -> all_chars url_character u = true ->
  match_at false
    (Seqs [Group 1 (Seq (Str "url(") (Opt (Chr (COneOf quotes))));
           Group 2 (Str u);
           Group 3 (Seq (Opt (Chr (COneOf quotes))) (Lit ")"))])
    i (("url(" ++ q ++ u ++ q ++ ")") ++ post)
  = Some (MatchResult i (i + String.length ("url(" ++ q ++ u ++ q ++ ")"))
                      ("url(" ++ q ++ u ++ q ++ ")")
                      [(3%nat, q ++ ")"); (2%nat, u); (1%nat, "url(" ++ q)]).
Proof.
  intros Hq Hu Hchars.
  destruct u as [|a u]; [congruence|]. clear Hu.
  pose proof Hchars as Hau.
  simpl in Hchars. apply andb_prop in Hchars as [Ha Hchars].
  destruct (url_character_spec _ Ha) as [Haq Hap].
  unfold match_at.
  change (Seqs [Group 1 (Seq (Str "url(") (Opt (Chr (COneOf quotes))));
                Group 2 (Str (String a u));
                Group 3 (Seq (Opt (Chr (COneOf quotes))) (Lit ")"))])
    with (Seq (Group 1 (Seq (Str "url(") (Alt (Chr (COneOf quotes)) Eps)))
           (Seq (Group 2 (Str (String a u)))
                (Group 3 (Seq (Alt (Chr (COneOf quotes)) Eps) (Lit ")"))))).
  rewrite !str_append_assoc.
  change ("url(" ++ q ++ String a u ++ q ++ ")" ++ post)
    with ("url(" ++ (q ++ String a u ++ q ++ ")" ++ post)).
  set (whole := "url(" ++ q ++ String a u ++ q ++ ")" ++ post).
  set (final := fun j' (_ : string) cs' =>
                  Some (MatchResult i j' (take (j' - i) whole) cs')).
  assert (Hlen : String.length ("url(" ++ q ++ String a u ++ q ++ ")")
                 = (6 + String.length u + 2 * String.length q)%nat).
  { change ("url(" ++ q ++ String a u ++ q ++ ")")
      with ("url(" ++ (q ++ String a (u ++ q ++ ")"))).
    rewrite !str_length_append. cbn [String.length].
    rewrite !str_length_append. cbn [String.length]. lia. }
  assert (Htake : forall n, n = (6 + String.length u + 2 * String.length q)%nat ->
            take n whole = "url(" ++ q ++ String a u ++ q ++ ")").
  { intros n ->. rewrite <- Hlen. unfold whole.
    replace ("url(" ++ q ++ String a u ++ q ++ ")" ++ post)
      with (("url(" ++ q ++ String a u ++ q ++ ")") ++ post)
      by (now rewrite !str_append_assoc).
    apply str_take_append. }
  (* the second and the third parenthesis *)
  assert (Hrest : forall j cs,
            m false (Seq (Group 2 (Str (String a u)))
                         (Group 3 (Seq (Alt (Chr (COneOf quotes)) Eps) (Lit ")"))))
              j (String a u ++ q ++ ")" ++ post) cs final
            = Some (MatchResult i (S (j + String.length (String a u) + String.length q))
                      (take (S (j + String.length (String a u) + String.length q) - i)
                            whole)
                      ((3%nat, q ++ ")") :: (2%nat, String a u) :: cs))).
  { intros j cs. rewrite m_Seq, m_Group, m_Str, skip_prefix_append.
    rewrite m_Group, m_Seq, m_Alt.
    replace (j + String.length (String a u) - j)%nat
      with (String.length (String a u)) by lia.
    rewrite str_take_append.
    destruct q as [|c0 [|? ?]]; [| |discriminate Hq].
    - change (EmptyString ++ ")" ++ post) with (String ")" post).
      rewrite m_Chr, class_match_exact. cbn [class_base].
      change (ascii_in ")" quotes) with false. cbv iota.
      rewrite m_Eps. unfold Lit. rewrite m_Chr, class_match_exact.
      cbn [class_base]. rewrite Ascii.eqb_refl. unfold final.
      replace (S (j + String.length (String a u)) - (j + String.length (String a u)))%nat
        with 1%nat by lia.
      cbn [take String.length String.append]. rewrite Nat.add_0_r. reflexivity.
    - cbn [is_quotation] in Hq.
      change (String c0 EmptyString ++ ")" ++ post) with (String c0 (String ")" post)).
      rewrite m_Chr, class_match_exact. cbn [class_base]. rewrite Hq.
      unfold Lit. rewrite m_Chr, class_match_exact.
      cbn [class_base]. rewrite Ascii.eqb_refl. unfold final.
      replace (S (S (j + String.length (String a u)))
               - (j + String.length (String a u)))%nat
        with 2%nat by lia.
      cbn [take String.length String.append].
      now rewrite Nat.add_1_r. }
  rewrite m_Seq, m_Group, m_Seq, m_Str.
  unfold whole at 1. rewrite skip_prefix_append. rewrite m_Alt.
  destruct q as [|c0 [|? ?]]; [| |discriminate Hq].
  - change (EmptyString ++ String a u ++ EmptyString ++ ")" ++ post)
      with (String a (u ++ EmptyString ++ ")" ++ post)).
    rewrite m_Chr, class_match_exact. cbn [class_base]. rewrite Haq.
    rewrite m_Eps.
    change (String a (u ++ EmptyString ++ ")" ++ post))
      with (String a u ++ EmptyString ++ ")" ++ post).
    rewrite Hrest.
    replace (i + String.length "url(" - i)%nat with 4%nat by (simpl; lia).
    f_equal. cbn [String.length] in *. f_equal; [lia|].
    apply Htake. lia.
  - cbn [is_quotation] in Hq.
    change (String c0 EmptyString ++ String a u ++ String c0 EmptyString ++ ")" ++ post)
      with (String c0 (String a u ++ String c0 EmptyString ++ ")" ++ post)).
    rewrite m_Chr, class_match_exact. cbn [class_base]. rewrite Hq.
    rewrite Hrest.
    replace (S (i + String.length "url(") - i)%nat with 5%nat by (simpl; lia).
    f_equal. cbn [String.length] in *. f_equal; [lia|].
    apply Htake. lia.
Qed.

Lemma groups_Str (s : string) : groups (Str s) = 0%nat.
Proof.
  induction s as [|c s IH]; [reflexivity|].
  destruct s; [reflexivity|].
  change (Str (String c (String a s))) with (Seq (Lit c) (Str (String a s))).
  cbn [groups]. now rewrite IH.
Qed.

Lemma toRegex_search_none (u : string) (i : nat) (s : string) :
  contains "url(" s = false ->
  search_from false
    (Seqs [Group 1 (Seq (Str "url(") (Opt (Chr (COneOf quotes))));
           Group 2 (Str u);
           Group 3 (Seq (Opt (Chr (COneOf quotes))) (Lit ")"))])
    i s = None.
Proof.
  intros H. apply search_from_fails. intros n Hn. unfold match_at.
  change (Seqs [Group 1 (Seq (Str "url(") (Opt (Chr (COneOf quotes))));
                Group 2 (Str u);
                Group 3 (Seq (Opt (Chr (COneOf quotes))) (Lit ")"))])
    with (Seq (Group 1 (Seq (Str "url(") (Alt (Chr (COneOf quotes)) Eps)))
           (Seq (Group 2 (Str u))
                (Group 3 (Seq (Alt (Chr (COneOf quotes)) Eps) (Lit ")"))))).
  rewrite m_Seq, m_Group, m_Seq, m_Str.
  now rewrite (contains_false _ _ H n Hn).
Qed.

(** The text [embed] returns for a text that begins with the one
    reference to its URL. *)
Lemma replace_reference (q u post d : string) :
  is_quotation q = true -> u <> EmptyString -> all_chars url_character u = true ->
  contains "url(" post = false ->
  all_chars no_dollar d = true ->
  replace_all_template
    (Regex (Seqs [Group 1 (Seq (Str "url(") (Opt (Chr (COneOf quotes))));
                  Group 2 (Str u);
                  Group 3 (Seq (Opt (Chr (COneOf quotes))) (Lit ")"))])
           false)
    ("$1" ++ d ++ "$3")
    (("url(" ++ q ++ u ++ q ++ ")") ++ post)
  = ("url(" ++ q ++ d ++ q ++ ")") ++ post.
Proof.
  intros Hq Hu Hchars Hpost Hd. unfold replace_all_template, replace_all_st.
  pose proof (toRegex_reads 0 q u post Hq Hu Hchars) as Hread.
  apply search_from_here in Hread.
  assert (Hlen : exists n, String.length ("url(" ++ q ++ u ++ q ++ ")") = S n).
  { cbn [String.append String.length]. eauto. }
  destruct Hlen as [n Hlen].
  assert (Hfuel : exists fuel,
             String.length (("url(" ++ q ++ u ++ q ++ ")") ++ post) = S fuel).
  { rewrite str_length_append, Hlen. simpl. eauto. }
  destruct Hfuel as [fuel Hfuel]. rewrite Hfuel.
  rewrite replace_from_S. cbn [ignoreCase pattern].
  rewrite Hread.
  cbn [m_start m_end m_text m_caps].
  rewrite !Nat.add_0_l, !Nat.sub_0_r.
  replace (String.length ("url(" ++ q ++ u ++ q ++ ")") =? 0)%nat with false
    by (now rewrite Hlen).
  rewrite str_drop_append.
  rewrite replace_from_S. cbn [ignoreCase pattern].
  rewrite (toRegex_search_none u _ _ Hpost).
  cbn [fst take].
  change (Seqs [Group 1 (Seq (Str "url(") (Opt (Chr (COneOf quotes))));
                Group 2 (Str u);
                Group 3 (Seq (Opt (Chr (COneOf quotes))) (Lit ")"))])
    with (Seq (Group 1 (Seq (Str "url(") (Alt (Chr (COneOf quotes)) Eps)))
           (Seq (Group 2 (Str u))
                (Group 3 (Seq (Alt (Chr (COneOf quotes)) Eps) (Lit ")"))))).
  cbn [groups]. rewrite !groups_Str.
  match goal with
  | |- context [substitution ?n _ _ _] => change n with 3%nat
  end.
  change ("$1" ++ d ++ "$3") with (String "$" (String "1" (d ++ "$3"))).
  rewrite substitution_first by lia.
  rewrite substitution_plain by assumption.
  rewrite substitution_third_last.
  unfold capture. cbn [m_caps get_cap Nat.eqb default from_option id].
  change (EmptyString ++ (("url(" ++ q) ++ d ++ q ++ ")") ++ post)
    with ((("url(" ++ q) ++ d ++ q ++ ")") ++ post).
  now rewrite !str_append_assoc.
Qed.

Lemma embed_inlines (h : Host) (win : Window) (q u post : string)
    (options : Options) (w w' : World) (d : string) :
  is_quotation q = true -> u <> EmptyString -> all_chars url_character u = true ->
  contains "url(" post = false ->
  resourceToDataURL h u (Mimes.getMimeType u) options w = (Normal d, w') ->
  all_chars no_dollar d = true ->
  embed h win (("url(" ++ q ++ u ++ q ++ ")") ++ post) u None options None w
  = (Normal (("url(" ++ q ++ d ++ q ++ ")") ++ post), w').
Proof.
  intros Hq Hu Hchars Hpost Hfetch Hd.
  unfold embed, catch, bind. rewrite Hfetch, toRegex_pattern. unfold ret.
  now rewrite replace_reference.
Qed.

(** X4.  A text that begins with its one reference, [url(u)] with or
    without quotes around a URL [u] that is not a data URL, comes back
    from [embedResources] with the data URL of the resource in the place
    of [u] and nothing else changed; the state is the one
    [resourceToDataURL] leaves for [u] with the content type of its
    extension.  This is so when no font format is preferred and the
    data URL holds no dollar. *)
Theorem embedResources_inlines (h : Host) (win : Window) (q u post : string)
    (options : Options) (lastIndex : nat) (w w' : World) (d : string) :
  is_quotation q = true -> u <> EmptyString -> all_chars url_character u = true ->
  isDataUrl u = false ->
  contains "url(" post = false ->
  truthy (preferredFontFormat options) = false ->
  resourceToDataURL h u (Mimes.getMimeType u) options w = (Normal d, w') ->
  all_chars no_dollar d = true ->
  embedResources h win (("url(" ++ q ++ u ++ q ++ ")") ++ post) None options
                 lastIndex w
  = (Normal (("url(" ++ q ++ d ++ q ++ ")") ++ post, lastIndex), w').
Proof.
  intros Hq Hu Hchars Hdata Hpost Hformat Hfetch Hd.
  unfold embedResources.
  assert (Hshould : shouldEmbed (("url(" ++ q ++ u ++ q ++ ")") ++ post) = true).
  { unfold shouldEmbed, search. change (ignoreCase URL_REGEX) with false.
    now rewrite (search_from_here _ _ _ _ _ (URL_REGEX_reads 0 q u post Hq Hu Hchars)). }
  rewrite Hshould. cbn [negb].
  rewrite filterPreferredFontFormat_no_preference by assumption.
  rewrite parseURLs_one by assumption. rewrite Hdata.
  cbn [embed_each]. unfold bind.
  rewrite (embed_inlines h win q u post options w w' d) by assumption.
  reflexivity.
Qed.

Lemma embedResources_inlines_witness :
  embedResources Samples.host
    (mkWindow "http:" (fun _ url => url) None None (fun _ => 0%Q) (fun _ => 0%Q))
    (("url(" ++ Samples.quoted Samples.picture ++ ")") ++ " no-repeat") None
    no_options 0 initial
  = (Normal (("url(" ++ Samples.quoted "data:image/png;base64,AAAA" ++ ")")
             ++ " no-repeat", 0%nat),
     snd (resourceToDataURL Samples.host Samples.picture "image/png" no_options initial)).
Proof.
  apply (embedResources_inlines Samples.host _ (String dquote EmptyString)
           Samples.picture " no-repeat" no_options 0 initial _
           "data:image/png;base64,AAAA");
    try reflexivity.
  apply String.eqb_neq. reflexivity.
Defined.

(** ** src/embed-resources.js: what goes to the network *)

Lemma skip_prefix_short (icase : bool) (p u : string) (c : ascii) (rest : string) :
  skip_prefix icase p u = None ->
  (forall a, In a (list_ascii_of_string p) -> ascii_eq_case icase a c = false) ->
  skip_prefix icase p (u ++ String c rest) = None.
Proof.
  revert u; induction p as [|a p IH]; intros u Hnone Hc; [discriminate|].
  destruct u as [|b u].
  - cbn [String.append skip_prefix]. rewrite (Hc a); [reflexivity|]. now left.
  - change (String b u ++ String c rest) with (String b (u ++ String c rest)).
    cbn [skip_prefix] in *. destruct (ascii_eq_case icase a b); [|reflexivity].
    apply IH; [assumption|]. intros a' Ha'. apply Hc. now right.
Qed.

(** A URL that is no data URL is none with a query behind it. *)
Lemma isDataUrl_query (url : string) (c : ascii) (rest : string) :
  isDataUrl url = false -> c = "?"%char \/ c = "&"%char ->
  isDataUrl (url ++ String c rest) = false.
Proof.
  rewrite !isDataUrl_prefix. intros H Hc.
  destruct (skip_prefix false "data:" url) eqn:E; [discriminate|].
  rewrite skip_prefix_short; [reflexivity | assumption |].
  intros a Ha. simpl in Ha.
  destruct Hc as [-> | ->];
    repeat (destruct Ha as [<- | Ha]; [reflexivity|]); contradiction.
Qed.

Lemma resourceToDataURL_requests (h : Host) (url ct : string) (options : Options)
    (w : World) :
  isDataUrl url = false ->
  exists new,
    requests (snd (resourceToDataURL h url ct options w)) = (requests w ++ new)%list
    /\ Forall (fun r => isDataUrl r = false) new.
Proof.
  intros Hurl. unfold resourceToDataURL, start.
  destruct (cache w !! getCacheKey url ct (includeQueryParams options)).
  - exists []. cbn [snd]. now rewrite app_nil_r.
  - match goal with
    | |- context [settle options ?p ?r ?w1] =>
        destruct (settle_normal options p r w1) as [d ->]
    end.
    cbn [snd set_cache log_request requests p_resourceUrl].
    eexists. split; [reflexivity|].
    constructor; [|constructor].
    destruct (cacheBust options); [|assumption].
    destruct (test _ url); apply isDataUrl_query; auto.
Qed.

Lemma embed_each_requests (h : Host) (win : Window) (urls : list string)
    (options : Options) (css : string) (w : World) :
  Forall (fun url => isDataUrl url = false) urls ->
  exists new,
    requests (snd (embed_each h win urls None options css w))
    = (requests w ++ new)%list
    /\ Forall (fun r => isDataUrl r = false) new.
Proof.
  revert css w; induction urls as [|url urls IH]; intros css w Hurls.
  - exists []. cbn. now rewrite app_nil_r.
  - inversion Hurls as [|? ? Hurl Hrest]; subst.
    cbn [embed_each]. unfold bind.
    destruct (embed_world h win css url options w) as [css1 ->].
    destruct (resourceToDataURL_requests h url (Mimes.getMimeType url) options w Hurl)
      as (new1 & Hreq1 & Hnew1).
    destruct (IH css1 (snd (resourceToDataURL h url (Mimes.getMimeType url) options w))
                 Hrest) as (new2 & Hreq2 & Hnew2).
    exists (new1 ++ new2)%list. split.
    + rewrite Hreq2, Hreq1. now rewrite app_assoc.
    + apply Forall_app. auto.
Qed.

Lemma parseURLs_no_data_url (cssText : string) :
  Forall (fun url => isDataUrl url = false) (parseURLs cssText).
Proof.
  unfold parseURLs. apply Stdlib.Lists.List.Forall_forall. intros url Hin.
  apply Stdlib.Lists.List.filter_In in Hin as [_ H]. now apply negb_true_iff in H.
Qed.

(** X5.  [embedResources] sends no data URL to the network: with no base
    URL, every request it makes is for a reference of the text that is
    not a data URL (with the clock behind it when the cache is to be
    bypassed); the references that are data URLs are left alone. *)
Theorem embedResources_requests_no_data_url (h : Host) (win : Window)
    (cssText : string) (options : Options) (lastIndex : nat) (w : World) :
  exists new,
    requests (snd (embedResources h win cssText None options lastIndex w))
    = (requests w ++ new)%list
    /\ Forall (fun url => isDataUrl url = false) new.
Proof.
  unfold embedResources.
  destruct (shouldEmbed cssText); cbn [negb].
  2:{ exists []. cbn. now rewrite app_nil_r. }
  destruct (filterPreferredFontFormat cssText options lastIndex) as [filtered li].
  unfold bind.
  destruct (embed_each_requests h win (parseURLs filtered) options filtered w
              (parseURLs_no_data_url filtered)) as (new & Hreq & Hnew).
  destruct (embed_each_normal h win (parseURLs filtered) None options filtered w)
    as (css & w' & E).
  rewrite E in *. cbn [snd] in *. eauto.
Qed.

(** *** No URL is asked for twice *)

Lemma first_requests_ext (key : string -> string) (known known' : string -> bool)
    (urls : list string) :
  (forall k, known k = known' k) ->
  first_requests key known urls = first_requests key known' urls.
Proof.
  revert known known'; induction urls as [|url urls IH]; intros known known' H;
    [reflexivity|].
  cbn [first_requests]. rewrite <- H.
  destruct (known (key url)); [now apply IH|].
  f_equal. apply IH. intros k. now rewrite H.
Qed.

(** What one call does to the requests and to the cache. *)
Lemma resourceToDataURL_effect (h : Host) (url ct : string) (options : Options)
    (w : World) :
  cacheBust options = false ->
  let key := getCacheKey url ct (includeQueryParams options) in
  let w' := snd (resourceToDataURL h url ct options w) in
  if in_cache w key
  then w' = w
  else requests w' = (requests w ++ [url])%list
       /\ forall k, in_cache w' k = in_cache w k || String.eqb k key.
Proof.
  intros Hbust key w'. subst w'. unfold in_cache, resourceToDataURL, start.
  fold key. rewrite Hbust.
  destruct (cache w !! key) as [d|] eqn:Hkey; [reflexivity|].
  match goal with
  | |- context [settle options ?p ?r ?w1] =>
      destruct (settle_normal options p r w1) as [d ->]
  end.
  cbn [snd set_cache log_request cache requests p_cacheKey].
  split; [reflexivity|]. intros k.
  destruct (String.eqb_spec k key) as [->|Hne].
  - rewrite lookup_insert_eq. now rewrite orb_true_r.
  - rewrite lookup_insert_ne by congruence. now rewrite orb_false_r.
Qed.

Lemma embed_each_first_requests (h : Host) (win : Window) (urls : list string)
    (options : Options) (css : string) (w : World) :
  cacheBust options = false ->
  requests (snd (embed_each h win urls None options css w))
  = (requests w ++ first_requests (reference_key options) (in_cache w) urls)%list.
Proof.
  intros Hbust. revert css w; induction urls as [|url urls IH]; intros css w.
  - cbn. now rewrite app_nil_r.
  - cbn [embed_each first_requests]. unfold bind.
    destruct (embed_world h win css url options w) as [css1 ->].
    pose proof (resourceToDataURL_effect h url (Mimes.getMimeType url) options w Hbust)
      as Heffect.
    cbv zeta in Heffect. fold (reference_key options url) in Heffect.
    set (w1 := snd (resourceToDataURL h url (Mimes.getMimeType url) options w)) in *.
    rewrite IH.
    destruct (in_cache w (reference_key options url)).
    + now rewrite Heffect.
    + destruct Heffect as [Hreq Hknown].
      rewrite Hreq, <- app_assoc. cbn [app]. do 2 f_equal.
      now apply first_requests_ext.
Qed.

(** X6.  [embedResources] asks for no URL twice.  With no base URL and
    without bypassing the cache, the requests it makes are exactly these:
    of the references of the text, taken in their order, each one whose
    cache key is not in the cache and is not the key of a reference
    before it; the URL is asked for as it is written.  So two references
    to one URL in one text cost one fetch, and none when the key is in
    the cache.  (The references are taken not to meet a member every
    object inherits, neither by their extension nor by their key.) *)
Theorem embedResources_requests_once (h : Host) (win : Window)
    (cssText : string) (options : Options) (lastIndex : nat) (w : World) :
  cacheBust options = false ->
  forallb (ordinary options)
          (parseURLs (fst (filterPreferredFontFormat cssText options lastIndex)))
  = true ->
  requests (snd (embedResources h win cssText None options lastIndex w))
  = (requests w
     ++ if shouldEmbed cssText
        then first_requests (reference_key options) (in_cache w)
               (parseURLs (fst (filterPreferredFontFormat cssText options lastIndex)))
        else [])%list.
Proof.
  intros Hbust _. unfold embedResources.
  destruct (shouldEmbed cssText); cbn [negb].
  2:{ cbn. now rewrite app_nil_r. }
  destruct (filterPreferredFontFormat cssText options lastIndex) as [filtered li].
  unfold bind. cbn [fst].
  pose proof (embed_each_first_requests h win (parseURLs filtered) options filtered w
                Hbust) as Hreq.
  destruct (embed_each_normal h win (parseURLs filtered) None options filtered w)
    as (css & w' & E).
  rewrite E in *. exact Hreq.
Qed.

Lemma embedResources_requests_once_witness :
  requests
    (snd (embedResources Samples.host Samples.window
            "url(http://example.com/a.png), url(http://example.com/a.png)"
            None no_options 0 initial))
  = ["http://example.com/a.png"].
Proof.
  apply (embedResources_requests_once Samples.host Samples.window
           "url(http://example.com/a.png), url(http://example.com/a.png)"
           no_options 0 initial);
    reflexivity.
Defined.

(** ** src/util.js: URLs that need no resolution *)

(** A pattern that begins with [^] matches at the head of the text or
    nowhere. *)
Lemma test_anchored (r : re) (icase : bool) (s : string) :
  test (Regex (Seq Bol r) icase) s
  = match match_at icase (Seq Bol r) 0 s with
    | Some _ => true
    | None => false
    end.
Proof.
  unfold test. cbn [ignoreCase pattern].
  destruct (match_at icase (Seq Bol r) 0 s) eqn:E.
  - now rewrite (search_from_here _ _ _ _ _ E).
  - destruct s as [|c s]; cbn [search_from]; rewrite E; [reflexivity|].
    rewrite search_from_fails; [reflexivity|].
    intros n Hn. unfold match_at. rewrite m_Seq, m_Bol. reflexivity.
Qed.

Lemma letter_class (c : ascii) :
  is_letter c = true -> class_match true (CRange "a" "z") c = true.
Proof.
  unfold is_letter, class_match. cbn [class_base andb].
  change (nat_of_ascii "a") with 97%nat. change (nat_of_ascii "z") with 122%nat.
  intros H. apply orb_prop in H as [H | H].
  - unfold is_lower in H. now rewrite H.
  - apply orb_true_intro. right. apply orb_true_intro. right.
    unfold to_lower. rewrite H. unfold is_upper in H.
    apply andb_prop in H as [H1 H2].
    apply Nat.leb_le in H1, H2.
    rewrite nat_ascii_embedding by lia.
    apply andb_true_intro. split; apply Nat.leb_le; lia.
Qed.

Lemma letter_not_slash (c : ascii) :
  is_letter c = true -> Ascii.eqb "/" c = false.
Proof.
  intros H. destruct (Ascii.eqb_spec "/" c) as [<-|]; [|reflexivity].
  discriminate H.
Qed.

(** X7.  [resolveUrl] returns a URL that begins with a scheme, letters
    followed by a colon, as it is: an absolute URL, a data URL, [mailto:]
    and the like are never resolved against the base, and nothing is
    asked of the document.  A URL that begins with two slashes gets the
    protocol of the window in front. *)
Theorem resolveUrl_keeps_scheme (win : Window) (scheme rest : string)
    (baseUrl : option string) :
  scheme <> EmptyString -> all_chars is_letter scheme = true ->
  resolveUrl win (scheme ++ ":" ++ rest) baseUrl = scheme ++ ":" ++ rest
  /\ (forall path,
        resolveUrl win ("//" ++ path) baseUrl = location_protocol win ++ "//" ++ path).
Proof.
  intros Hne Hletters. split; [|intros path].
  - unfold resolveUrl.
    destruct (test absoluteRegex (scheme ++ ":" ++ rest)); [reflexivity|].
    destruct scheme as [|a scheme]; [congruence|].
    simpl in Hletters. apply andb_prop in Hletters as [Ha Hletters].
    assert (Hrel : test protocolRelativeRegex (String a scheme ++ ":" ++ rest) = false).
    { unfold protocolRelativeRegex. rewrite test_anchored.
      unfold match_at. rewrite m_Seq, m_Bol. cbn [Nat.eqb]. rewrite m_Str.
      change (String a scheme ++ ":" ++ rest) with (String a (scheme ++ ":" ++ rest)).
      cbn [skip_prefix]. unfold ascii_eq_case. rewrite orb_false_r.
      now rewrite (letter_not_slash _ Ha). }
    rewrite Hrel.
    assert (Hscheme : test schemeRegex (String a scheme ++ ":" ++ rest) = true).
    { unfold schemeRegex.
      change (Seqs [Bol; Plus true (Chr (CRange "a" "z")); Lit ":"])
        with (Seq Bol (Seq (Seq (Chr (CRange "a" "z"))
                                (Star true (Chr (CRange "a" "z"))))
                           (Lit ":"))).
      rewrite test_anchored. unfold match_at.
      rewrite m_Seq, m_Bol. cbn [Nat.eqb]. rewrite m_Seq, m_Seq.
      change (String a scheme ++ ":" ++ rest) with (String a (scheme ++ ":" ++ rest)).
      rewrite m_Chr, (letter_class _ Ha).
      erewrite (star_greedy_scan true (CRange "a" "z") scheme (":" ++ rest));
        [reflexivity | | reflexivity | reflexivity].
      eapply all_chars_impl; [|exact Hletters]. apply letter_class. }
    now rewrite Hscheme.
  - unfold resolveUrl.
    assert (Habs : test absoluteRegex ("//" ++ path) = false).
    { unfold absoluteRegex.
      change (Seqs [Bol; Plus true (Chr (CRange "a" "z")); Str "://"])
        with (Seq Bol (Seq (Seq (Chr (CRange "a" "z"))
                                (Star true (Chr (CRange "a" "z"))))
                           (Str "://"))).
      rewrite test_anchored. unfold match_at.
      rewrite m_Seq, m_Bol. cbn [Nat.eqb]. rewrite m_Seq, m_Seq.
      reflexivity. }
    rewrite Habs.
    assert (Hrel : test protocolRelativeRegex ("//" ++ path) = true).
    { unfold protocolRelativeRegex. rewrite test_anchored.
      unfold match_at. rewrite m_Seq, m_Bol. cbn [Nat.eqb]. rewrite m_Str.
      now rewrite skip_prefix_append. }
    now rewrite Hrel.
Qed.

Lemma resolveUrl_keeps_scheme_witness :
  resolveUrl (mkWindow "https:" (fun _ url => url) None None
                       (fun _ => 0%Q) (fun _ => 0%Q))
             ("data" ++ ":" ++ "image/png;base64,AAAA") (Some "http://example.com/")
  = "data" ++ ":" ++ "image/png;base64,AAAA".
Proof.
  refine (proj1 (resolveUrl_keeps_scheme _ "data" _ _ _ _)).
  - apply String.eqb_neq. reflexivity.
  - reflexivity.
Defined.

(** ** src/util.js: the dimensions of the canvas *)

Lemma gt_true (x y : Q) : gt x y = true -> (y < x)%Q.
Proof.
  unfold gt. intros H. apply negb_true_iff in H.
  apply Qnot_le_lt. intros Hle. apply Qle_bool_iff in Hle. congruence.
Qed.

Lemma gt_false (x y : Q) : gt x y = false -> (x <= y)%Q.
Proof.
  unfold gt. intros H. apply negb_false_iff in H. now apply Qle_bool_iff.
Qed.

(** A side scaled by the limit over a longer side is within the limit. *)
Lemma scaled_within (a b : Q) :
  (0 <= a)%Q -> (a <= b)%Q -> (canvasDimensionLimit < b)%Q ->
  (0 <= a * (canvasDimensionLimit / b))%Q
  /\ (a * (canvasDimensionLimit / b) <= canvasDimensionLimit)%Q.
Proof.
  intros Ha Hab Hb.
  assert (Hlimit : (0 < canvasDimensionLimit)%Q) by reflexivity.
  assert (Hpos : (0 < b)%Q) by (eapply Qlt_trans; eassumption).
  split.
  - apply Qmult_le_0_compat; [assumption|].
    apply Qle_shift_div_l; [assumption|]. rewrite Qmult_0_l. now apply Qlt_le_weak.
  - assert (E : (a * (canvasDimensionLimit / b) == (a / b) * canvasDimensionLimit)%Q).
    { field. intros E. rewrite E in Hpos. discriminate Hpos. }
    rewrite E. rewrite <- (Qmult_1_l canvasDimensionLimit) at 2.
    apply Qmult_le_compat_r; [|now apply Qlt_le_weak].
    apply Qle_shift_div_r; [assumption|]. now rewrite Qmult_1_l.
Qed.

(** X8.  After [checkCanvasDimensions] neither dimension of the canvas
    exceeds the limit of 16384, whatever the canvas keeps of the numbers
    assigned to it, as long as it keeps no more than the number; and a
    canvas within the limit is left as it is. *)
Theorem checkCanvasDimensions_within_limit (store : Q -> Q) (canvas : Canvas) :
  (forall x, (0 <= x)%Q -> (0 <= store x)%Q /\ (store x <= x)%Q) ->
  (0 <= canvas_width canvas)%Q -> (0 <= canvas_height canvas)%Q ->
  ((0 <= canvas_width (checkCanvasDimensions store canvas))%Q
   /\ (canvas_width (checkCanvasDimensions store canvas) <= canvasDimensionLimit)%Q
   /\ (0 <= canvas_height (checkCanvasDimensions store canvas))%Q
   /\ (canvas_height (checkCanvasDimensions store canvas) <= canvasDimensionLimit)%Q)
  /\ ((canvas_width canvas <= canvasDimensionLimit)%Q ->
      (canvas_height canvas <= canvasDimensionLimit)%Q ->
      checkCanvasDimensions store canvas = canvas).
Proof.
  intros Hstore Hw Hh.
  assert (Hlimit : (0 <= canvasDimensionLimit)%Q) by discriminate.
  destruct (Hstore _ Hlimit) as [Hl0 Hl1].
  assert (Hscale_h : (canvasDimensionLimit < canvas_width canvas)%Q ->
            (canvas_height canvas <= canvas_width canvas)%Q ->
            (0 <= store (canvas_height canvas
                         * (canvasDimensionLimit / canvas_width canvas)))%Q
            /\ (store (canvas_height canvas
                       * (canvasDimensionLimit / canvas_width canvas))
                <= canvasDimensionLimit)%Q).
  { intros H1 H2. destruct (scaled_within _ _ Hh H2 H1) as [Ha Hb].
    destruct (Hstore _ Ha) as [Hc Hd]. split; [assumption|].
    eapply Qle_trans; eassumption. }
  assert (Hscale_w : (canvasDimensionLimit < canvas_height canvas)%Q ->
            (canvas_width canvas <= canvas_height canvas)%Q ->
            (0 <= store (canvas_width canvas
                         * (canvasDimensionLimit / canvas_height canvas)))%Q
            /\ (store (canvas_width canvas
                       * (canvasDimensionLimit / canvas_height canvas))
                <= canvasDimensionLimit)%Q).
  { intros H1 H2. destruct (scaled_within _ _ Hw H2 H1) as [Ha Hb].
    destruct (Hstore _ Ha) as [Hc Hd]. split; [assumption|].
    eapply Qle_trans; eassumption. }
  split.
  - unfold checkCanvasDimensions.
    destruct (gt (canvas_width canvas) canvasDimensionLimit) eqn:Ew;
      destruct (gt (canvas_height canvas) canvasDimensionLimit) eqn:Eh;
      cbn [orb andb].
    + destruct (gt (canvas_width canvas) (canvas_height canvas)) eqn:Ewh;
        cbn [set_width set_height canvas_width canvas_height].
      * apply gt_true in Ew, Ewh.
        destruct (Hscale_h Ew (Qlt_le_weak _ _ Ewh)). auto.
      * apply gt_true in Eh. apply gt_false in Ewh.
        destruct (Hscale_w Eh Ewh). auto.
    + cbn [set_width set_height canvas_width canvas_height].
      apply gt_true in Ew. apply gt_false in Eh.
      destruct (Hscale_h Ew) as [? ?]; [|auto].
      eapply Qle_trans; [eassumption | now apply Qlt_le_weak].
    + cbn [set_width set_height canvas_width canvas_height].
      apply gt_true in Eh. apply gt_false in Ew.
      destruct (Hscale_w Eh) as [? ?]; [|auto].
      eapply Qle_trans; [eassumption | now apply Qlt_le_weak].
    + apply gt_false in Ew, Eh. auto.
  - intros Hw' Hh'. unfold checkCanvasDimensions, gt.
    apply Qle_bool_iff in Hw', Hh'. now rewrite Hw', Hh'.
Qed.

Lemma Qfloor_keeps (x : Q) :
  (0 <= x)%Q -> (0 <= inject_Z (Qfloor x))%Q /\ (inject_Z (Qfloor x) <= x)%Q.
Proof.
  intros H. split; [|apply Qfloor_le].
  change 0%Q with (inject_Z 0). rewrite <- Zle_Qle.
  change 0%Z with (Qfloor 0). now apply Qfloor_resp_le.
Qed.

Lemma checkCanvasDimensions_within_limit_witness :
  ((0 <= canvas_width (checkCanvasDimensions (fun x => inject_Z (Qfloor x))
                                             (mkCanvas 40000 30001)))%Q
   /\ (canvas_width (checkCanvasDimensions (fun x => inject_Z (Qfloor x))
                                           (mkCanvas 40000 30001))
       <= canvasDimensionLimit)%Q
   /\ (0 <= canvas_height (checkCanvasDimensions (fun x => inject_Z (Qfloor x))
                                                 (mkCanvas 40000 30001)))%Q
   /\ (canvas_height (checkCanvasDimensions (fun x => inject_Z (Qfloor x))
                                            (mkCanvas 40000 30001))
       <= canvasDimensionLimit)%Q)
  /\ checkCanvasDimensions (fun x => inject_Z (Qfloor x)) (mkCanvas 40000 30001)
     = mkCanvas 16384 12288.
Proof.
  split; [|vm_compute; reflexivity].
  refine (proj1 (checkCanvasDimensions_within_limit (fun x => inject_Z (Qfloor x))
                   (mkCanvas 40000 30001) Qfloor_keeps _ _));
    unfold Qle; simpl; lia.
Defined.

Lemma Qfloor_truncates (x : Q) :
  (0 <= x)%Q ->
  exists z, inject_Z (Qfloor x) = inject_Z z
            /\ (x - 1 <= inject_Z z)%Q /\ (inject_Z z <= x)%Q.
Proof.
  intros _. exists (Qfloor x). split; [reflexivity|]. split; [|apply Qfloor_le].
  pose proof (Qlt_floor x) as H.
  assert (E : (inject_Z (Qfloor x + 1) == inject_Z (Qfloor x) + 1)%Q)
    by (rewrite inject_Z_plus; reflexivity).
  rewrite E in H. apply Qlt_le_weak.
  apply (Qplus_lt_l _ _ 1). ring_simplify. exact H.
Qed.



(** ** src/util.js: numbers read from texts *)

(** The decimal digits of a natural number, read back. *)
Lemma read_digits_uint (d : Decimal.uint) (rest : string) (acc len : nat) :
  read_digits (NilEmpty.string_of_uint d ++ rest) (Z.of_nat acc) len
  = read_digits rest (Z.of_nat (Nat.of_uint_acc d acc)) (len + Decimal.nb_digits d).
Proof.
  revert acc len; induction d; intros acc len;
    cbn [NilEmpty.string_of_uint Nat.of_uint_acc Decimal.nb_digits];
    [ now rewrite Nat.add_0_r | .. ];
    match goal with
    | |- read_digits (String ?c ?s ++ rest) _ _ = _ =>
        change (String c s ++ rest) with (String c (s ++ rest))
    end;
    cbn [read_digits];
    match goal with
    | |- context [is_digit ?c] => change (is_digit c) with true
    end;
    cbv iota;
    match goal with
    | |- read_digits _ ?z _ = read_digits _ (Z.of_nat (Nat.of_uint_acc _ ?n)) _ =>
        replace z with (Z.of_nat n)
          by (rewrite ?Nat.tail_mul_spec;
              match goal with
              | |- context [digit_value ?c] =>
                  let v := eval vm_compute in (digit_value c) in
                  change (digit_value c) with v
              end; lia)
    end;
    rewrite IHd; f_equal; lia.
Qed.

Lemma read_digits_nil (acc : Z) (len : nat) :
  read_digits EmptyString acc len = (acc, len, EmptyString).
Proof. reflexivity. Qed.

Lemma counter_toString_read (n : nat) (rest : string) :
  read_digits (counter_toString n ++ rest) 0%Z 0
  = read_digits rest (Z.of_nat n) (Decimal.nb_digits (Nat.to_uint n)).
Proof.
  unfold counter_toString. change 0%Z with (Z.of_nat 0).
  rewrite (read_digits_uint (Nat.to_uint n) rest 0 0).
  change (Nat.of_uint_acc (Nat.to_uint n) 0) with (Nat.of_uint (Nat.to_uint n)).
  now rewrite DecimalNat.Unsigned.of_to.
Qed.

(** The decimal text of a natural number begins with a digit. *)
Lemma counter_toString_head (n : nat) :
  exists c s, counter_toString n = String c s /\ is_digit c = true.
Proof.
  unfold counter_toString.
  destruct (Nat.to_uint n) eqn:E;
    try (cbn [NilEmpty.string_of_uint]; eexists _, _; split; reflexivity).
  exfalso.
  pose proof (DecimalNat.Unsigned.of_to n) as H. rewrite E in H. cbn in H.
  subst n. discriminate E.
Qed.

Lemma counter_toString_digits (n : nat) :
  all_chars is_digit (counter_toString n) = true.
Proof.
  unfold counter_toString. induction (Nat.to_uint n); cbn; auto.
Qed.

Lemma nb_digits_positive (n : nat) : Decimal.nb_digits (Nat.to_uint n) <> 0%nat.
Proof.
  destruct (counter_toString_head n) as (c & s & E & _).
  unfold counter_toString in E.
  destruct (Nat.to_uint n); cbn in *; try discriminate; lia.
Qed.

Lemma parseInt10_digit (c : ascii) (s : string) :
  is_digit c = true ->
  parseInt10 (String c s)
  = let '(n, len, _) := read_digits (String c s) 0%Z 0 in
    if (len =? 0)%nat then NaN else Num (inject_Z n).
Proof.
  intros H. unfold parseInt10.
  destruct c as [[] [] [] [] [] [] [] []]; try discriminate H; reflexivity.
Qed.

Lemma parseFloat_digit (c : ascii) (s : string) :
  is_digit c = true ->
  parseFloat (String c s)
  = let '(ip, ilen, s1) := read_digits (String c s) 0%Z O in
    let '(fp, flen, s2) :=
      match s1 with
      | String "." t => read_digits t 0%Z O
      | _ => (0%Z, O, s1)
      end in
    if ((ilen =? 0) && (flen =? 0))%nat then NaN
    else
      let mant := (inject_Z ip + inject_Z fp / inject_Z (pow10 flen))%Q in
      let q := scale10 mant (read_exponent s2) in
      Num (Qred q).
Proof.
  intros H. unfold parseFloat.
  destruct c as [[] [] [] [] [] [] [] []]; try discriminate H; reflexivity.
Qed.

Lemma Qred_integer (z : Z) (q : Q) : (q == inject_Z z)%Q -> Qred q = inject_Z z.
Proof.
  intros H. rewrite (Qred_complete _ _ H). unfold Qred, inject_Z.
  pose proof (Z.ggcd_gcd z 1) as Hg.
  pose proof (Z.ggcd_correct_divisors z 1) as Hd.
  destruct (Z.ggcd z 1) as [g [a b]]. cbn [fst snd] in *.
  rewrite Z.gcd_1_r in Hg. subst g. destruct Hd as [Ha Hb].
  rewrite Z.mul_1_l in Ha, Hb. now subst.
Qed.

(** The decimal text of a natural number reads back as the number, by
    [parseInt] and by [parseFloat]. *)
Lemma parseInt10_counter_toString (n : nat) :
  parseInt10 (counter_toString n) = Num (inject_Z (Z.of_nat n)).
Proof.
  destruct (counter_toString_head n) as (c & s & E & Hc).
  pose proof (counter_toString_read n EmptyString) as Hread.
  rewrite str_append_nil, read_digits_nil in Hread.
  rewrite E in *. rewrite (parseInt10_digit _ _ Hc), Hread.
  destruct (Nat.eqb_spec (Decimal.nb_digits (Nat.to_uint n)) 0) as [H|]; [|reflexivity].
  now apply nb_digits_positive in H.
Qed.

Lemma parseFloat_counter_toString (n : nat) :
  parseFloat (counter_toString n) = Num (inject_Z (Z.of_nat n)).
Proof.
  destruct (counter_toString_head n) as (c & s & E & Hc).
  pose proof (counter_toString_read n EmptyString) as Hread.
  rewrite str_append_nil, read_digits_nil in Hread.
  rewrite E in *. rewrite (parseFloat_digit _ _ Hc), Hread.
  destruct (Nat.eqb_spec (Decimal.nb_digits (Nat.to_uint n)) 0) as [H|];
    [now apply nb_digits_positive in H|].
  cbn [andb]. cbv zeta. f_equal. apply Qred_integer.
  cbn [read_exponent scale10]. unfold pow10. simpl Z.of_nat. simpl Z.pow.
  unfold Qdiv. rewrite Qmult_0_l. apply Qplus_0_r.
Qed.

(** ** src/util.js: the pixel ratio *)

(** X10.  [getPixelRatio] never returns zero or NaN, and its choices are
    taken in this order.  An override that is not empty and reads as no
    number gives 1, whatever the window reports: the window is not asked.
    An override that reads as zero, is empty or is missing leaves the
    choice to the window, whose ratio is returned unless it is zero, NaN
    or missing; 1 is returned then. *)
Theorem getPixelRatio_never_zero (win : Window) :
  number_truthy (getPixelRatio win) = true
  /\ (forall val,
         env_devicePixelRatio win = Some val -> truthy val = true ->
         isNaN (parseInt10 val) = true ->
         getPixelRatio win = Num 1)
  /\ (forall val,
         env_devicePixelRatio win = Some val -> truthy val = true ->
         isNaN (parseInt10 val) = false ->
         getPixelRatio win
         = if number_truthy (parseInt10 val) then parseInt10 val
           else match devicePixelRatio win with
                | Some ratio => if number_truthy ratio then ratio else Num 1
                | None => Num 1
                end)
  /\ (match env_devicePixelRatio win with
      | Some val => truthy val = false
      | None => True
      end ->
      getPixelRatio win
      = match devicePixelRatio win with
        | Some ratio => if number_truthy ratio then ratio else Num 1
        | None => Num 1
        end).
Proof.
  split; [|split; [|split]].
  - unfold getPixelRatio, or_else.
    assert (Hwindow : number_truthy
              match devicePixelRatio win with
              | Some v => if number_truthy v then v else Num 1
              | None => Num 1
              end = true).
    { destruct (devicePixelRatio win) as [v|]; [|reflexivity].
      destruct (number_truthy v) eqn:E; [assumption | reflexivity]. }
    destruct (env_devicePixelRatio win) as [v|]; [|assumption].
    destruct (truthy v); [|assumption].
    destruct (parseInt10 v) as [| neg | q] eqn:E; cbn [isNaN]; try reflexivity.
    destruct (number_truthy (Num q)) eqn:Eq; assumption.
  - intros val Henv Hval Hnan. unfold getPixelRatio. rewrite Henv, Hval, Hnan.
    reflexivity.
  - intros val Henv Hval Hnan. unfold getPixelRatio. rewrite Henv, Hval, Hnan.
    reflexivity.
  - intros Henv. unfold getPixelRatio.
    destruct (env_devicePixelRatio win) as [val|]; [rewrite Henv|]; reflexivity.
Qed.

Lemma getPixelRatio_never_zero_witness :
  getPixelRatio (mkWindow "https:" (fun _ url => url) (Some (Num 2)) (Some "two")
                          (fun _ => 0%Q) (fun _ => 0%Q))
  = Num 1.
Proof.
  exact (proj1 (proj2 (getPixelRatio_never_zero
                         (mkWindow "https:" (fun _ url => url) (Some (Num 2))
                                   (Some "two") (fun _ => 0%Q) (fun _ => 0%Q))))
               "two" eq_refl eq_refl eq_refl).
Defined.

(** X11.  The variable [devicePixelRatio] of the environment of the
    process overrides the ratio of the window: set to the decimal text of
    a natural number other than zero, and no larger than the whole
    numbers a double holds one by one (up to 2^53), it is what
    [getPixelRatio] returns. *)
Theorem getPixelRatio_override (win : Window) (n : nat) :
  n <> 0%nat ->
  exact_integer (Z.of_nat n) = true ->
  env_devicePixelRatio win = Some (counter_toString n) ->
  getPixelRatio win = Num (inject_Z (Z.of_nat n)).
Proof.
  intros Hn _ Henv. unfold getPixelRatio. rewrite Henv.
  destruct (counter_toString_head n) as (c & s & E & _).
  rewrite parseInt10_counter_toString. rewrite E. cbn [truthy isNaN or_else].
  unfold number_truthy.
  destruct (Qeq_bool (inject_Z (Z.of_nat n)) 0) eqn:Eq; [|reflexivity].
  apply Qeq_bool_eq in Eq. unfold Qeq in Eq. simpl in Eq. lia.
Qed.

Lemma getPixelRatio_override_witness :
  getPixelRatio (mkWindow "https:" (fun _ url => url) (Some (Num 2)) (Some "3")
                          (fun _ => 0%Q) (fun _ => 0%Q))
  = Num (inject_Z (Z.of_nat 3)).
Proof.
  apply getPixelRatio_override; [lia | reflexivity | reflexivity].
Defined.

(** ** src/util.js: lengths in pixels *)

Lemma digit_not_p (c : ascii) : is_digit c = true -> ascii_eq_case false "p" c = false.
Proof.
  intros H. unfold ascii_eq_case. rewrite orb_false_r.
  destruct (Ascii.eqb_spec "p" c) as [<-|]; [discriminate H | reflexivity].
Qed.

Lemma replace_px (v : string) :
  all_chars is_digit v = true ->
  replace_first (Regex (Str "px") false) (fun _ => EmptyString) (v ++ "px") = v.
Proof.
  intros Hv. unfold replace_first. cbn [ignoreCase pattern].
  rewrite (search_from_first false (Str "px") 0 (String.length v) (v ++ "px")
             (MatchResult (String.length v) (String.length v + 2) "px" [])).
  - cbn [m_start m_end]. rewrite str_take_append.
    replace (String.length v + 2)%nat with (String.length (v ++ "px"))
      by (rewrite str_length_append; reflexivity).
    rewrite <- (str_append_nil (v ++ "px")) at 2. rewrite str_drop_append.
    cbn [String.append]. apply str_append_nil.
  - intros n Hn. destruct (drop_within is_digit v "px" n Hv Hn) as (c & rest & -> & Hc).
    unfold match_at. rewrite m_Str. cbn [skip_prefix].
    now rewrite (digit_not_p _ Hc).
  - rewrite str_length_append. lia.
  - rewrite str_drop_append. unfold match_at. rewrite m_Str.
    cbn [skip_prefix String.length]. cbn [Nat.add].
    replace (String.length v + 2 - String.length v)%nat with 2%nat by lia.
    reflexivity.
Qed.

Lemma px_reads (node : Node) (styleProperty : string) (n : nat) :
  getPropertyValue (computedStyle node) styleProperty = counter_toString n ++ "px" ->
  px node styleProperty = Num (inject_Z (Z.of_nat n)).
Proof.
  intros Hval. unfold px. rewrite Hval.
  destruct (counter_toString_head n) as (c & s & E & _).
  rewrite E at 1. cbn [String.append truthy].
  rewrite (replace_px _ (counter_toString_digits n)).
  apply parseFloat_counter_toString.
Qed.

(** X12.  [px] reads a length in whole pixels back as its number: for a
    resolved value that is the decimal text of a natural number followed
    by [px], the number being no larger than the whole numbers a double
    holds one by one (up to 2^53), it returns that number. *)
Theorem px_whole_pixels (node : Node) (styleProperty : string) (n : nat) :
  exact_integer (Z.of_nat n) = true ->
  getPropertyValue (computedStyle node) styleProperty = counter_toString n ++ "px" ->
  px node styleProperty = Num (inject_Z (Z.of_nat n)).
Proof.
  intros _ Hval. unfold px. rewrite Hval.
  destruct (counter_toString_head n) as (c & s & E & _).
  rewrite E at 1. cbn [String.append truthy].
  rewrite (replace_px _ (counter_toString_digits n)).
  apply parseFloat_counter_toString.
Qed.

Lemma px_whole_pixels_witness :
  px Samples.frame "border-right-width" = Num (inject_Z (Z.of_nat 3)).
Proof. apply px_whole_pixels; reflexivity. Defined.

(** X13.  [getImageSize] takes a dimension from the options when it is
    given there and is neither zero nor NaN, and measures it otherwise.
    For a client box of whole pixels and borders of whole pixels, the
    sums being no larger than the whole numbers a double holds one by one
    (up to 2^53), the measured width is the client width plus the left
    and the right border, the measured height the client height plus the
    top and the bottom border. *)
Theorem getImageSize_measures (win : Window) (targetNode : Node)
    (options : SizeOptions) (width height : Z) (left right top bottom : nat) :
  clientWidth win targetNode = inject_Z width ->
  clientHeight win targetNode = inject_Z height ->
  (0 <= width)%Z -> (0 <= height)%Z ->
  exact_integer (width + Z.of_nat left + Z.of_nat right) = true ->
  exact_integer (height + Z.of_nat top + Z.of_nat bottom) = true ->
  getPropertyValue (computedStyle targetNode) "border-left-width"
  = counter_toString left ++ "px" ->
  getPropertyValue (computedStyle targetNode) "border-right-width"
  = counter_toString right ++ "px" ->
  getPropertyValue (computedStyle targetNode) "border-top-width"
  = counter_toString top ++ "px" ->
  getPropertyValue (computedStyle targetNode) "border-bottom-width"
  = counter_toString bottom ++ "px" ->
  getImageSize win targetNode options
  = (or_else (option_width options)
             (Num (inject_Z (width + Z.of_nat left + Z.of_nat right))),
     or_else (option_height options)
             (Num (inject_Z (height + Z.of_nat top + Z.of_nat bottom)))).
Proof.
  intros Hw Hh _ _ _ _ Hl Hr Ht Hb. unfold getImageSize, getNodeWidth, getNodeHeight.
  rewrite (px_reads _ _ _ Hl), (px_reads _ _ _ Hr),
          (px_reads _ _ _ Ht), (px_reads _ _ _ Hb), Hw, Hh.
  cbn [plus].
  assert (Hsum : forall a b c : Z,
            Qred (Qred (inject_Z a + inject_Z b) + inject_Z c)
            = inject_Z (a + b + c)).
  { intros a b c. apply Qred_integer. rewrite Qred_correct.
    rewrite !inject_Z_plus. reflexivity. }
  now rewrite !Hsum.
Qed.

Lemma getImageSize_measures_witness :
  getImageSize Samples.window Samples.frame (mkSizeOptions (Some (Num 0)) None)
  = (Num 305, Num 151).
Proof.
  apply (getImageSize_measures Samples.window Samples.frame
           (mkSizeOptions (Some (Num 0)) None) 300 150 2 3 1 0);
    first [reflexivity | lia].
Defined.

(** ** mimes.js: the extension of a URL *)

Lemma extension_class (c : ascii) :
  class_match false (CNoneOf ["."; "/"]%char) c = extension_character c.
Proof. rewrite class_match_exact. reflexivity. Qed.

(** A text splits into its longest head of characters of an extension
    and the rest. *)
Lemma extension_run (x : string) :
  exists v t,
    x = v ++ t /\ all_chars extension_character v = true
    /\ match t with
       | String c _ => extension_character c = false
       | EmptyString => True
       end.
Proof.
  induction x as [|c x (v & t & -> & Hv & Ht)].
  - exists EmptyString, EmptyString. auto.
  - destruct (extension_character c) eqn:E.
    + exists (String c v), t. simpl. rewrite E. auto.
    + exists EmptyString, (String c (v ++ t)). auto.
Qed.

Lemma drop_nonempty (n : nat) (v t : string) :
  (n <= String.length v)%nat -> t <> EmptyString ->
  exists c rest, drop n (v ++ t) = String c rest.
Proof.
  revert n; induction v as [|a v IH]; intros n Hn Ht.
  - simpl in Hn. replace n with 0%nat by lia. simpl.
    destruct t; [congruence | eauto].
  - destruct n as [|n]; [simpl; eauto|].
    simpl. apply IH; [simpl in Hn; lia | assumption].
Qed.

(** No extension is read at a dot that has another dot, or a slash,
    somewhere behind it. *)
Lemma extension_not_here (i : nat) (x rest : string) (c : ascii) :
  extension_character c = false ->
  match_at false (pattern extensionRegex) i (String "." (x ++ String c rest)) = None.
Proof.
  intros Hc. unfold match_at.
  change (pattern extensionRegex)
    with (Seq (Lit ".") (Seq (Group 1 (Star false (Chr (CNoneOf ["."; "/"]%char)))) Eol)).
  rewrite m_Seq. unfold Lit. rewrite m_Chr. cbn [class_match class_base Ascii.eqb].
  change (Ascii.eqb "." "." || false && _) with true. cbv iota.
  rewrite m_Seq, m_Group.
  destruct (extension_run x) as (v & t & -> & Hv & Ht).
  rewrite str_append_assoc.
  apply star_fails.
  - eapply all_chars_impl; [|exact Hv]. intros a Ha. now rewrite extension_class.
  - destruct t as [|a t]; cbn [String.append]; rewrite extension_class; assumption.
  - intros n Hn.
    destruct (drop_nonempty n v (t ++ String c rest) Hn) as (a & r & ->).
    + destruct t; discriminate.
    + reflexivity.
Qed.

Lemma extension_here (i : nat) (ext : string) :
  all_chars extension_character ext = true ->
  match_at false (pattern extensionRegex) i (String "." ext)
  = Some (MatchResult i (S i + String.length ext) (String "." ext) [(1%nat, ext)]).
Proof.
  intros Hext. unfold match_at.
  change (pattern extensionRegex)
    with (Seq (Lit ".") (Seq (Group 1 (Star false (Chr (CNoneOf ["."; "/"]%char)))) Eol)).
  rewrite m_Seq. unfold Lit. rewrite m_Chr. cbn [class_match class_base Ascii.eqb].
  change (Ascii.eqb "." "." || false && _) with true. cbv iota.
  rewrite m_Seq, m_Group.
  rewrite <- (str_append_nil ext) at 1.
  erewrite (star_lazy_scan false (CNoneOf ["."; "/"]%char) ext EmptyString (S i)).
  - reflexivity.
  - eapply all_chars_impl; [|exact Hext]. intros a Ha. now rewrite extension_class.
  - intros n Hn.
    destruct (drop_within extension_character ext EmptyString n Hext Hn)
      as (a & r & -> & _).
    reflexivity.
  - cbv beta. rewrite m_Eol.
    replace (S i + String.length ext - S i)%nat with (String.length ext) by lia.
    replace (S i + String.length ext - i)%nat with (S (String.length ext)) by lia.
    cbn [take]. now rewrite str_take_all.
Qed.

Lemma extension_search (i : nat) (base ext : string) :
  all_chars extension_character ext = true ->
  search_from false (pattern extensionRegex) i (base ++ String "." ext)
  = Some (MatchResult (i + String.length base) (S (i + String.length base) + String.length ext)
                      (String "." ext) [(1%nat, ext)]).
Proof.
  intros Hext. revert i; induction base as [|c base IH]; intros i.
  - cbn [String.append String.length]. rewrite Nat.add_0_r.
    apply search_from_here. now apply extension_here.
  - change (String c base ++ String "." ext) with (String c (base ++ String "." ext)).
    cbn [search_from].
    assert (Hfail : match_at false (pattern extensionRegex) i
                      (String c (base ++ String "." ext)) = None).
    { destruct (Ascii.eqb_spec "." c) as [<-|Hne].
      - now apply extension_not_here.
      - unfold match_at.
        change (pattern extensionRegex)
          with (Seq (Lit ".")
                    (Seq (Group 1 (Star false (Chr (CNoneOf ["."; "/"]%char)))) Eol)).
        rewrite m_Seq. unfold Lit. rewrite m_Chr, class_match_exact.
        cbn [class_base]. apply Ascii.eqb_neq in Hne. now rewrite Hne. }
    rewrite Hfail, IH. cbn [String.length]. now rewrite <- !Nat.add_succ_comm.
Qed.

Lemma getExtension_reads (base ext : string) :
  all_chars extension_character ext = true ->
  getExtension (base ++ "." ++ ext) = ext.
Proof.
  intros Hext. unfold getExtension, exec. cbn [Nat.ltb Nat.leb drop].
  change (ignoreCase extensionRegex) with false.
  change ("." ++ ext) with (String "." ext).
  now rewrite (extension_search 0 base ext Hext).
Qed.

(** X14.  The extension of a URL is what follows its last dot, when no
    slash follows that dot; and the content type of the URL is the entry
    the table has for that extension in lower case. *)
Theorem getMimeType_by_extension (base ext contentType : string) :
  all_chars extension_character ext = true ->
  assoc (toLowerCase ext) mimes = Some contentType ->
  getExtension (base ++ "." ++ ext) = ext
  /\ getMimeType (base ++ "." ++ ext) = contentType.
Proof.
  intros Hext Hentry. unfold getMimeType.
  now rewrite (getExtension_reads base ext Hext), Hentry.
Qed.

Lemma getMimeType_by_extension_witness :
  getExtension ("http://example.com/photo.of.me" ++ "." ++ "JPG") = "JPG"
  /\ getMimeType ("http://example.com/photo.of.me" ++ "." ++ "JPG") = "image/jpeg".
Proof.
  apply (getMimeType_by_extension "http://example.com/photo.of.me" "JPG");
    reflexivity.
Defined.

(** X15.  A URL without a dot has no extension and no content type. *)
Theorem getMimeType_without_dot (url : string) :
  contains "." url = false ->
  getExtension url = EmptyString /\ getMimeType url = EmptyString.
Proof.
  intros H.
  assert (E : getExtension url = EmptyString).
  { unfold getExtension, exec. cbn [Nat.ltb Nat.leb drop].
    change (ignoreCase extensionRegex) with false.
    change (pattern extensionRegex)
      with (Seq (Str ".")
                (Seq (Group 1 (Star false (Chr (CNoneOf ["."; "/"]%char)))) Eol)).
    now rewrite (search_from_needs_prefix _ _ _ _ H). }
  split; [assumption|]. unfold getMimeType. now rewrite E.
Qed.

Lemma getMimeType_without_dot_witness :
  getExtension "http://localhost/avatar" = EmptyString
  /\ getMimeType "http://localhost/avatar" = EmptyString.
Proof. apply getMimeType_without_dot. reflexivity. Defined.

(** ** dataurl.js: data URLs *)

Lemma split_on_plain (v t cur : string) :
  all_chars no_comma v = true ->
  split_on "," (v ++ t) cur = split_on "," t (cur ++ v).
Proof.
  revert cur; induction v as [|c v IH]; intros cur Hv.
  - simpl. now rewrite str_append_nil.
  - simpl in Hv. apply andb_prop in Hv as [Hc Hv].
    change (String c v ++ t) with (String c (v ++ t)).
    cbn [split_on]. unfold no_comma in Hc. apply negb_true_iff in Hc. rewrite Hc.
    rewrite IH by assumption. f_equal.
    rewrite str_append_assoc. reflexivity.
Qed.

Lemma skip_prefix_is_prefix (p s : string) :
  match skip_prefix false p s with
  | Some _ => true
  | None => false
  end = String.prefix p s.
Proof.
  revert s; induction p as [|a p IH]; intros [|b s]; simpl; auto.
  unfold ascii_eq_case. rewrite orb_false_r.
  destruct (Ascii.eqb_spec a b) as [->|Hne].
  - destruct (ascii_dec b b); [apply IH | congruence].
  - destruct (ascii_dec a b); [congruence | reflexivity].
Qed.

Lemma isDataUrl_is_prefix (url : string) : isDataUrl url = String.prefix "data:" url.
Proof. rewrite isDataUrl_prefix. apply skip_prefix_is_prefix. Qed.

(** X16.  [isDataUrl] holds exactly of the texts that begin with
    [data:], in lower case. *)
Theorem isDataUrl_iff_prefix (url : string) :
  isDataUrl url = String.prefix "data:" url.
Proof. rewrite isDataUrl_prefix. apply skip_prefix_is_prefix. Qed.

(** X17.  A data URL made by [makeDataUrl] is recognised by [isDataUrl],
    and [getContentFromDataUrl] gives its content back, when neither the
    content nor the content type holds a comma. *)
Theorem makeDataUrl_round_trip (content mimeType : string) :
  all_chars no_comma mimeType = true -> all_chars no_comma content = true ->
  isDataUrl (makeDataUrl (Some content) mimeType) = true
  /\ getContentFromDataUrl (makeDataUrl (Some content) mimeType) = Some content.
Proof.
  intros Hm Hc. split; [reflexivity|].
  unfold getContentFromDataUrl, makeDataUrl. cbn [default from_option id].
  change ("data:" ++ mimeType ++ ";base64," ++ content)
    with ("data:" ++ (mimeType ++ ";base64" ++ String "," content)).
  rewrite (split_on_plain "data:") by reflexivity.
  rewrite (split_on_plain mimeType) by assumption.
  rewrite (split_on_plain ";base64") by reflexivity.
  cbn [split_on Ascii.eqb]. change (Ascii.eqb "," ",") with true. cbv iota.
  rewrite <- (str_append_nil content) at 1.
  rewrite (split_on_plain content) by assumption.
  reflexivity.
Qed.

Lemma makeDataUrl_round_trip_witness :
  isDataUrl (makeDataUrl (Some "AAAA") "image/png") = true
  /\ getContentFromDataUrl (makeDataUrl (Some "AAAA") "image/png") = Some "AAAA".
Proof. apply makeDataUrl_round_trip; reflexivity. Defined.

(** ** dataurl.js: the cache key and the query *)

Lemma query_not_here (i : nat) (c : ascii) (rest : string) :
  no_question c = true ->
  match_at false (pattern queryRegex) i (String c rest) = None.
Proof.
  intros Hc. unfold match_at.
  change (pattern queryRegex) with (Seq (Lit "?") (Star true (Chr CDot))).
  rewrite m_Seq. unfold Lit. rewrite m_Chr, class_match_exact. cbn [class_base].
  unfold no_question in Hc. apply negb_true_iff in Hc.
  now rewrite Ascii.eqb_sym, Hc.
Qed.

Lemma query_search_none (i : nat) (url : string) :
  all_chars no_question url = true ->
  search_from false (pattern queryRegex) i url = None.
Proof.
  revert i; induction url as [|c url IH]; intros i H.
  - reflexivity.
  - simpl in H. apply andb_prop in H as [Hc H].
    cbn [search_from]. rewrite (query_not_here _ _ _ Hc). now apply IH.
Qed.

Lemma query_search (i : nat) (url query : string) :
  all_chars no_question url = true -> all_chars no_line_end query = true ->
  search_from false (pattern queryRegex) i (url ++ String "?" query)
  = Some (MatchResult (i + String.length url)
                      (S (i + String.length url) + String.length query)
                      (String "?" query) []).
Proof.
  intros Hurl Hquery. revert i; induction url as [|c url IH]; intros i.
  - cbn [String.append String.length]. rewrite Nat.add_0_r.
    apply search_from_here. unfold match_at.
    change (pattern queryRegex) with (Seq (Lit "?") (Star true (Chr CDot))).
    rewrite m_Seq. unfold Lit. rewrite m_Chr, class_match_exact. cbn [class_base].
    change (Ascii.eqb "?" "?") with true. cbv iota.
    rewrite <- (str_append_nil query) at 1.
    erewrite (star_greedy_scan false CDot query EmptyString (S i));
      [| | exact I | reflexivity].
    + replace (S i + String.length query - i)%nat with (S (String.length query)) by lia.
      cbn [take]. now rewrite str_take_all.
    + eapply all_chars_impl; [|exact Hquery]. intros a Ha.
      now rewrite class_match_exact.
  - simpl in Hurl. apply andb_prop in Hurl as [Hc Hurl].
    change (String c url ++ String "?" query) with (String c (url ++ String "?" query)).
    cbn [search_from]. rewrite (query_not_here _ _ _ Hc), (IH Hurl).
    cbn [String.length]. now rewrite <- !Nat.add_succ_comm.
Qed.

Lemma str_drop_all (s : string) : drop (String.length s) s = EmptyString.
Proof. induction s; simpl; auto. Qed.

(** X18.  Unless the query is to be part of the key, two URLs that
    differ in their query only have the same cache key: the key of a URL
    with a query is the key of the URL without it. *)
Theorem getCacheKey_ignores_query (url query contentType : string) :
  all_chars no_question url = true -> all_chars no_line_end query = true ->
  getCacheKey (url ++ "?" ++ query) contentType false
  = getCacheKey url contentType false.
Proof.
  intros Hurl Hquery. unfold getCacheKey.
  assert (E1 : replace_first queryRegex (fun _ => EmptyString) (url ++ "?" ++ query)
               = url).
  { unfold replace_first. change (ignoreCase queryRegex) with false.
    change ("?" ++ query) with (String "?" query).
    rewrite (query_search 0 url query Hurl Hquery).
    cbn [m_start m_end]. rewrite Nat.add_0_l, str_take_append.
    replace (S (String.length url) + String.length query)%nat
      with (String.length (url ++ String "?" query))
      by (rewrite str_length_append; simpl; lia).
    rewrite str_drop_all. cbn [String.append]. apply str_append_nil. }
  assert (E2 : replace_first queryRegex (fun _ => EmptyString) url = url).
  { unfold replace_first. change (ignoreCase queryRegex) with false.
    now rewrite (query_search_none 0 url Hurl). }
  now rewrite E1, E2.
Qed.

Lemma getCacheKey_ignores_query_witness :
  getCacheKey ("http://example.com/a.png" ++ "?" ++ "size=2&v=3") "image/png" false
  = getCacheKey "http://example.com/a.png" "image/png" false.
Proof. apply getCacheKey_ignores_query; reflexivity. Defined.

(** ** dataurl.js: a fetch that succeeds, a cache that is bypassed *)

(** X19.  When the key is not in the cache (and names no member every
    object inherits) and the network answers with a status other than
    404 and a body that can be read, [resourceToDataURL] asks for the URL
    as it is (the cache is not to be bypassed) and for nothing else,
    returns the data URL made of the content of what was read and of the
    content type, the one given or else the one of the answer, and
    leaves a cache in which the key gives that data URL and every other
    key what it gave before. *)
Theorem resourceToDataURL_fetches (h : Host) (resourceUrl contentType : string)
    (options : Options) (w : World) (status : nat) (header : option string)
    (result : string) :
  cache w !! getCacheKey resourceUrl contentType (includeQueryParams options) = None ->
  inherited (getCacheKey resourceUrl contentType (includeQueryParams options)) = false ->
  cacheBust options = false ->
  fetch h (length (requests w)) resourceUrl = Responded status header (Some result) ->
  status <> 404%nat ->
  exists w',
    resourceToDataURL h resourceUrl contentType options w
    = (Normal (makeDataUrl (getContentFromDataUrl result)
                 (if truthy contentType then contentType
                  else default EmptyString header)),
       w')
    /\ requests w' = (requests w ++ [resourceUrl])%list
    /\ cache w' !! getCacheKey resourceUrl contentType (includeQueryParams options)
       = Some (makeDataUrl (getContentFromDataUrl result)
                 (if truthy contentType then contentType
                  else default EmptyString header))
    /\ (forall key,
          key <> getCacheKey resourceUrl contentType (includeQueryParams options) ->
          cache w' !! key = cache w !! key).
Proof.
  intros Hmiss _ Hbust Hfetch Hstatus.
  unfold resourceToDataURL, start. rewrite Hmiss, Hbust.
  cbn [p_request p_resourceUrl]. rewrite Hfetch.
  unfold settle, fetchAsDataURL.
  apply Nat.eqb_neq in Hstatus. rewrite Hstatus.
  eexists. split; [reflexivity|].
  cbn [process try_catch p_contentType p_cacheKey set_cache log_request cache requests].
  split; [reflexivity|]. split; [apply lookup_insert_eq|].
  intros key Hkey. now apply lookup_insert_ne.
Qed.

Lemma resourceToDataURL_fetches_witness :
  exists w',
    resourceToDataURL Samples.host Samples.picture EmptyString no_options initial
    = (Normal "data:image/png;base64,AAAA", w')
    /\ requests w' = [Samples.picture]
    /\ cache w' !! "http://example.com/a.png" = Some "data:image/png;base64,AAAA"
    /\ (forall key, key <> "http://example.com/a.png" ->
                    cache w' !! key = (∅ : gmap string string) !! key).
Proof.
  apply (resourceToDataURL_fetches Samples.host Samples.picture EmptyString
           no_options initial 200 (Some "image/png") "data:image/png;base64,AAAA");
    try reflexivity.
  lia.
Defined.

Lemma no_question_test (url : string) :
  all_chars no_question url = true -> test (Regex (Lit "?") false) url = false.
Proof.
  intros H. unfold test. cbn [ignoreCase pattern].
  assert (E : forall i, search_from false (Lit "?") i url = None).
  { induction url as [|c url IH]; intros i; [reflexivity|].
    simpl in H. apply andb_prop in H as [Hc H].
    cbn [search_from]. unfold match_at, Lit. rewrite m_Chr, class_match_exact.
    cbn [class_base]. unfold no_question in Hc. apply negb_true_iff in Hc.
    rewrite Ascii.eqb_sym, Hc. now apply IH. }
  now rewrite E.
Qed.

(** X20.  Bypassing the cache changes the request, not the key.  For a
    URL without a question mark whose key is not in the cache (and names
    no member every object inherits), [resourceToDataURL] asks for the
    URL with a question mark and the time behind it; when the answer to
    that request has a status other than 404 and a body that can be
    read, it returns the data URL made of it and leaves a cache in which
    the key of the URL itself gives that data URL and every other key
    what it gave before. *)
Theorem resourceToDataURL_cache_bust (h : Host) (resourceUrl contentType : string)
    (options : Options) (w : World) (status : nat) (header : option string)
    (result : string) :
  cacheBust options = true ->
  cache w !! getCacheKey resourceUrl contentType (includeQueryParams options) = None ->
  inherited (getCacheKey resourceUrl contentType (includeQueryParams options)) = false ->
  all_chars no_question resourceUrl = true ->
  (0 <= Date_getTime h (length (requests w)) <= 8640000000000000)%Z ->
  fetch h (length (requests w))
        (resourceUrl ++ "?" ++ Z_toString (Date_getTime h (length (requests w))))
  = Responded status header (Some result) ->
  status <> 404%nat ->
  exists w',
    resourceToDataURL h resourceUrl contentType options w
    = (Normal (makeDataUrl (getContentFromDataUrl result)
                 (if truthy contentType then contentType
                  else default EmptyString header)),
       w')
    /\ requests w'
       = (requests w
          ++ [(resourceUrl ++ "?"
               ++ Z_toString (Date_getTime h (length (requests w))))%string])%list
    /\ cache w' !! getCacheKey resourceUrl contentType (includeQueryParams options)
       = Some (makeDataUrl (getContentFromDataUrl result)
                 (if truthy contentType then contentType
                  else default EmptyString header))
    /\ (forall key,
          key <> getCacheKey resourceUrl contentType (includeQueryParams options) ->
          cache w' !! key = cache w !! key).
Proof.
  intros Hbust Hmiss _ Hurl _ Hfetch Hstatus.
  unfold resourceToDataURL, start. rewrite Hmiss, Hbust.
  rewrite (no_question_test _ Hurl).
  cbn [p_request p_resourceUrl]. rewrite Hfetch.
  unfold settle, fetchAsDataURL.
  apply Nat.eqb_neq in Hstatus. rewrite Hstatus.
  eexists. split; [reflexivity|].
  cbn [process try_catch p_contentType p_cacheKey set_cache log_request cache requests].
  split; [reflexivity|]. split; [apply lookup_insert_eq|].
  intros key Hkey. now apply lookup_insert_ne.
Qed.

Lemma resourceToDataURL_cache_bust_witness :
  exists w',
    resourceToDataURL Samples.host Samples.picture "image/png"
      (mkOptions None Undefined false EmptyString true true EmptyString) initial
    = (Normal "data:image/png;base64,AAAA", w')
    /\ requests w' = ["http://example.com/a.png?0"]
    /\ cache w' !! "[image/png]http://example.com/a.png?0" = None
    /\ cache w' !! "[image/png]http://example.com/a.png"
       = Some "data:image/png;base64,AAAA".
Proof.
  destruct (resourceToDataURL_cache_bust Samples.host Samples.picture "image/png"
              (mkOptions None Undefined false EmptyString true true EmptyString)
              initial 200 (Some "image/png") "data:image/png;base64,AAAA"
              eq_refl eq_refl eq_refl eq_refl ltac:(simpl; lia)
              eq_refl ltac:(lia))
    as (w' & Hresult & Hrequests & Hkey & Hother).
  exists w'. split; [exact Hresult|]. split; [exact Hrequests|].
  split; [|exact Hkey].
  rewrite Hother; [reflexivity|]. apply String.eqb_neq. reflexivity.
Defined.

(** ** src/util.js: array-likes *)

(** X21.  [toArray] returns the items of the array-like in their order,
    all of them and nothing else. *)
Theorem toArray_identity {A : Type} (arrayLike : list A) :
  toArray arrayLike = arrayLike.
Proof.
  unfold toArray.
  assert (H : forall acc,
            fold_left (fun arr item => (arr ++ [item])%list) arrayLike acc
            = (acc ++ arrayLike)%list).
  { induction arrayLike as [|x l IH]; intros acc; simpl.
    - now rewrite app_nil_r.
    - rewrite IH, <- app_assoc. reflexivity. }
  apply H.
Qed.

(** ** src/clone-node.js: the properties of the resolved style *)

(** X22.  In a host that gives no serialized text for the resolved
    style, [cloneCSSStyle] declares on the clone every property of the
    resolved style with the value and the priority it has there; the
    exceptions are [font-size], [display] and [d], which it may adjust. *)
Theorem cloneCSSStyle_copies_properties (nativeNode : Node) (clonedNode : Clone)
    (targetStyle : CloneStyle) (name : string) :
  c_style clonedNode = Some targetStyle ->
  cssText (computedStyle nativeNode) = EmptyString ->
  In name (map d_name (declarations (computedStyle nativeNode))) ->
  name <> "font-size" -> name <> "display" -> name <> "d" ->
  exists applied,
    c_style (cloneCSSStyle nativeNode clonedNode) = Some applied
    /\ declared applied name
       = Some (Declaration name
                 (getPropertyValue (computedStyle nativeNode) name)
                 (getPropertyPriority (computedStyle nativeNode) name)).
Proof.
  intros Hstyle Htext Hin Hfont Hdisplay Hd.
  unfold cloneCSSStyle. rewrite Hstyle, Htext. cbn [truthy].
  eexists. split; [reflexivity|].
  rewrite toArray_id, declared_copied by assumption.
  unfold adjusted_value.
  apply String.eqb_neq in Hfont, Hdisplay, Hd.
  rewrite Hfont, Hdisplay, Hd. cbn [andb]. rewrite andb_false_r. reflexivity.
Qed.

Lemma cloneCSSStyle_copies_properties_witness :
  exists applied,
    c_style (cloneCSSStyle Samples.A (shallow Samples.A)) = Some applied
    /\ declared applied "color" = Some (Declaration "color" "red" "important").
Proof.
  apply (cloneCSSStyle_copies_properties Samples.A (shallow Samples.A) empty_style
           "color");
    try reflexivity; try (apply String.eqb_neq; reflexivity).
  simpl. auto.
Defined.

(** ** src/clone-node.js: form controls *)

Lemma assoc_set_get (k v : string) (l : list (string * string)) :
  assoc k (assoc_set k v l) = Some v.
Proof.
  induction l as [|[k' v'] l IH]; simpl.
  - now rewrite String.eqb_refl.
  - destruct (String.eqb k' k) eqn:E; simpl.
    + now rewrite String.eqb_refl.
    + now rewrite E.
Qed.

Lemma clone_each_interface (cn : Node -> M (option Clone)) (children : list Node)
    (clonedNode : Clone) (w : World) (c : Clone) (w' : World) :
  clone_each cn children clonedNode w = (Normal c, w') ->
  c_interface c = c_interface clonedNode.
Proof.
  revert clonedNode w; induction children as [|child rest IH]; intros clonedNode w.
  - cbn. now intros [= <- <-].
  - cbn [clone_each]. unfold bind.
    destruct (cn child w) as [[[cc|] | error |] w1]; try discriminate.
    + intros H. now rewrite (IH _ _ H).
    + apply IH.
Qed.

Lemma cloneChildren_interface cn (nativeNode : Node) (clonedNode : Clone)
    (options : Options) (w : World) (c : Clone) (w' : World) :
  cloneChildren cn nativeNode clonedNode options w = (Normal c, w') ->
  c_interface c = c_interface clonedNode.
Proof.
  unfold cloneChildren. destruct (_ || _).
  - now intros [= <- <-].
  - apply clone_each_interface.
Qed.

Lemma clonePseudoElement_interface (h : Host) (nativeNode : Node)
    (clonedNode : Clone) (pseudo : Pseudo) (w : World) :
  c_interface (fst (clonePseudoElement h nativeNode clonedNode pseudo w))
  = c_interface clonedNode.
Proof.
  unfold clonePseudoElement. destruct (_ || _); [reflexivity|].
  destruct (uuid h w) as [className w1].
  destruct (c_classNameSetter clonedNode); reflexivity.
Qed.

Lemma ensureSVGSymbols_attributes (h : Host) cn (clone : Clone) (options : Options)
    (w : World) (final : Clone) (w' : World) :
  ensureSVGSymbols h cn clone options w = (Normal final, w') ->
  c_attributes final = c_attributes clone.
Proof.
  unfold ensureSVGSymbols.
  destruct (querySelectorAll_use clone) as [|use uses].
  - now intros [= <- <-].
  - unfold bind.
    destruct (collect_definitions h cn clone options (use :: uses) [] w)
      as [[defs | error |] w1]; try discriminate.
    destruct (map snd defs) as [|node nodes]; now intros [= <- <-].
Qed.

(** What [cloneNode] does for a node that is not filtered out. *)
Lemma cloneNode_steps (h : Host) (fuel : nat) (node : Node) (options : Options)
    (isRoot : bool) (w : World) (c : Clone) (w' : World) :
  cloneNode h fuel node options isRoot w = (Normal (Some c), w') ->
  exists fuel' c1 w1 c2 w2 w3,
    fuel = S fuel'
    /\ cloneSingleNode h (cloneNode h fuel') node options w = (Normal c1, w1)
    /\ cloneChildren (cloneNode h fuel') node c1 options w1 = (Normal c2, w2)
    /\ w3 = snd (decorate h node c2 w2)
    /\ ensureSVGSymbols h (cloneNode h fuel') (fst (decorate h node c2 w2)) options w3
       = (Normal c, w').
Proof.
  intros H.
  assert (Hfilter : negb isRoot
                    && match filter options with
                       | Some f => negb (f node)
                       | None => false
                       end = false).
  { destruct fuel; cbn [cloneNode] in H;
      destruct (negb isRoot && _); [discriminate H | reflexivity
                                   | discriminate H | reflexivity]. }
  destruct fuel as [|fuel]; cbn [cloneNode] in H; rewrite Hfilter in H;
    [discriminate H|].
  unfold bind, lift, ret in H.
  destruct (cloneSingleNode h (cloneNode h fuel) node options w)
    as [[c1 | error |] w1] eqn:E1; try discriminate H.
  destruct (cloneChildren (cloneNode h fuel) node c1 options w1)
    as [[c2 | error |] w2] eqn:E2; try discriminate H.
  destruct (decorate h node c2 w2) as [c3 w3] eqn:E3.
  destruct (ensureSVGSymbols h (cloneNode h fuel) c3 options w3)
    as [[c4 | error |] w4] eqn:E4; try discriminate H.
  injection H as <- <-.
  exists fuel, c1, w1, c2, w2, w3. rewrite E3. cbn [fst snd]. auto.
Qed.

Lemma cloneSingleNode_control (h : Host) cn (node : Node) (options : Options) :
  n_interface node = HTMLInputElement \/ n_interface node = HTMLTextAreaElement ->
  cloneSingleNode h cn node options = ret (shallow node).
Proof.
  unfold cloneSingleNode. intros [-> | ->]; reflexivity.
Qed.

(** X23.  The clone of an input element carries the live value of the
    element as its [value] attribute, whatever the attribute of the
    source says. *)
Theorem cloneNode_input_value (h : Host) (fuel : nat) (node : Node)
    (options : Options) (isRoot : bool) (w : World) (c : Clone) (w' : World) :
  n_interface node = HTMLInputElement ->
  cloneNode h fuel node options isRoot w = (Normal (Some c), w') ->
  getAttribute c "value" = Some (value node).
Proof.
  intros Hinput H.
  apply cloneNode_steps in H as (fuel' & c1 & w1 & c2 & w2 & w3 & -> & H1 & H2 & -> & H4).
  rewrite cloneSingleNode_control in H1 by auto. injection H1 as <- <-.
  apply cloneChildren_interface in H2. cbn [shallow c_interface] in H2.
  apply ensureSVGSymbols_attributes in H4.
  unfold getAttribute. rewrite H4. unfold decorate.
  rewrite H2, Hinput. cbn [isInstanceOfElement is_element interface_eqb negb].
  destruct (clonePseudoElements h node (cloneCSSStyle node c2) w2) as [c3 w3].
  unfold cloneSelectValue, cloneInputValue. rewrite Hinput.
  cbn [isInstanceOfElement interface_eqb fst setAttribute set_attributes c_attributes].
  apply assoc_set_get.
Qed.

Lemma cloneNode_input_value_witness :
  getAttribute
    (Samples.cloned
       (cloneNode Samples.host 3
          (mkNode HTMLInputElement (Some "INPUT") [("value", "typed before")]
                  EmptyString Assigns true EmptyString [] None None None
                  Samples.resolved Samples.no_content Samples.no_content
                  "typed since" EmptyString EmptyString EmptyString EmptyString)
          no_options true initial))
    "value"
  = Some "typed since".
Proof.
  apply (cloneNode_input_value Samples.host 3
           (mkNode HTMLInputElement (Some "INPUT") [("value", "typed before")]
                   EmptyString Assigns true EmptyString [] None None None
                   Samples.resolved Samples.no_content Samples.no_content
                   "typed since" EmptyString EmptyString EmptyString EmptyString)
           no_options true initial _ initial);
    reflexivity.
Defined.

(** ** src/embed-webfonts.js: a sheet of plain rules *)

(** *** Pattern characters under the [i] flag *)

Lemma ascii_all (a : ascii) : In a (map ascii_of_nat (seq 0 256)).
Proof.
  rewrite <- (ascii_nat_embedding a). apply in_map, in_seq.
  pose proof (nat_ascii_bounded a). lia.
Qed.

Lemma lit_ci (a b : ascii) : class_match true (CLit a) b = ascii_eq_case true a b.
Proof.
  assert (H : forallb (fun x =>
                forallb (fun y => Bool.eqb (class_match true (CLit x) y)
                                           (ascii_eq_case true x y))
                        (map ascii_of_nat (seq 0 256)))
              (map ascii_of_nat (seq 0 256)) = true) by (vm_compute; reflexivity).
  rewrite forallb_forall in H. specialize (H a (ascii_all a)).
  rewrite forallb_forall in H. specialize (H b (ascii_all b)).
  now apply Bool.eqb_prop in H.
Qed.

Lemma m_Str_ci {R : Type} (p : string) (i : nat) (s : string) (cs : caps)
    (k : nat -> string -> caps -> option R) :
  m true (Str p) i s cs k
  = match skip_prefix true p s with
    | Some t => k (i + String.length p)%nat t cs
    | None => None
    end.
Proof.
  revert i s; induction p as [|a p IH]; intros i s.
  - simpl. now rewrite Nat.add_0_r.
  - assert (Hone : forall (k' : nat -> string -> caps -> option R),
               m true (Lit a) i s cs k'
               = match s with
                 | String b s' => if ascii_eq_case true a b then k' (S i) s' cs else None
                 | EmptyString => None
                 end).
    { intros k'. unfold Lit. destruct s as [|b s'].
      - apply m_Chr_nil.
      - now rewrite m_Chr, lit_ci. }
    destruct p as [|a' p'].
    + cbn [Str]. rewrite Hone. cbn [skip_prefix String.length].
      destruct s as [|b s']; [reflexivity|].
      destruct (ascii_eq_case true a b); [|reflexivity].
      now rewrite Nat.add_1_r.
    + change (Str (String a (String a' p'))) with (Seq (Lit a) (Str (String a' p'))).
      rewrite m_Seq, Hone.
      destruct s as [|b s']; [reflexivity|].
      cbn [skip_prefix]. destruct (ascii_eq_case true a b); [|reflexivity].
      rewrite IH. cbn [String.length].
      now replace (i + S (S (String.length p')))%nat
        with (S i + S (String.length p'))%nat by lia.
Qed.

Lemma str_drop_beyond (n : nat) (s : string) :
  (String.length s <= n)%nat -> drop n s = EmptyString.
Proof.
  intros H. pose proof (str_length_drop n s) as Hl.
  destruct (drop n s); [reflexivity | simpl in Hl; lia].
Qed.

(** A text that occurs nowhere, whatever the case, is at no position. *)
Lemma contains_ci_absent (needle s : string) :
  needle <> EmptyString -> contains_ci needle s = false ->
  forall n, skip_prefix true needle (drop n s) = None.
Proof.
  unfold contains_ci, test. cbn [ignoreCase pattern]. intros Hne.
  destruct (search_from true (Str needle) 0 s) eqn:E; [discriminate|].
  intros _ n. destruct (Nat.le_gt_cases n (String.length s)) as [Hn|Hn].
  - pose proof (search_from_none _ _ _ _ E n Hn) as H.
    unfold match_at in H. rewrite m_Str_ci in H.
    destruct (skip_prefix true needle (drop n s)); [discriminate | reflexivity].
  - rewrite str_drop_beyond by lia. destruct needle; [congruence | reflexivity].
Qed.

(** *** What a pattern needs *)

(** The matcher calls its continuation on the text from some position
    on; when the continuation fails on all of these, so does the match. *)
Lemma m_fails {R : Type} (icase : bool) (r : re) (i : nat) (s : string) (cs : caps)
    (k : nat -> string -> caps -> option R) :
  (forall n cs', k (i + n)%nat (drop n s) cs' = None) ->
  m icase r i s cs k = None.
Proof.
  intros Hk. destruct (m icase r i s cs k) as [x|] eqn:E; [|reflexivity].
  apply m_reaches in E as (j & cs' & H & Hlo & Hhi).
  specialize (Hk (j - i)%nat cs').
  replace (i + (j - i))%nat with j in Hk by lia. congruence.
Qed.

Lemma commentsRegex_search_none (i : nat) (s : string) :
  (forall n, skip_prefix true "/*" (drop n s) = None) ->
  search_from true (pattern commentsRegex) i s = None.
Proof.
  intros H. apply search_from_fails. intros n Hn. unfold match_at.
  change (pattern commentsRegex)
    with (Group 1 (Seq (Str "/*") (Seq (Star false (Chr CAny)) (Str "*/")))).
  now rewrite m_Group, m_Seq, m_Str_ci, H.
Qed.

Lemma keyframesRegex_search_none (i : nat) (s : string) :
  (forall n, skip_prefix true "keyframes " (drop n s) = None) ->
  search_from true (pattern keyframesRegex) i s = None.
Proof.
  intros H. apply search_from_fails. intros n Hn. unfold match_at.
  change (pattern keyframesRegex)
    with (Group 1
            (Seq (Group 2 (Seq (Lit "@")
                               (Seq (Star false (Chr CDot))
                                    (Seq (Str "keyframes ") (Star false (Chr CAny))))))
                 (Seqs [Lit "{";
                        Group 3 (Seqs [Star false (Chr CAny); Lit "}";
                                       Star false (Chr CSpace)]);
                        Lit "}"]))).
  rewrite m_Group, m_Seq, m_Group, m_Seq.
  apply m_fails. intros n1 cs1. rewrite m_Seq.
  apply m_fails. intros n2 cs2.
  now rewrite m_Seq, m_Str_ci, !str_drop_drop, H.
Qed.

Lemma importRegex_search_none (i : nat) (s : string) :
  (forall n, skip_prefix true "@import" (drop n s) = None) ->
  search_from true (pattern importRegex) i s = None.
Proof.
  intros H. apply search_from_fails. intros n Hn. unfold match_at.
  change (pattern importRegex)
    with (Seq (Str "@import")
              (Seqs [Star false (Chr CAny); Str "url(";
                     Star true (Chr (CNoneOf [")"%char])); Lit ")";
                     Star false (Chr CAny); Lit ";"])).
  now rewrite m_Seq, m_Str_ci, H.
Qed.

(** The two alternatives of [unifiedRegex]. *)
Lemma unifiedRegex_pattern :
  pattern unifiedRegex
  = Alt
      (Group 1
         (Seq (Group 2
                 (Seq (Star false (Chr CSpace))
                    (Seq (Opt (Seqs [Str "/*"; Star false (Chr CAny); Str "*/"]))
                       (Seq (Star false (Chr CSpace))
                          (Seq (Str "@media") (Star false (Chr CAny)))))))
              (Seqs [Lit "{"; Group 3 (Star false (Chr CAny)); Lit "}";
                     Star false (Chr CSpace); Lit "}"])))
      (Group 4
         (Seq (Group 5 (Star false (Chr CAny)))
              (Seq (Lit "{")
                   (Seq (Group 6 (Star false (Chr CAny))) (Lit "}"))))).
Proof. reflexivity. Qed.

Lemma media_fails {R : Type} (r : re) (i : nat) (s : string) (cs : caps)
    (k : nat -> string -> caps -> option R) :
  (forall n, skip_prefix true "@media" (drop n s) = None) ->
  m true
    (Group 1
       (Seq (Group 2
               (Seq (Star false (Chr CSpace))
                  (Seq (Opt (Seqs [Str "/*"; Star false (Chr CAny); Str "*/"]))
                     (Seq (Star false (Chr CSpace))
                        (Seq (Str "@media") (Star false (Chr CAny)))))))
            r))
    i s cs k = None.
Proof.
  intros H. rewrite m_Group, m_Seq, m_Group, m_Seq.
  apply m_fails. intros n1 cs1. rewrite m_Seq.
  apply m_fails. intros n2 cs2. rewrite m_Seq.
  apply m_fails. intros n3 cs3.
  now rewrite m_Seq, m_Str_ci, !str_drop_drop, H.
Qed.

Lemma open_ci (c : ascii) : class_match true (CLit "{") c = negb (no_open c).
Proof.
  rewrite lit_ci. unfold no_open, ascii_eq_case. rewrite Bool.negb_involutive.
  assert (H : forallb (fun y => Bool.eqb (Ascii.eqb "{" y
                                          || true && Ascii.eqb (to_upper "{") (to_upper y))
                                         (Ascii.eqb y "{"))
                      (map ascii_of_nat (seq 0 256)) = true) by (vm_compute; reflexivity).
  rewrite forallb_forall in H. specialize (H c (ascii_all c)).
  now apply Bool.eqb_prop in H.
Qed.

Lemma close_ci (c : ascii) : class_match true (CLit "}") c = negb (no_close c).
Proof.
  rewrite lit_ci. unfold no_close, ascii_eq_case. rewrite Bool.negb_involutive.
  assert (H : forallb (fun y => Bool.eqb (Ascii.eqb "}" y
                                          || true && Ascii.eqb (to_upper "}") (to_upper y))
                                         (Ascii.eqb y "}"))
                      (map ascii_of_nat (seq 0 256)) = true) by (vm_compute; reflexivity).
  rewrite forallb_forall in H. specialize (H c (ascii_all c)).
  now apply Bool.eqb_prop in H.
Qed.

(** Without an opening brace no rule is found. *)
Lemma unifiedRegex_search_none (i : nat) (s : string) :
  (forall n, skip_prefix true "@media" (drop n s) = None) ->
  all_chars no_open s = true ->
  search_from true (pattern unifiedRegex) i s = None.
Proof.
  intros Hmedia Hopen. apply search_from_fails. intros n Hn. unfold match_at.
  rewrite unifiedRegex_pattern, m_Alt, media_fails
    by (intros n'; rewrite str_drop_drop; apply Hmedia).
  rewrite m_Group, m_Seq, m_Group.
  apply m_fails. intros n1 cs1. rewrite m_Seq, str_drop_drop. unfold Lit.
  pose proof (all_chars_drop no_open (n + n1) s Hopen) as Hd.
  destruct (drop (n + n1) s) as [|c t]; [apply m_Chr_nil|].
  simpl in Hd. apply andb_prop in Hd as [Hc _].
  now rewrite m_Chr, open_ci, Hc.
Qed.

(** The second alternative reads one rule: the selector up to the first
    opening brace, the declarations up to the first closing one. *)
Lemma unifiedRegex_reads (i : nat) (selector body rest : string) :
  (forall n, skip_prefix true "@media"
               (drop n (rule_text (selector, body) ++ rest)) = None) ->
  all_chars no_open selector = true -> all_chars no_close body = true ->
  match_at true (pattern unifiedRegex) i (rule_text (selector, body) ++ rest)
  = Some (MatchResult i (i + String.length (rule_text (selector, body)))
            (rule_text (selector, body))
            [(4%nat, rule_text (selector, body)); (6%nat, body); (5%nat, selector)]).
Proof.
  intros Hmedia Hsel Hbody. unfold match_at.
  rewrite unifiedRegex_pattern, m_Alt, media_fails by exact Hmedia.
  unfold rule_text in *. cbn [fst snd] in *.
  rewrite !str_append_assoc.
  change ("{" ++ body ++ "}" ++ rest) with (String "{" (body ++ String "}" rest)).
  set (whole := selector ++ String "{" (body ++ String "}" rest)).
  assert (Hlen : String.length (selector ++ "{" ++ body ++ "}")
                 = (String.length selector + S (String.length body + 1))%nat).
  { change ("{" ++ body ++ "}") with (String "{" (body ++ "}")).
    rewrite str_length_append. cbn [String.length].
    rewrite str_length_append. reflexivity. }
  assert (Htake : take (String.length selector + S (String.length body + 1)) whole
                  = selector ++ "{" ++ body ++ "}").
  { rewrite <- Hlen. unfold whole.
    replace (selector ++ String "{" (body ++ String "}" rest))
      with ((selector ++ "{" ++ body ++ "}") ++ rest).
    - apply str_take_append.
    - rewrite !str_append_assoc.
      change ("{" ++ body ++ "}" ++ rest) with (String "{" (body ++ String "}" rest)).
      reflexivity. }
  rewrite m_Group, m_Seq, m_Group.
  erewrite (star_lazy_scan true CAny selector (String "{" (body ++ String "}" rest)) i).
  - reflexivity.
  - eapply all_chars_impl; [|exact Hsel]. reflexivity.
  - intros n Hn.
    destruct (drop_within no_open selector (String "{" (body ++ String "}" rest))
                n Hsel Hn) as (c & t & -> & Hc).
    rewrite m_Seq. unfold Lit. now rewrite m_Chr, open_ci, Hc.
  - cbv beta. rewrite m_Seq. unfold Lit at 1.
    rewrite m_Chr, open_ci. change (no_open "{") with false. cbn [negb].
    rewrite m_Seq, m_Group.
    erewrite (star_lazy_scan true CAny body (String "}" rest)
                (S (i + String.length selector))).
    + reflexivity.
    + eapply all_chars_impl; [|exact Hbody]. reflexivity.
    + intros n Hn.
      destruct (drop_within no_close body (String "}" rest) n Hbody Hn)
        as (c & t & -> & Hc).
      unfold Lit. now rewrite m_Chr, close_ci, Hc.
    + cbv beta. unfold Lit. rewrite m_Chr, close_ci.
      change (no_close "}") with false. cbn [negb].
      rewrite Hlen.
      replace (S (S (i + String.length selector) + String.length body) - i)%nat
        with (String.length selector + S (String.length body + 1))%nat by lia.
      replace (S (i + String.length selector) + String.length body
               - S (i + String.length selector))%nat
        with (String.length body) by lia.
      replace (i + String.length selector - i)%nat
        with (String.length selector) by lia.
      fold whole. rewrite Htake.
      rewrite (str_take_append body (String "}" rest)).
      unfold whole. rewrite (str_take_append selector).
      f_equal. f_equal. lia.
Qed.

(** *** The loops *)

Lemma exec_none (rx : regex) (lastIndex : nat) (str : string) :
  search_from (ignoreCase rx) (pattern rx) lastIndex (drop lastIndex str) = None ->
  fst (exec rx lastIndex str) = None.
Proof.
  intros H. unfold exec. destruct (String.length str <? lastIndex)%nat; [reflexivity|].
  now rewrite H.
Qed.

Lemma replace_all_none (rx : regex) (rep str : string) :
  search_from (ignoreCase rx) (pattern rx) 0 str = None ->
  replace_all rx rep str = str.
Proof.
  intros H. unfold replace_all, replace_all_st. now rewrite replace_from_S, H.
Qed.

Lemma sheet_text_length (rules : list (string * string)) (rest : string) :
  (length rules <= String.length (sheet_text rules rest))%nat.
Proof.
  induction rules as [|[selector body] rules IH]; [simpl; lia|].
  cbn [sheet_text fold_right length]. fold (sheet_text rules rest).
  unfold rule_text. cbn [fst snd].
  rewrite !str_append_assoc.
  change ("{" ++ body ++ "}" ++ sheet_text rules rest)
    with (String "{" (body ++ String "}" (sheet_text rules rest))).
  rewrite str_length_append. cbn [String.length].
  rewrite str_length_append. cbn [String.length]. lia.
Qed.

Lemma rules_loop_plain (rules : list (string * string)) (before rest : string)
    (fuel : nat) (result : list string) :
  (forall n, skip_prefix true "@import"
               (drop n (before ++ sheet_text rules rest)) = None) ->
  (forall n, skip_prefix true "@media"
               (drop n (before ++ sheet_text rules rest)) = None) ->
  forallb plain_rule rules = true -> all_chars no_open rest = true ->
  (length rules < fuel)%nat ->
  rules_loop fuel (before ++ sheet_text rules rest)
             (String.length before) (String.length before) result
  = (result ++ map rule_text rules)%list.
Proof.
  revert before fuel result.
  induction rules as [|[selector body] rules IH];
    intros before fuel result Himport Hmedia Hplain Hrest Hfuel;
    (destruct fuel as [|fuel]; [simpl in Hfuel; lia|]);
    rewrite rules_loop_S.
  - cbn [sheet_text fold_right map] in *.
    pose proof (exec_none importRegex (String.length before) (before ++ rest)) as Hi.
    destruct (exec importRegex _ _) as [[mr|] li];
      [cbn [fst] in Hi; discriminate Hi;
       apply importRegex_search_none; intros n; rewrite str_drop_drop; apply Himport|].
    pose proof (exec_none unifiedRegex (String.length before) (before ++ rest)) as Hu.
    destruct (exec unifiedRegex _ _) as [[mr|] lu].
    + cbn [fst] in Hu. discriminate Hu.
      rewrite str_drop_append. apply unifiedRegex_search_none; [|assumption].
      intros n. specialize (Hmedia (String.length before + n)%nat).
      now rewrite <- str_drop_drop, str_drop_append in Hmedia.
    + now rewrite app_nil_r.
  - cbn [sheet_text fold_right map] in *. fold (sheet_text rules rest) in *.
    cbn [forallb] in Hplain. apply andb_prop in Hplain as [Hone Hplain].
    unfold plain_rule in Hone. cbn [fst snd] in Hone.
    apply andb_prop in Hone as [Hsel Hbody].
    pose proof (exec_none importRegex (String.length before)
                  (before ++ rule_text (selector, body) ++ sheet_text rules rest)) as Hi.
    destruct (exec importRegex _ _) as [[mr|] li];
      [cbn [fst] in Hi; discriminate Hi;
       apply importRegex_search_none; intros n; rewrite str_drop_drop; apply Himport|].
    clear Hi.
    assert (Hu : exec unifiedRegex (String.length before)
                   (before ++ rule_text (selector, body) ++ sheet_text rules rest)
                 = (Some (MatchResult (String.length before)
                            (String.length before
                             + String.length (rule_text (selector, body)))
                            (rule_text (selector, body))
                            [(4%nat, rule_text (selector, body)); (6%nat, body);
                             (5%nat, selector)]),
                    (String.length before
                     + String.length (rule_text (selector, body)))%nat)).
    { unfold exec.
      replace (String.length (before ++ rule_text (selector, body)
                                       ++ sheet_text rules rest)
               <? String.length before)%nat with false
        by (symmetry; apply Nat.ltb_ge; rewrite str_length_append; lia).
      rewrite str_drop_append. change (ignoreCase unifiedRegex) with true.
      rewrite (search_from_here _ _ _ _ _
                 (unifiedRegex_reads (String.length before) selector body
                    (sheet_text rules rest)
                    ltac:(intros n;
                          specialize (Hmedia (String.length before + n)%nat);
                          now rewrite <- str_drop_drop, str_drop_append in Hmedia)
                    Hsel Hbody)).
      reflexivity. }
    rewrite Hu. cbn [m_text].
    replace (result ++ rule_text (selector, body) :: map rule_text rules)%list
      with ((result ++ [rule_text (selector, body)]) ++ map rule_text rules)%list
      by (now rewrite <- app_assoc).
    rewrite <- str_length_append.
    rewrite <- (str_append_assoc before).
    apply IH; try assumption; try (simpl in Hfuel; lia);
      intros n; rewrite str_append_assoc; auto.
Qed.

(** X24.  [parseCSS] splits a sheet of plain rules into its rules: for
    a text made of rules one after the other, each a selector without an
    opening brace and declarations without a closing one between braces,
    followed by a rest without an opening brace, it returns the rules in
    their order, each with what stands in front of its selector, and
    drops the rest.  The text is to hold no comment, and none of
    [keyframes ], [@import] and [@media], in either case; rules such as
    [@font-face] are read like any other.  A text without an opening
    brace yields nothing. *)
Theorem parseCSS_plain_rules (rules : list (string * string)) (rest : string) :
  forallb plain_rule rules = true -> all_chars no_open rest = true ->
  contains_ci "/*" (sheet_text rules rest) = false ->
  contains_ci "keyframes " (sheet_text rules rest) = false ->
  contains_ci "@import" (sheet_text rules rest) = false ->
  contains_ci "@media" (sheet_text rules rest) = false ->
  parseCSS (Some (sheet_text rules rest)) = map rule_text rules.
Proof.
  intros Hplain Hrest Hcomment Hkeyframes Himport Hmedia.
  pose proof (contains_ci_absent "/*" _ ltac:(discriminate) Hcomment) as Hc.
  pose proof (contains_ci_absent "keyframes " _ ltac:(discriminate) Hkeyframes) as Hk.
  pose proof (contains_ci_absent "@import" _ ltac:(discriminate) Himport) as Hi.
  pose proof (contains_ci_absent "@media" _ ltac:(discriminate) Hmedia) as Hm.
  unfold parseCSS.
  rewrite (replace_all_none commentsRegex)
    by (apply commentsRegex_search_none; exact Hc).
  rewrite (replace_all_none keyframesRegex)
    by (apply keyframesRegex_search_none; exact Hk).
  unfold loop_bound. rewrite keyframes_loop_S.
  pose proof (exec_none keyframesRegex 0 (sheet_text rules rest)
                (keyframesRegex_search_none 0 _ Hk)) as Hnone.
  destruct (exec keyframesRegex 0 (sheet_text rules rest)) as [[mr|] li];
    [discriminate Hnone|].
  apply (rules_loop_plain rules EmptyString rest _ []); try assumption.
  pose proof (sheet_text_length rules rest). lia.
Qed.

Lemma parseCSS_plain_rules_witness :
  parseCSS
    (Some (sheet_text [("@font-face ", "font-family: A; src: url(a.woff2)");
                       (" .title", "color: red")] " "))
  = ["@font-face {font-family: A; src: url(a.woff2)}"; " .title{color: red}"].
Proof.
  apply (parseCSS_plain_rules
           [("@font-face ", "font-family: A; src: url(a.woff2)");
            (" .title", "color: red")] " ");
    reflexivity.
Defined.

(** ** src/clone-node.js: the root and the filter *)

(** X25.  The filter is not asked about the root: whenever [cloneNode]
    returns for a root, it returns a clone and not [null], also when the
    filter of the options rejects the node. *)
Theorem cloneNode_root_is_cloned (h : Host) (fuel : nat) (node : Node)
    (options : Options) (w : World) (r : option Clone) (w' : World) :
  cloneNode h fuel node options true w = (Normal r, w') ->
  exists clone, r = Some clone.
Proof.
  intros H. destruct r as [clone|]; [eauto|].
  exfalso. exact (cloneNode_root_not_null h fuel node options w w' H).
Qed.

Lemma cloneNode_root_is_cloned_witness :
  Samples.all_but_B Samples.B = false
  /\ exists clone,
       match fst (cloneNode Samples.host 2 Samples.B Samples.filtering true initial) with
       | Normal r => r
       | _ => None
       end = Some clone.
Proof.
  split; [reflexivity|].
  apply (cloneNode_root_is_cloned Samples.host 2 Samples.B Samples.filtering initial _
           (snd (cloneNode Samples.host 2 Samples.B Samples.filtering true initial))).
  vm_compute. reflexivity.
Defined.
